(** * ERP incident enrichment: rule classifier, similarity index, routing
      and retrieval-augmented refinement

    A shallow embedding of
      - [app/models/incident.py]
      - [app/services/enrichment_service.py]       (module [Rules])
      - [app/repositories/vector_repository.py]    (module [VectorRepo])
      - [app/services/rag_enrichment_service.py]   (module [Rag])
      - [app/services/embedding_service.py]        (module [Embedding])
      - [app/repositories/mock_incident_repository.py] (module [MockRepo])
    together with the properties of these components.

    Conventions of the embedding.
      - A Python [str] is a [string]; every character is one code point
        in the range 0..255, so [len] is [String.length].
      - A Python [float] similarity score is a rational number [Q]; the
        comparisons of the source become [Qle_bool] and friends, and the
        arithmetic of the source ([+] in the vote, [round]) rounds to
        binary64 as Python does (module [PyFloat]).  The external numeric
        routines (scikit-learn's [cosine_similarity], numpy's [argsort])
        are parameters of the development.
      - A Python dict whose iteration order is observed is an association
        list in insertion order; a dict used only through lookups is a
        [gmap].
      - Code that may raise returns a [result]; only exceptions derived
        from [Exception] are modelled, which is what [except Exception]
        intercepts. *)

From Stdlib Require Import QArith.
From Stdlib Require Import Permutation Sorted Ascii.
From Stdlib Require String.
From stdpp Require Import gmap strings list fin_maps pretty sorting.

Local Open Scope Z_scope.
Local Open Scope nat_scope.

(* ===================================================================== *)
(** * Exceptions *)
(* ===================================================================== *)

(** An exception is identified by its class and message. *)
Inductive exn : Type :=
  | RuntimeError (msg : string)
  | ValueError (msg : string)
  | OtherException (msg : string).

Inductive result (A : Type) : Type :=
  | Ok (a : A)
  | Raise (e : exn).
Arguments Ok {A} a.
Arguments Raise {A} e.

(* ===================================================================== *)
(** * Data model ([app/models/incident.py]) *)
(* ===================================================================== *)

Inductive IncidentStatus := OPEN | IN_PROGRESS | RESOLVED | CLOSED.
Inductive Severity := P1 | P2 | P3.
Inductive Category :=
  | CONFIGURATION_ISSUE | DATA_ISSUE | INTEGRATION_FAILURE
  | SECURITY_ACCESS | UNKNOWN.
Inductive ERPModule := AP | AR | GL | INVENTORY | HR | PAYROLL.
Inductive Environment := PROD | TEST.

Global Instance Severity_eq_dec : EqDecision Severity.
Proof. solve_decision. Defined.
Global Instance Category_eq_dec : EqDecision Category.
Proof. solve_decision. Defined.
Global Instance IncidentStatus_eq_dec : EqDecision IncidentStatus.
Proof. solve_decision. Defined.

(** The [.value] of the string enums. *)
Definition status_value (s : IncidentStatus) : string :=
  match s with
  | OPEN => "open" | IN_PROGRESS => "in_progress"
  | RESOLVED => "resolved" | CLOSED => "closed"
  end.

Definition severity_value (s : Severity) : string :=
  match s with P1 => "P1" | P2 => "P2" | P3 => "P3" end.

Definition category_value (c : Category) : string :=
  match c with
  | CONFIGURATION_ISSUE => "Configuration Issue"
  | DATA_ISSUE => "Data Issue"
  | INTEGRATION_FAILURE => "Integration Failure"
  | SECURITY_ACCESS => "Security / Access"
  | UNKNOWN => "Unknown"
  end.

Record IncidentCreate := {
  ic_title : string;
  ic_description : string;
  ic_erp_module : ERPModule;
  ic_environment : Environment;
  ic_business_unit : string
}.

(** Timestamps are counted in microseconds, the resolution of
    [datetime]. *)
Definition datetime := Z.

Record IncidentResponse := {
  id : string;
  title : string;
  description : string;
  erp_module : string;
  environment : string;
  business_unit : string;
  severity : Severity;
  category : Category;
  status : IncidentStatus;
  created_at : datetime;
  updated_at : datetime;
  summary : option string;
  suggested_action : option string
}.

(* ===================================================================== *)
(** * String operations of Python used by the services *)
(* ===================================================================== *)

Module Str.

(** [len(s)] *)
Definition len (s : string) : nat := String.length s.

(** [c.lower()] on the code points 0..255: the ASCII capitals and the
    Latin-1 capitals (all of 0xC0..0xDE but the multiplication sign)
    move up by 32. *)
Definition lower_char (c : ascii) : ascii :=
  let n := nat_of_ascii c in
  if ((65 <=? n) && (n <=? 90))
     || ((192 <=? n) && (n <=? 222) && negb (n =? 215))
  then ascii_of_nat (n + 32) else c.

(** [s.lower()] *)
Fixpoint lower (s : string) : string :=
  match s with
  | EmptyString => EmptyString
  | String c s' => String (lower_char c) (lower s')
  end.

(** [s.startswith(p)] *)
Fixpoint startswith (s p : string) {struct p} : bool :=
  match p, s with
  | EmptyString, _ => true
  | String a p', String b s' => if Ascii.eqb a b then startswith s' p' else false
  | String _ _, EmptyString => false
  end.

(** [k in s] for strings: [k] occurs in [s] at some offset. *)
Fixpoint contains (s k : string) : bool :=
  if startswith s k then true
  else match s with
       | EmptyString => false
       | String _ s' => contains s' k
       end.

(** [s.split(sep)[0]]: the text before the first separator, all of
    [s] when the separator does not occur. *)
Fixpoint split_head (sep : ascii) (s : string) : string :=
  match s with
  | EmptyString => EmptyString
  | String c s' =>
      if Ascii.eqb c sep then EmptyString else String c (split_head sep s')
  end.

(** [c.isspace()] on the code points 0..255. *)
Definition isspace (c : ascii) : bool :=
  let n := nat_of_ascii c in
  ((9 <=? n) && (n <=? 13)) || ((28 <=? n) && (n <=? 32))
  || (n =? 133) || (n =? 160).

Fixpoint lstrip (s : string) : string :=
  match s with
  | EmptyString => EmptyString
  | String c s' => if isspace c then lstrip s' else s
  end.

(** [rstrip] keeps a character when it is not a space or when something
    is left after it. *)
Fixpoint rstrip (s : string) : string :=
  match s with
  | EmptyString => EmptyString
  | String c s' =>
      match rstrip s' with
      | EmptyString => if isspace c then EmptyString else String c EmptyString
      | r => String c r
      end
  end.

(** [s.strip()] *)
Definition strip (s : string) : string := rstrip (lstrip s).

(** [s[:n]] for [n >= 0] *)
Fixpoint take (n : nat) (s : string) : string :=
  match n, s with
  | S n', String c s' => String c (take n' s')
  | _, _ => EmptyString
  end.

(** A string made of [n] copies of [c] (Python's [c * n]). *)
Fixpoint replicate (n : nat) (c : ascii) : string :=
  match n with
  | O => EmptyString
  | S n' => String c (replicate n' c)
  end.

(** Predicates used to state what the operations compute. *)
Definition occurs_in (k s : string) : Prop :=
  ∃ pre post, s = pre +:+ k +:+ post.

Fixpoint all_chars (P : ascii → bool) (s : string) : bool :=
  match s with
  | EmptyString => true
  | String c s' => P c && all_chars P s'
  end.

Definition first_char (s : string) : option ascii :=
  match s with EmptyString => None | String c _ => Some c end.

Fixpoint last_char (s : string) : option ascii :=
  match s with
  | EmptyString => None
  | String c EmptyString => Some c
  | String _ s' => last_char s'
  end.

End Str.

(* ===================================================================== *)
(** * The rule classifier ([app/services/enrichment_service.py]) *)
(* ===================================================================== *)

Module Rules.

Definition P1_KEYWORDS : list string :=
  [ "critical"; "down"; "outage"; "stuck"; "blocked"; "cannot process";
    "complete failure"; "system down"; "not working"; "broken";
    "urgent"; "emergency"; "production down"; "all users affected" ].

Definition P2_KEYWORDS : list string :=
  [ "slow"; "delay"; "performance"; "lagging"; "timeout"; "intermittent";
    "some users"; "degraded"; "partial"; "reduced functionality" ].

(** The dict literal, in its insertion order, which is the order in
    which [.items()] yields it. *)
Definition CATEGORY_KEYWORDS : list (Category * list string) :=
  [ (INTEGRATION_FAILURE,
     [ "integration"; "api"; "webhook"; "connection"; "sync"; "import";
       "export"; "interface"; "endpoint"; "service"; "external system" ]);
    (SECURITY_ACCESS,
     [ "access"; "permission"; "authentication"; "authorization"; "login";
       "password"; "credential"; "security"; "unauthorized"; "forbidden";
       "user cannot"; "locked out"; "access denied" ]);
    (DATA_ISSUE,
     [ "data"; "duplicate"; "missing"; "incorrect"; "wrong"; "corrupt";
       "invalid"; "error in data"; "data mismatch"; "record"; "transaction" ]);
    (CONFIGURATION_ISSUE,
     [ "configuration"; "config"; "setting"; "setup"; "parameter";
       "misconfigured"; "wrong setting"; "incorrect config" ]) ].

Definition _normalize_text (text : string) : string := Str.lower text.

(** [f"{incident.title} {incident.description}"] *)
Definition combined_text (incident : IncidentCreate) : string :=
  ic_title incident +:+ " " +:+ ic_description incident.

(** [for keyword in keywords: if keyword in normalized: return ...]:
    [true] when the loop returns. *)
Fixpoint any_keyword_in (keywords : list string) (normalized : string) : bool :=
  match keywords with
  | [] => false
  | keyword :: rest =>
      if Str.contains normalized keyword then true
      else any_keyword_in rest normalized
  end.

Definition determine_severity (incident : IncidentCreate) : Severity :=
  let normalized := _normalize_text (combined_text incident) in
  if any_keyword_in P1_KEYWORDS normalized then P1
  else if any_keyword_in P2_KEYWORDS normalized then P2
  else P3.

(** The outer loop of [determine_category] over the items of the
    table. *)
Fixpoint scan_categories (items : list (Category * list string))
    (normalized : string) : Category :=
  match items with
  | [] => UNKNOWN
  | (category, keywords) :: rest =>
      if any_keyword_in keywords normalized then category
      else scan_categories rest normalized
  end.

Definition determine_category (incident : IncidentCreate) : Category :=
  let normalized := _normalize_text (combined_text incident) in
  scan_categories CATEGORY_KEYWORDS normalized.

Definition generate_summary (incident : IncidentCreate) : string :=
  let title := ic_title incident in
  let description_first_sentence :=
    Str.strip (Str.split_head "." (ic_description incident)) in
  let description_first_sentence :=
    if 100 <? Str.len description_first_sentence
    then Str.take 97 description_first_sentence +:+ "..."
    else description_first_sentence in
  title +:+ ": " +:+ description_first_sentence.

Definition suggest_action (incident : IncidentCreate)
    (category : Category) (severity : Severity) : string :=
  match severity, category with
  | P1, _ => "Immediate escalation required. Contact on-call engineer."
  | _, INTEGRATION_FAILURE =>
      "Check integration logs and verify external system connectivity."
  | _, SECURITY_ACCESS =>
      "Review user permissions and verify access configuration."
  | _, DATA_ISSUE =>
      "Investigate data integrity and verify transaction logs."
  | _, CONFIGURATION_ISSUE =>
      "Review system configuration settings and compare with baseline."
  | _, UNKNOWN =>
      "Review incident details and assign to appropriate team."
  end.

End Rules.

(* ===================================================================== *)
(** * Numeric routines outside the repository *)
(* ===================================================================== *)

(** A similarity score is a Python [float].  It is written as a rational
    number and stands for the float Python reads from it: itself when it
    is a float, the nearest float otherwise (so [9 # 10] stands for the
    float [0.9]).  Comparisons are those of the rationals. *)
Definition score := Q.
Definition embedding := list Q.

(** Python's [float] is the IEEE 754 binary64 format: 53 significant
    bits, the smallest positive value being [2^-1074].  Rounding is to the
    nearest float, a value half way between two floats going to the one
    whose significand is even.  Overflow is left out: the numbers added
    in this program are a few cosines. *)
Module PyFloat.

Definition prec : Z := 53.
Definition emin : Z := (-1074)%Z.

(** The nearest integer, halves going to the even one. *)
Definition rint (q : Q) : Z :=
  let n := Qnum q in
  let d := Z.pos (Qden q) in
  let fl := (n / d)%Z in
  let r := (2 * (n mod d))%Z in
  if (r <? d)%Z then fl
  else if (d <? r)%Z then (fl + 1)%Z
  else if Z.even fl then fl else (fl + 1)%Z.

(** [2^k] for an integer [k] of either sign. *)
Definition pow2 (k : Z) : Q :=
  match k with
  | Z0 => 1
  | Zpos p => inject_Z (2 ^ Zpos p)
  | Zneg p => Qmake 1 (2 ^ p)
  end.

(** The [k] with [2^k <= q < 2^(k+1)], for a positive [q]. *)
Definition ilog2 (q : Q) : Z :=
  let k := (Z.log2 (Qnum q) - Z.log2 (Z.pos (Qden q)))%Z in
  if Qle_bool (pow2 k) q then k else (k - 1)%Z.

(** The float nearest to a positive [q]: a whole number of units
    [2^e] of the last place. *)
Definition round_pos (q : Q) : Q :=
  let e := Z.max (ilog2 q - (prec - 1)) emin in
  Qred (inject_Z (rint (q / pow2 e)) * pow2 e).

(** The float a rational stands for. *)
Definition round (q : Q) : Q :=
  match Qnum q with
  | Z0 => 0
  | Zpos _ => round_pos q
  | Zneg _ => - round_pos (- q)
  end.

(** [a + b] on floats: the exact sum, rounded once. *)
Definition add (a b : Q) : Q := round (round a + round b).

(** [round(x, 3)]: the exact value of the float is rounded to three
    decimals, halves to even, and the float nearest to that decimal is
    returned. *)
Definition round3 (x : Q) : Q := round (Qmake (rint (round x * 1000)) 1000).

End PyFloat.

Module Numpy.

(** [v[i]] for a position of [v]. *)
Definition nth_score (v : list score) (i : nat) : score := nth i v 0%Q.

(** What the repository relies on from [np.argsort]: the answer is a
    permutation of the positions of its argument that lists the values
    in ascending order.  The default kind (quicksort) promises nothing
    about equal values. *)
Definition argsort_contract (argsort : list score → list nat) : Prop :=
  ∀ v, Permutation (argsort v) (seq 0 (length v))
       ∧ StronglySorted (λ i j, (nth_score v i <= nth_score v j)%Q) (argsort v).

(** Ascending, and among equal values by increasing position. *)
Definition stable_le (v : list score) (i j : nat) : Prop :=
  (nth_score v i <= nth_score v j)%Q
  ∧ ((nth_score v i == nth_score v j)%Q → i < j).

(** [np.argsort] itself is not modelled; the examples need some sort
    that meets the contract.  One is insertion sort on the positions
    taken in increasing order: a position moves left only past strictly
    larger values, so equal values stay in increasing position. *)
Fixpoint insert_position (v : list score) (i : nat) (sorted : list nat)
    : list nat :=
  match sorted with
  | [] => [i]
  | j :: rest =>
      if Qle_bool (nth_score v j) (nth_score v i)
      then j :: insert_position v i rest
      else i :: j :: rest
  end.

Definition insertion_argsort (v : list score) : list nat :=
  fold_left (λ sorted i, insert_position v i sorted) (seq 0 (length v)) [].

(** Another is the same insertion with the positions taken in decreasing
    order, which lists equal values by decreasing position. *)
Definition insertion_argsort_desc (v : list score) : list nat :=
  fold_left (λ sorted i, insert_position v i sorted)
    (rev (seq 0 (length v))) [].

End Numpy.

(* ===================================================================== *)
(** * The similarity index ([app/repositories/vector_repository.py]) *)
(* ===================================================================== *)

Module VectorRepo.

(** One call of [incident_repo.list_all(limit=..., status=...)]. *)
Record StoreCall := { call_limit : Z; call_status : string }.

(** What the world outside the index answers during one operation: the
    two readings of [datetime.now()] in [_get_resolved_incidents] (at
    the freshness test and at the capture) and the Incident Store, which
    answers [list_all] with the page of incidents (the pagination key of
    the answer is dropped by both callers) or raises. *)
Record Ambient := {
  now_check : datetime;
  now_capture : datetime;
  list_all : Z → string → result (list IncidentResponse)
}.

(** The attributes of [InMemoryVectorRepository]. *)
Record state := {
  _embeddings : gmap string embedding;
  _metadata : gmap string (gmap string string);
  _resolved_incidents_cache : option (list IncidentResponse);
  _cache_timestamp : option datetime
}.

(** [timedelta(minutes=5)] *)
Definition _cache_ttl : Z := (5 * 60 * 1000000)%Z.

(** [min_similarity = 0.7] *)
Definition min_similarity : score := (7 # 10)%Q.

(** An operation yields its value or exception, the attributes
    afterwards and the calls it made to the Incident Store. *)
Record outcome (A : Type) := {
  value : result A;
  final : state;
  store_calls : list StoreCall
}.
Arguments value {A} o.
Arguments final {A} o.
Arguments store_calls {A} o.

Definition __init__ : state :=
  {| _embeddings := ∅; _metadata := ∅;
     _resolved_incidents_cache := None; _cache_timestamp := None |}.

Definition add_embedding (st : state) (incident_id : string)
    (emb : embedding) (metadata : gmap string string) : outcome unit :=
  {| value := Ok tt;
     final := {| _embeddings := <[incident_id := emb]> (_embeddings st);
                 _metadata := <[incident_id := metadata]> (_metadata st);
                 _resolved_incidents_cache := None;
                 _cache_timestamp := _cache_timestamp st |};
     store_calls := [] |}.

Definition get_embedding (st : state) (incident_id : string)
    : option embedding :=
  _embeddings st !! incident_id.

Definition remove_embedding (st : state) (incident_id : string)
    : outcome unit :=
  {| value := Ok tt;
     final := {| _embeddings := delete incident_id (_embeddings st);
                 _metadata := delete incident_id (_metadata st);
                 _resolved_incidents_cache := None;
                 _cache_timestamp := _cache_timestamp st |};
     store_calls := [] |}.

(** [inc.id in self._embeddings] *)
Definition has_embedding (st : state) (inc : IncidentResponse) : bool :=
  bool_decide (is_Some (_embeddings st !! id inc)).

(** The part of [_get_resolved_incidents] after the cache test. *)
Definition fetch_resolved (st : state) (amb : Ambient)
    : outcome (list IncidentResponse) :=
  let call := {| call_limit := 10000%Z; call_status := "resolved" |} in
  match list_all amb 10000%Z "resolved" with
  | Raise e => {| value := Raise e; final := st; store_calls := [call] |}
  | Ok resolved =>
      let incidents_with_embeddings := filter (λ inc, has_embedding st inc) resolved in
      {| value := Ok incidents_with_embeddings;
         final := {| _embeddings := _embeddings st;
                     _metadata := _metadata st;
                     _resolved_incidents_cache := Some incidents_with_embeddings;
                     _cache_timestamp := Some (now_capture amb) |};
         store_calls := [call] |}
  end.

Definition cache_is_fresh (st : state) (now : datetime) : bool :=
  match _resolved_incidents_cache st, _cache_timestamp st with
  | Some _, Some t => (now - t <? _cache_ttl)%Z
  | _, _ => false
  end.

Definition _get_resolved_incidents (st : state) (amb : Ambient)
    : outcome (list IncidentResponse) :=
  match _resolved_incidents_cache st, _cache_timestamp st with
  | Some cache, Some t =>
      if (now_check amb - t <? _cache_ttl)%Z
      then {| value := Ok cache; final := st; store_calls := [] |}
      else fetch_resolved st amb
  | _, _ => fetch_resolved st amb
  end.

(** [filters.get("status", "resolved") if filters else "resolved"] *)
Definition status_filter_of (filters : option (gmap string string)) : string :=
  match filters with
  | None => "resolved"
  | Some f =>
      if bool_decide (f = ∅) then "resolved"
      else default "resolved" (f !! "status")
  end.

(** The first step of [find_similar]: the candidates for a status. *)
Definition get_candidates (st : state) (amb : Ambient)
    (status_filter : string) : outcome (list IncidentResponse) :=
  if bool_decide (status_filter = "resolved")
  then _get_resolved_incidents st amb
  else
    let call := {| call_limit := 10000%Z; call_status := status_filter |} in
    match list_all amb 10000%Z status_filter with
    | Raise e => {| value := Raise e; final := st; store_calls := [call] |}
    | Ok candidates =>
        {| value := Ok (filter (λ inc, has_embedding st inc) candidates);
           final := st; store_calls := [call] |}
    end.

(** The loop pairing every candidate with its stored vector. *)
Fixpoint pair_with_embeddings (st : state) (candidates : list IncidentResponse)
    : list (IncidentResponse * embedding) :=
  match candidates with
  | [] => []
  | incident :: rest =>
      match _embeddings st !! id incident with
      | Some e => (incident, e) :: pair_with_embeddings st rest
      | None => pair_with_embeddings st rest
      end
  end.

Section Search.

(** One entry of scikit-learn's [cosine_similarity] matrix, and
    numpy's [argsort]. *)
Variable cosine : embedding → embedding → score.
Variable argsort : list score → list nat.

(** [cosine_similarity(query_vector, candidate_vectors)[0]]: the
    arrays are rejected unless every row has the (positive) number of
    features of the query. *)
Definition cosine_similarity (query : embedding)
    (candidate_embeddings : list embedding) : result (list score) :=
  if (0 <? length query)
     && forallb (λ e, length e =? length query) candidate_embeddings
  then Ok (map (cosine query) candidate_embeddings)
  else Raise (ValueError "Incompatible dimension for X and Y matrices").

(** The final loop of [find_similar]; indexing outside an array
    raises. *)
Fixpoint collect (similarities : list score)
    (candidate_incidents : list IncidentResponse) (limit : Z)
    (similar_indices : list nat) (results : list (IncidentResponse * score))
    : result (list (IncidentResponse * score)) :=
  match similar_indices with
  | [] => Ok results
  | idx :: rest =>
      match similarities !! idx with
      | None => Raise (OtherException "IndexError")
      | Some s =>
          if Qle_bool min_similarity s
             && (Z.of_nat (length results) <? limit)%Z
          then match candidate_incidents !! idx with
               | None => Raise (OtherException "IndexError")
               | Some inc =>
                   collect similarities candidate_incidents limit rest
                     (results ++ [(inc, s)])
               end
          else collect similarities candidate_incidents limit rest results
      end
  end.

(** The part of [find_similar] after the candidates are known. *)
Definition rank (st : state) (candidates : list IncidentResponse)
    (query_embedding : embedding) (limit : Z)
    : result (list (IncidentResponse * score)) :=
  match candidates with
  | [] => Ok []
  | _ =>
      let paired := pair_with_embeddings st candidates in
      let candidate_embeddings := paired.*2 in
      let candidate_incidents := paired.*1 in
      match candidate_embeddings with
      | [] => Ok []
      | _ =>
          match cosine_similarity query_embedding candidate_embeddings with
          | Raise e => Raise e
          | Ok similarities =>
              let similar_indices := rev (argsort similarities) in
              collect similarities candidate_incidents limit similar_indices []
          end
      end
  end.

Definition find_similar (st : state) (amb : Ambient)
    (query_embedding : embedding) (limit : Z)
    (filters : option (gmap string string))
    : outcome (list (IncidentResponse * score)) :=
  let status_filter := status_filter_of filters in
  let got := get_candidates st amb status_filter in
  match value got with
  | Raise e => {| value := Raise e; final := final got;
                  store_calls := store_calls got |}
  | Ok candidates =>
      {| value := rank (final got) candidates query_embedding limit;
         final := final got; store_calls := store_calls got |}
  end.

End Search.

(** The states the class can be in: built by [__init__] and changed by
    its methods only. *)
Inductive reachable : state → Prop :=
  | reach_init : reachable __init__
  | reach_add st i e m :
      reachable st → reachable (final (add_embedding st i e m))
  | reach_remove st i :
      reachable st → reachable (final (remove_embedding st i))
  | reach_get_resolved st amb :
      reachable st → reachable (final (_get_resolved_incidents st amb)).

(** The dict returned by [get_stats]; the age is in seconds. *)
Record Stats := {
  total_embeddings : nat;
  cache_size : nat;
  cache_age_seconds : option Q
}.

(** [get_stats], with the reading of [datetime.now()] it makes when a
    timestamp is set. *)
Definition get_stats (st : state) (now : datetime) : Stats :=
  {| total_embeddings := size (_embeddings st);
     cache_size :=
       match _resolved_incidents_cache st with
       | Some (x :: l) => length (x :: l)
       | _ => 0
       end;
     cache_age_seconds :=
       match _cache_timestamp st with
       | Some t => Some (Qmake (now - t) 1000000)
       | None => None
       end |}.

End VectorRepo.

(* ===================================================================== *)
(** * The enrichment orchestrator
      ([app/services/rag_enrichment_service.py]) *)
(* ===================================================================== *)

Module Rag.

(** The dict built by [_enrich_rule_based]. *)
Record RuleResult := {
  rule_severity : Severity;
  rule_category : Category;
  rule_summary : string;
  rule_suggested_action : string
}.

(** An entry of ['similar_incidents']. *)
Record SimilarRef := {
  ref_id : string;
  ref_title : string;
  ref_category : string;
  ref_severity : string;
  ref_similarity_score : Q
}.

(** The dict returned by [enrich_incident]. *)
Record EnrichmentResult := {
  res_severity : Severity;
  res_category : Category;
  res_summary : string;
  res_suggested_action : string;
  enrichment_method : string;
  similar_incidents : list SimilarRef
}.

(** [{**rule_result, 'enrichment_method': m, 'similar_incidents': []}] *)
Definition tagged (rule_result : RuleResult) (method : string)
    : EnrichmentResult :=
  {| res_severity := rule_severity rule_result;
     res_category := rule_category rule_result;
     res_summary := rule_summary rule_result;
     res_suggested_action := rule_suggested_action rule_result;
     enrichment_method := method;
     similar_incidents := [] |}.

(** ** Dictionaries in insertion order *)

Definition dict (K : Type) := list (K * Q).

(** [d.get(k, 0)] *)
Fixpoint dict_get {K} `{EqDecision K} (d : dict K) (k : K) : Q :=
  match d with
  | [] => 0%Q
  | (k', v) :: rest => if decide (k' = k) then v else dict_get rest k
  end.

(** [d[k] = v]: an existing key keeps its place, a new key goes last. *)
Fixpoint dict_set {K} `{EqDecision K} (d : dict K) (k : K) (v : Q) : dict K :=
  match d with
  | [] => [(k, v)]
  | (k', v') :: rest =>
      if decide (k' = k) then (k', v) :: rest else (k', v') :: dict_set rest k v
  end.

(** [max(items, key=lambda x: x[1])]: the running best is replaced only
    by a strictly larger item, so the first of the largest wins; an
    empty argument raises. *)
Fixpoint max_from {K} (best : K * Q) (items : list (K * Q)) : K * Q :=
  match items with
  | [] => best
  | x :: rest =>
      if negb (Qle_bool (snd x) (snd best)) then max_from x rest
      else max_from best rest
  end.

Definition py_max {K} (items : list (K * Q)) : result (K * Q) :=
  match items with
  | [] => Raise (ValueError "max() arg is an empty sequence")
  | x :: rest => Ok (max_from x rest)
  end.

(** The same over integer keys, for [max(..., key=actions.count)]. *)
Fixpoint max_count_from (best : string * nat) (items : list (string * nat))
    : string * nat :=
  match items with
  | [] => best
  | x :: rest =>
      if snd best <? snd x then max_count_from x rest
      else max_count_from best rest
  end.

(** [actions.count(a)] *)
Definition count (actions : list string) (a : string) : nat :=
  length (filter (λ b, b = a) actions).

(** [counts[k] = counts.get(k, 0) + weight], a sum of floats. *)
Definition dict_add {K} `{EqDecision K} (d : dict K) (k : K) (weight : Q)
    : dict K :=
  dict_set d k (PyFloat.add (dict_get d k) weight).

(** The loop of [_classify_by_majority_vote] filling both dicts. *)
Fixpoint tally (similar : list (IncidentResponse * score))
    (severity_counts : dict Severity) (category_counts : dict Category)
    : dict Severity * dict Category :=
  match similar with
  | [] => (severity_counts, category_counts)
  | (incident, weight) :: rest =>
      tally rest
        (dict_add severity_counts (severity incident) weight)
        (dict_add category_counts (category incident) weight)
  end.

(** One of the two dicts on its own. *)
Definition tally_by {K} `{EqDecision K} (key : IncidentResponse → K)
    (similar : list (IncidentResponse * score)) (counts : dict K) : dict K :=
  fold_left (λ d n, dict_add d (key n.1) n.2) similar counts.

Definition _classify_by_majority_vote
    (similar : list (IncidentResponse * score)) (rule_result : RuleResult)
    : result (Severity * Category) :=
  match similar with
  | [] => Ok (rule_severity rule_result, rule_category rule_result)
  | _ =>
      let '(severity_counts, category_counts) := tally similar [] [] in
      match py_max severity_counts, py_max category_counts with
      | Ok s, Ok c => Ok (fst s, fst c)
      | Raise e, _ => Raise e
      | _, Raise e => Raise e
      end
  end.

Definition to_ref (n : IncidentResponse * score) : SimilarRef :=
  {| ref_id := id n.1;
     ref_title := title n.1;
     ref_category := category_value (category n.1);
     ref_severity := severity_value (severity n.1);
     ref_similarity_score := PyFloat.round3 n.2 |}.

(** The truthy [suggested_action] values, in the order of the
    neighbors. *)
Fixpoint actions_of (similar : list (IncidentResponse * score)) : list string :=
  match similar with
  | [] => []
  | (inc, _) :: rest =>
      match suggested_action inc with
      | Some a => if bool_decide (a = "") then actions_of rest
                  else a :: actions_of rest
      | None => actions_of rest
      end
  end.

(** What [set(...)] may yield when iterated: every member once, in an
    order fixed by the hash table. *)
Definition set_iteration (set_iter : list string → list string) : Prop :=
  ∀ l, NoDup (set_iter l) ∧ ∀ x, x ∈ set_iter l ↔ x ∈ l.

Section Service.

(** The state of everything the service talks to: the embedding
    provider, the similarity index with its clock and store, the
    language model. *)
Context {W : Type}.

(** A call returns or raises, and leaves the world changed either
    way. *)
Definition M (A : Type) : Type := W → result A * W.

Definition ret {A} (a : A) : M A := λ w, (Ok a, w).

Definition bind {A B} (m : M A) (k : A → M B) : M B :=
  λ w, match m w with
       | (Ok a, w') => k a w'
       | (Raise e, w') => (Raise e, w')
       end.

(** [try: m  except Exception as e: h e] *)
Definition try_except {A} (m : M A) (h : exn → M A) : M A :=
  λ w, match m w with
       | (Ok a, w') => (Ok a, w')
       | (Raise e, w') => h e w'
       end.

Definition lift {A} (r : result A) : M A := λ w, (r, w).

Notation "'let!' x ':=' m 'in' k" := (bind m (λ x, k))
  (at level 10, x name, m at level 100, k at level 200).

(** The collaborators and settings read by the service. *)
Record Services := {
  rag_force_all : bool;
  rag_max_similar_incidents : Z;
  generate_incident_embedding : string → string → M embedding;
  vector_repo_find_similar :
    embedding → Z → option (gmap string string)
    → M (list (IncidentResponse * score));
  (** [None] when no client is configured; otherwise the whole of
      [_classify_with_llm]: prompt, request and parsing of the
      answer. *)
  llm_client :
    option (IncidentCreate → list (IncidentResponse * score)
            → M (Severity * Category));
  (** the iteration order of [set(actions)] *)
  set_iter : list string → list string
}.

Variable sv : Services.

Definition resolved_filter : option (gmap string string) :=
  Some {[ "status" := "resolved" ]}.

Definition _enrich_rule_based (incident : IncidentCreate) : RuleResult :=
  let severity := Rules.determine_severity incident in
  let category := Rules.determine_category incident in
  let summary := Rules.generate_summary incident in
  let suggested_action := Rules.suggest_action incident category severity in
  {| rule_severity := severity; rule_category := category;
     rule_summary := summary; rule_suggested_action := suggested_action |}.

Definition _should_use_rag (incident : IncidentCreate)
    (rule_result : RuleResult) : M bool :=
  if rag_force_all sv then ret true
  else if bool_decide (rule_category rule_result = UNKNOWN) then ret true
  else if Str.len (ic_description incident) <? 50 then ret true
  else
    try_except
      (let! query_embedding :=
         generate_incident_embedding sv (ic_title incident)
           (ic_description incident) in
       let! similar :=
         vector_repo_find_similar sv query_embedding 1%Z resolved_filter in
       ret (0 <? length similar))
      (λ _, ret false).

(** [max(set(actions), key=actions.count)] *)
Definition most_common_action (actions : list string) : result string :=
  match map (λ a, (a, count actions a)) (set_iter sv actions) with
  | [] => Raise (ValueError "max() arg is an empty sequence")
  | x :: rest => Ok (fst (max_count_from x rest))
  end.

Definition _generate_action_from_similar (severity : Severity)
    (category : Category) (similar : list (IncidentResponse * score))
    (fallback_action : string) : result string :=
  match similar with
  | [] => Ok fallback_action
  | _ =>
      match actions_of similar with
      | [] => Ok fallback_action
      | actions =>
          match most_common_action actions with
          | Raise e => Raise e
          | Ok most_common =>
              Ok (most_common +:+ " (Based on " +:+ pretty (length similar)
                    +:+ " similar resolved incidents)")
          end
      end
  end.

Definition _enrich_with_rag (incident : IncidentCreate)
    (rule_result : RuleResult) : M EnrichmentResult :=
  let! query_embedding :=
    generate_incident_embedding sv (ic_title incident)
      (ic_description incident) in
  let! similar :=
    vector_repo_find_similar sv query_embedding
      (rag_max_similar_incidents sv) resolved_filter in
  match similar with
  | [] => ret (tagged rule_result "rule_based")
  | _ =>
      let! sc :=
           match llm_client sv with
           | Some _classify_with_llm =>
               try_except (_classify_with_llm incident similar)
                 (λ _, ret (rule_severity rule_result,
                            rule_category rule_result))
           | None => lift (_classify_by_majority_vote similar rule_result)
           end in
      let severity := fst sc in
      let category := snd sc in
      let summary := Rules.generate_summary incident in
      let! suggested_action :=
        lift (_generate_action_from_similar severity category similar
                (rule_suggested_action rule_result)) in
      ret {| res_severity := severity;
             res_category := category;
             res_summary := summary;
             res_suggested_action := suggested_action;
             enrichment_method := "rag";
             similar_incidents := map to_ref (take 3 similar) |}
  end.

Definition enrich_incident (incident : IncidentCreate) : M EnrichmentResult :=
  let rule_result := _enrich_rule_based incident in
  let! should_use_rag := _should_use_rag incident rule_result in
  if negb should_use_rag then ret (tagged rule_result "rule_based")
  else
    try_except (_enrich_with_rag incident rule_result)
      (λ _, ret (tagged rule_result "rule_based_fallback")).

End Service.

Arguments Services W : clear implicits.
Arguments M W A : clear implicits.

End Rag.

(* ===================================================================== *)
(** * The embedding service ([app/services/embedding_service.py]) *)
(* ===================================================================== *)

Module Embedding.

(** [str(e)] of an exception: its message. *)
Definition exn_str (e : exn) : string :=
  match e with
  | RuntimeError msg | ValueError msg | OtherException msg => msg
  end.

(** A line feed. *)
Definition LF : string := String (ascii_of_nat 10) EmptyString.

Section Service.

Context {W : Type}.

(** An OpenAI client as the service uses it:
    [embeddings.create(model=..., input=...)] on one text, read as
    [response.data[0].embedding], and on a list of texts, read as
    [[item.embedding for item in response.data]].  Either may raise, in
    the request or in the reading of the answer. *)
Record Client := {
  create_one : string → string → Rag.M W embedding;
  create_many : string → list string → Rag.M W (list embedding)
}.

(** The attributes of [EmbeddingService]. *)
Record EmbeddingService := {
  model : string;
  client : option Client
}.

(** [EmbeddingService()], reading [settings.use_rag] and
    [settings.openai_api_key]; [OpenAI] builds the client for a key. *)
Definition __init__ (use_rag : bool) (openai_api_key : option string)
    (OpenAI : string → Client) : result EmbeddingService :=
  let model := "text-embedding-3-small" in
  match use_rag, openai_api_key with
  | true, Some key =>
      if bool_decide (key = "")
      then Raise (ValueError
             ("USE_RAG is enabled but OPENAI_API_KEY is not set. "
              +:+ "Please set OPENAI_API_KEY in your .env file."))
      else Ok {| model := model; client := Some (OpenAI key) |}
  | true, None =>
      Raise (ValueError
        ("USE_RAG is enabled but OPENAI_API_KEY is not set. "
         +:+ "Please set OPENAI_API_KEY in your .env file."))
  | false, _ => Ok {| model := model; client := None |}
  end.

Definition raise {A} (e : exn) : Rag.M W A := λ w, (Raise e, w).

Definition generate_embedding (self : EmbeddingService) (text : string)
    : Rag.M W embedding :=
  match client self with
  | None =>
      raise (RuntimeError "OpenAI client not initialized. Check OPENAI_API_KEY.")
  | Some c =>
      Rag.try_except (create_one c (model self) text)
        (λ e, raise (RuntimeError
                       ("Failed to generate embedding: " +:+ exn_str e)))
  end.

Definition generate_incident_embedding (self : EmbeddingService)
    (title description : string) : Rag.M W embedding :=
  let combined_text := title +:+ LF +:+ LF +:+ description in
  generate_embedding self combined_text.

Definition generate_batch_embeddings (self : EmbeddingService)
    (texts : list string) : Rag.M W (list embedding) :=
  match client self with
  | None =>
      raise (RuntimeError "OpenAI client not initialized. Check OPENAI_API_KEY.")
  | Some c =>
      Rag.try_except (create_many c (model self) texts)
        (λ e, raise (RuntimeError
                       ("Failed to generate batch embeddings: " +:+ exn_str e)))
  end.

End Service.

Arguments Client W : clear implicits.
Arguments EmbeddingService W : clear implicits.

End Embedding.

(* ===================================================================== *)
(** * The in-memory incident store
      ([app/repositories/mock_incident_repository.py]) *)
(* ===================================================================== *)

Module MockRepo.

(** The values found in the dicts of the store: strings and [None]. *)
Inductive pyval := VStr (s : string) | VNone.

Global Instance pyval_eq_dec : EqDecision pyval.
Proof. solve_decision. Defined.

(** An incident as a dict. *)
Definition item := gmap string pyval.

(** [_storage], in insertion order. *)
Definition storage := list (pyval * item).

(** [k in d] and [d[k]] on the store. *)
Fixpoint storage_get (st : storage) (k : pyval) : option item :=
  match st with
  | [] => None
  | (k', v) :: rest => if decide (k' = k) then Some v else storage_get rest k
  end.

(** [d[k] = v]: a known key keeps its place, a new key goes last. *)
Fixpoint storage_set (st : storage) (k : pyval) (v : item) : storage :=
  match st with
  | [] => [(k, v)]
  | (k', v') :: rest =>
      if decide (k' = k) then (k', v) :: rest
      else (k', v') :: storage_set rest k v
  end.

(** [item[key]] *)
Definition getitem (it : item) (key : string) : result pyval :=
  match it !! key with
  | Some v => Ok v
  | None => Raise (OtherException ("KeyError: " +:+ key))
  end.

(** [item.get(key)] *)
Definition get (it : item) (key : string) : pyval := default VNone (it !! key).

(** [Severity(v)], [Category(v)], [IncidentStatus(v)]: the member with
    that value. *)
Definition Severity_of (v : pyval) : result Severity :=
  match v with
  | VStr s =>
      if bool_decide (s = "P1") then Ok P1
      else if bool_decide (s = "P2") then Ok P2
      else if bool_decide (s = "P3") then Ok P3
      else Raise (ValueError (s +:+ " is not a valid Severity"))
  | VNone => Raise (ValueError "None is not a valid Severity")
  end.

Definition Category_of (v : pyval) : result Category :=
  match v with
  | VStr s =>
      if bool_decide (s = "Configuration Issue") then Ok CONFIGURATION_ISSUE
      else if bool_decide (s = "Data Issue") then Ok DATA_ISSUE
      else if bool_decide (s = "Integration Failure") then Ok INTEGRATION_FAILURE
      else if bool_decide (s = "Security / Access") then Ok SECURITY_ACCESS
      else if bool_decide (s = "Unknown") then Ok UNKNOWN
      else Raise (ValueError (s +:+ " is not a valid Category"))
  | VNone => Raise (ValueError "None is not a valid Category")
  end.

Definition IncidentStatus_of (v : pyval) : result IncidentStatus :=
  match v with
  | VStr s =>
      if bool_decide (s = "open") then Ok OPEN
      else if bool_decide (s = "in_progress") then Ok IN_PROGRESS
      else if bool_decide (s = "resolved") then Ok RESOLVED
      else if bool_decide (s = "closed") then Ok CLOSED
      else Raise (ValueError (s +:+ " is not a valid IncidentStatus"))
  | VNone => Raise (ValueError "None is not a valid IncidentStatus")
  end.

(** The validation of a [str] field and of an [Optional[str]] field by
    the model. *)
Definition required_str (field : string) (v : pyval) : result string :=
  match v with
  | VStr s => Ok s
  | VNone => Raise (OtherException "ValidationError")
  end.

Definition optional_str (v : pyval) : option string :=
  match v with VStr s => Some s | VNone => None end.

Definition rbind {A B} (r : result A) (k : A → result B) : result B :=
  match r with Ok a => k a | Raise e => Raise e end.

Notation "'let?' x ':=' r 'in' k" := (rbind r (λ x, k))
  (at level 10, x name, r at level 100, k at level 200).

Section Store.

(** [datetime.fromisoformat] on a string. *)
Variable fromisoformat : string → result datetime.

Definition parse_datetime (v : pyval) : result datetime :=
  match v with
  | VStr s => fromisoformat s
  | VNone =>
      Raise (OtherException "TypeError: fromisoformat: argument must be str")
  end.

(** [_dict_to_response]: the arguments are evaluated in the order
    written, then the model validates its fields. *)
Definition _dict_to_response (it : item) : result IncidentResponse :=
  let? v_id := getitem it "id" in
  let? v_title := getitem it "title" in
  let? v_description := getitem it "description" in
  let? v_erp_module := getitem it "erp_module" in
  let? v_environment := getitem it "environment" in
  let? v_business_unit := getitem it "business_unit" in
  let? v_severity := getitem it "severity" in
  let? severity := Severity_of v_severity in
  let? v_category := getitem it "category" in
  let? category := Category_of v_category in
  let? v_status := getitem it "status" in
  let? status := IncidentStatus_of v_status in
  let? v_created_at := getitem it "created_at" in
  let? created_at := parse_datetime v_created_at in
  let? v_updated_at := getitem it "updated_at" in
  let? updated_at := parse_datetime v_updated_at in
  let summary := get it "summary" in
  let suggested_action := get it "suggested_action" in
  let? id := required_str "id" v_id in
  let? title := required_str "title" v_title in
  let? description := required_str "description" v_description in
  let? erp_module := required_str "erp_module" v_erp_module in
  let? environment := required_str "environment" v_environment in
  let? business_unit := required_str "business_unit" v_business_unit in
  Ok {| id := id; title := title; description := description;
        erp_module := erp_module; environment := environment;
        business_unit := business_unit; severity := severity;
        category := category; status := status;
        created_at := created_at; updated_at := updated_at;
        summary := optional_str summary;
        suggested_action := optional_str suggested_action |}.

(** [create]: the copy is stored before the conversion is attempted. *)
Definition create (st : storage) (incident_data : item)
    : result IncidentResponse * storage :=
  match getitem incident_data "id" with
  | Raise e => (Raise e, st)
  | Ok incident_id =>
      (_dict_to_response incident_data,
       storage_set st incident_id incident_data)
  end.

Definition get_by_id (st : storage) (incident_id : string)
    : result (option IncidentResponse) :=
  match storage_get st (VStr incident_id) with
  | Some it => let? r := _dict_to_response it in Ok (Some r)
  | None => Ok None
  end.

(** [[self._dict_to_response(item) for item in self._storage.values()]] *)
Fixpoint convert_all (st : storage) : result (list IncidentResponse) :=
  match st with
  | [] => Ok []
  | (_, it) :: rest =>
      let? r := _dict_to_response it in
      let? rs := convert_all rest in
      Ok (r :: rs)
  end.

(** [if f: filtered = [inc for inc in filtered if field(inc) == f]]: a
    filter that is [None] or empty is skipped. *)
Definition filter_by (field : IncidentResponse → string)
    (f : option string) (l : list IncidentResponse) : list IncidentResponse :=
  match f with
  | None => l
  | Some v => if bool_decide (v = "") then l
              else filter (λ inc, field inc = v) l
  end.

(** [filtered.sort(key=lambda x: x.created_at, reverse=True)]: newest
    first, incidents of the same instant in their previous order.
    Timestamps are instants on one clock: all with an offset or all
    without; Python refuses to compare one kind with the other, a list
    mixing them is not covered. *)
Fixpoint insert_newest_first (x : IncidentResponse)
    (sorted : list IncidentResponse) : list IncidentResponse :=
  match sorted with
  | [] => [x]
  | y :: rest =>
      if (created_at x <=? created_at y)%Z
      then y :: insert_newest_first x rest
      else x :: y :: rest
  end.

Definition sort_newest_first (l : list IncidentResponse)
    : list IncidentResponse :=
  fold_left (λ sorted x, insert_newest_first x sorted) l [].

(** The loop looking for the incident named by the pagination key. *)
Fixpoint index_after (key : pyval) (l : list IncidentResponse) (idx : nat)
    : option nat :=
  match l with
  | [] => None
  | inc :: rest =>
      if decide (VStr (id inc) = key) then Some (idx + 1)
      else index_after key rest (idx + 1)
  end.

Definition start_index (last_key : option (gmap string pyval))
    (filtered : list IncidentResponse) : nat :=
  match last_key with
  | None => 0
  | Some k =>
      match k !! "id" with
      | Some key => default 0 (index_after key filtered 0)
      | None => 0
      end
  end.

(** [l[start:stop]] for a start that is not negative: a negative stop
    counts from the end, and both ends are clipped to the list. *)
Definition py_slice {A} (l : list A) (start : nat) (stop : Z) : list A :=
  let n := Z.of_nat (length l) in
  let stop' := if (stop <? 0)%Z then Z.max (stop + n) 0 else Z.min stop n in
  take (Z.to_nat stop' - start) (drop start l).

(** What [list_all] has before it cuts a page: the incidents converted,
    filtered and sorted. *)
Definition listing (st : storage)
    (status_filter severity_filter erp_module_filter : option string)
    : result (list IncidentResponse) :=
  let? all_incidents := convert_all st in
  let filtered := all_incidents in
  let filtered :=
    filter_by (λ inc, status_value (status inc)) status_filter filtered in
  let filtered :=
    filter_by (λ inc, severity_value (severity inc)) severity_filter filtered in
  let filtered := filter_by erp_module erp_module_filter filtered in
  Ok (sort_newest_first filtered).

Definition list_all (st : storage) (limit : Z)
    (last_key : option (gmap string pyval))
    (status_filter severity_filter erp_module_filter : option string)
    : result (list IncidentResponse * option (gmap string pyval)) :=
  let? filtered :=
    listing st status_filter severity_filter erp_module_filter in
  let start_idx := start_index last_key filtered in
  let end_idx := (Z.of_nat start_idx + limit)%Z in
  let page_incidents := py_slice filtered start_idx end_idx in
  if (end_idx <? Z.of_nat (length filtered))%Z
  then match last page_incidents with
       | None => Raise (OtherException "IndexError: list index out of range")
       | Some inc => Ok (page_incidents, Some {[ "id" := VStr (id inc) ]})
       end
  else Ok (page_incidents, None).

(** [update]: the stored dict is changed in place, every key but ['id'],
    and stamped with the time given. *)
Definition update (st : storage) (incident_id : string)
    (update_data : gmap string pyval) (now_iso : string)
    : result (option IncidentResponse) * storage :=
  match storage_get st (VStr incident_id) with
  | None => (Ok None, st)
  | Some it =>
      let changes := filter (λ kv, kv.1 ≠ "id") update_data in
      let it' := <[ "updated_at" := VStr now_iso ]> (changes ∪ it) in
      (let? r := _dict_to_response it' in Ok (Some r),
       storage_set st (VStr incident_id) it')
  end.

Definition clear (st : storage) : storage := [].

End Store.

End MockRepo.

(* ===================================================================== *)
(** * Vocabulary of the properties *)
(* ===================================================================== *)

Module Spec.

(** ** Rule classifier *)

(** The priority order of the categories. *)
Definition PRIORITY : list Category :=
  [INTEGRATION_FAILURE; SECURITY_ACCESS; DATA_ISSUE; CONFIGURATION_ISSUE].

(** The keyword set the table gives a category. *)
Definition keyword_set (c : Category) : list string :=
  match find (λ p : Category * list string, bool_decide (p.1 = c))
          Rules.CATEGORY_KEYWORDS with
  | Some p => p.2
  | None => []
  end.

(** A keyword of the category occurs in the text. *)
Definition matches (c : Category) (text : string) : Prop :=
  ∃ k, k ∈ keyword_set c ∧ Str.occurs_in k text.

(** [c] is the first category of the priority order that matches. *)
Definition first_match (text : string) (c : Category) : Prop :=
  ∃ before after,
    PRIORITY = before ++ c :: after
    ∧ matches c text
    ∧ ∀ c', c' ∈ before → ¬ matches c' text.

(** The text the classifier looks at: title, a space, description, in
    lower case. *)
Definition normalized_text (incident : IncidentCreate) : string :=
  Str.lower (ic_title incident +:+ " " +:+ ic_description incident).

(** [fs] is the first sentence of [d]: what precedes the first full
    stop (all of [d] without one), without the white space around
    it. *)
Definition is_first_sentence (d fs : string) : Prop :=
  ∃ head rest lead trail,
    d = head +:+ rest
    ∧ Str.all_chars (λ c, negb (Ascii.eqb c ".")) head = true
    ∧ (rest = "" ∨ Str.first_char rest = Some "."%char)
    ∧ head = lead +:+ fs +:+ trail
    ∧ Str.all_chars Str.isspace lead = true
    ∧ Str.all_chars Str.isspace trail = true
    ∧ (∀ c, Str.first_char fs = Some c → Str.isspace c = false)
    ∧ (∀ c, Str.last_char fs = Some c → Str.isspace c = false).

(** ** Similarity index *)

(** Result [r] is the candidate at position [i] with its score. *)
Definition entry (similarities : list score)
    (incidents : list IncidentResponse) (i : nat)
    (r : IncidentResponse * score) : Prop :=
  similarities !! i = Some r.2 ∧ incidents !! i = Some r.1.

(** Scores never increase along the list. *)
Definition descending (results : list (IncidentResponse * score)) : Prop :=
  StronglySorted (λ a b, (b.2 <= a.2)%Q) results.

(** The results are candidates taken at some positions of the
    retrieval order, and whenever two results have equal scores the
    position of the earlier result is [before] that of the later. *)
Definition ties_ordered (before : nat → nat → Prop)
    (incidents : list IncidentResponse)
    (results : list (IncidentResponse * score)) : Prop :=
  ∃ positions : list nat,
    Forall2 (λ p r, incidents !! p = Some r.1) positions results
    ∧ ∀ i j p q a b,
        i < j →
        positions !! i = Some p → positions !! j = Some q →
        results !! i = Some a → results !! j = Some b →
        (a.2 == b.2)%Q → before p q.

(** [p] comes before [q] in the list [l]. *)
Definition listed_before (l : list nat) (p q : nat) : Prop :=
  ∃ a b, a < b ∧ l !! a = Some p ∧ l !! b = Some q.

(** ** Weighted vote *)

(** Some neighbor carries the value [v] under [key]. *)
Definition carried {K} (key : IncidentResponse → K)
    (similar : list (IncidentResponse * score)) (v : K) : Prop :=
  ∃ n, n ∈ similar ∧ key n.1 = v.

(** The accumulated weight of [v]: the sum of the scores of the
    neighbors carrying it, added as floats one after the other going
    down the list. *)
Definition weight_of {K} `{EqDecision K} (key : IncidentResponse → K)
    (similar : list (IncidentResponse * score)) (v : K) : Q :=
  fold_left PyFloat.add (filter (λ n, key n.1 = v) similar).*2 0%Q.

(** Going down the list, [v] is met at a point where [v'] has not been
    met yet. *)
Definition encountered_first {K} (key : IncidentResponse → K)
    (similar : list (IncidentResponse * score)) (v v' : K) : Prop :=
  ∃ pre n post,
    similar = pre ++ n :: post
    ∧ key n.1 = v
    ∧ ∀ m, m ∈ pre → key m.1 ≠ v'.

(** [v] has the largest accumulated weight among the values carried,
    and is the first encountered of those with that weight. *)
Definition weighted_winner {K} `{EqDecision K} (key : IncidentResponse → K)
    (similar : list (IncidentResponse * score)) (v : K) : Prop :=
  carried key similar v
  ∧ ∀ v', carried key similar v' →
      (weight_of key similar v' <= weight_of key similar v)%Q
      ∧ ((weight_of key similar v' == weight_of key similar v)%Q
         → encountered_first key similar v v').

(** What a dict of the vote holds after the loop over [similar]: one
    key per value carried, in the order the values were first met, each
    with its accumulated weight. *)
Definition tally_invariant {K} `{EqDecision K} (key : IncidentResponse → K)
    (similar : list (IncidentResponse * score)) (d : Rag.dict K) : Prop :=
  NoDup d.*1
  ∧ (∀ v, v ∈ d.*1 ↔ carried key similar v)
  ∧ (∀ v, Rag.dict_get d v = weight_of key similar v)
  ∧ (∀ A v B v', d.*1 = A ++ v :: B → v' ∈ v :: B →
       encountered_first key similar v v').

(** ** Routing *)

(** The trial lookup of the routing decision succeeds and finds a
    neighbor. *)
Definition trial_finds_neighbor {W} (sv : Rag.Services W)
    (incident : IncidentCreate) (w : W) : Prop :=
  ∃ q w1 similar w2,
    Rag.generate_incident_embedding sv (ic_title incident)
      (ic_description incident) w = (Ok q, w1)
    ∧ Rag.vector_repo_find_similar sv q 1%Z Rag.resolved_filter w1
      = (Ok similar, w2)
    ∧ similar ≠ [].

(** One of the three rules that precede the trial lookup applies. *)
Definition early_rule {W} (sv : Rag.Services W) (incident : IncidentCreate)
    (rule_result : Rag.RuleResult) : Prop :=
  Rag.rag_force_all sv = true
  ∨ Rag.rule_category rule_result = UNKNOWN
  ∨ Str.len (ic_description incident) < 50.

(** The one call that rebuilds the candidate list. *)
Definition resolved_call : VectorRepo.StoreCall :=
  {| VectorRepo.call_limit := 10000%Z; VectorRepo.call_status := "resolved" |}.

(** Both maps of the index have the same keys. *)
Definition same_keys (st : VectorRepo.state) : Prop :=
  dom (VectorRepo._embeddings st) = dom (VectorRepo._metadata st).

(** ** More on the similarity index *)

(** The score of the candidate at a position reaches the threshold. *)
Definition qualifies (similarities : list score) (i : nat) : bool :=
  match similarities !! i with
  | Some s => Qle_bool VectorRepo.min_similarity s
  | None => false
  end.

(** The candidate at a position with its score. *)
Definition entry_at (similarities : list score)
    (incidents : list IncidentResponse) (i : nat)
    : option (IncidentResponse * score) :=
  match similarities !! i, incidents !! i with
  | Some s, Some inc => Some (inc, s)
  | _, _ => None
  end.

(** The scores of the candidates that have an embedding, in retrieval
    order. *)
Definition candidate_scores (cosine : embedding → embedding → score)
    (st : VectorRepo.state) (candidates : list IncidentResponse)
    (query : embedding) : list score :=
  map (cosine query) (VectorRepo.pair_with_embeddings st candidates).*2.

(** Every cached candidate has an embedding, and a cached list comes with
    the time of its capture. *)
Definition cache_sound (st : VectorRepo.state) : Prop :=
  ∀ l, VectorRepo._resolved_incidents_cache st = Some l →
       is_Some (VectorRepo._cache_timestamp st)
       ∧ Forall (λ inc, VectorRepo.has_embedding st inc = true) l.

(** ** More on the orchestrator *)

(** The classification step of [_enrich_with_rag]: the language model
    behind a [try] when a client is configured, the vote otherwise. *)
Definition classification {W} (sv : Rag.Services W)
    (incident : IncidentCreate) (similar : list (IncidentResponse * score))
    (rule_result : Rag.RuleResult) : Rag.M W (Severity * Category) :=
  match Rag.llm_client sv with
  | Some _classify_with_llm =>
      Rag.try_except (_classify_with_llm incident similar)
        (λ _, Rag.ret (Rag.rule_severity rule_result,
                       Rag.rule_category rule_result))
  | None => Rag.lift (Rag._classify_by_majority_vote similar rule_result)
  end.

(** The note appended to an action taken from [n] neighbors. *)
Definition based_on (action : string) (n : nat) : string :=
  action +:+ " (Based on " +:+ pretty n +:+ " similar resolved incidents)".

(** The three tags of a result. *)
Definition known_method (m : string) : Prop :=
  m = "rule_based" ∨ m = "rule_based_fallback" ∨ m = "rag".

(** The exception is a [RuntimeError]. *)
Definition is_runtime_error (e : exn) : Prop := ∃ msg, e = RuntimeError msg.

(** One of the rules that escalate before any lookup applies, as a
    boolean. *)
Definition escalates_early {W} (sv : Rag.Services W)
    (incident : IncidentCreate) : bool :=
  Rag.rag_force_all sv
  || bool_decide (Rules.determine_category incident = UNKNOWN)
  || (Str.len (ic_description incident) <? 50).

(** ** The incident store *)

(** Newest first. *)
Definition newest_first (l : list IncidentResponse) : Prop :=
  StronglySorted (λ a b, (created_at b ≤ created_at a)%Z) l.

(** The incident is the conversion of a dict held by the store. *)
Definition stored (fromisoformat : string → result datetime)
    (st : MockRepo.storage) (inc : IncidentResponse) : Prop :=
  ∃ k it, (k, it) ∈ st ∧ MockRepo._dict_to_response fromisoformat it = Ok inc.

(** A filter that is set: a string that is not empty. *)
Definition filter_set (f : option string) (v : string) : Prop :=
  f = Some v ∧ v ≠ "".

(** The pagination key naming an incident. *)
Definition key_of (inc : IncidentResponse) : gmap string MockRepo.pyval :=
  {[ "id" := MockRepo.VStr (id inc) ]}.

(** The store as a dict of dicts: no key occurs twice, and every dict
    sits under its own ['id']. *)
Definition well_keyed (st : MockRepo.storage) : Prop :=
  NoDup st.*1 ∧ Forall (λ kv, kv.2 !! "id" = Some kv.1) st.

(** Where a page starts in the listing [all]: at the top without a key,
    right after the incident the key names otherwise. *)
Definition resumes_at (all : list IncidentResponse)
    (last_key : option (gmap string MockRepo.pyval)) (start : nat) : Prop :=
  match last_key with
  | None => start = 0
  | Some k => ∃ p inc, all !! p = Some inc ∧ k = key_of inc ∧ start = S p
  end.

(** The Incident Store seen from the index when it is an in-memory
    store: [list_all] with a status only, the pagination key dropped. *)
Definition mock_list_all (fromisoformat : string → result datetime)
    (st : MockRepo.storage) : Z → string → result (list IncidentResponse) :=
  λ limit status_filter,
    match MockRepo.list_all fromisoformat st limit None (Some status_filter)
            None None with
    | Ok (page, _) => Ok page
    | Raise e => Raise e
    end.

(** ** More on the rule classifier *)

(** One of the keywords occurs in the text. *)
Definition mentions (keywords : list string) (text : string) : Prop :=
  ∃ k, k ∈ keywords ∧ Str.occurs_in k text.

(** Urgency as a number: P1 is the most urgent. *)
Definition urgency (s : Severity) : nat :=
  match s with P1 => 2 | P2 => 1 | P3 => 0 end.

(** The incident with more text appended to its description. *)
Definition with_more_description (incident : IncidentCreate) (more : string)
    : IncidentCreate :=
  {| ic_title := ic_title incident;
     ic_description := ic_description incident +:+ more;
     ic_erp_module := ic_erp_module incident;
     ic_environment := ic_environment incident;
     ic_business_unit := ic_business_unit incident |}.

End Spec.

(* ===================================================================== *)
(** * Concrete incidents, stores and services used in the examples *)
(* ===================================================================== *)

Module Scenario.

Definition incident (t d : string) : IncidentCreate :=
  {| ic_title := t; ic_description := d; ic_erp_module := AP;
     ic_environment := PROD; ic_business_unit := "Finance" |}.

(** A description of one sentence of 98 letters. *)
Definition sentence98 : string := Str.replicate 98 "a".
Definition incident98 : IncidentCreate := incident "Ledger" sentence98.

(** A description whose first sentence has 120 letters. *)
Definition incident120 : IncidentCreate :=
  incident "Ledger" ("  " +:+ Str.replicate 120 "b" +:+ " . Second sentence.").

(** The dot product, which is the cosine of the angle between vectors
    of norm one. *)
Definition dot (a b : embedding) : score :=
  foldr Qplus 0%Q (zip_with Qmult a b).

Definition resolved_incident (i t : string) (sev : Severity) (cat : Category)
    (act : option string) : IncidentResponse :=
  {| id := i; title := t; description := "Resolved earlier";
     erp_module := "AP"; environment := "Prod"; business_unit := "Finance";
     severity := sev; category := cat; status := RESOLVED;
     created_at := 0%Z; updated_at := 0%Z;
     summary := None; suggested_action := act |}.

Definition incA : IncidentResponse :=
  resolved_incident "inc-a" "Payment API down" P2 INTEGRATION_FAILURE
    (Some "Restart the connector").
Definition incB : IncidentResponse :=
  resolved_incident "inc-b" "Ledger sync failed" P1 DATA_ISSUE
    (Some "Replay the batch").
Definition incC : IncidentResponse :=
  resolved_incident "inc-c" "Login rejected" P3 SECURITY_ACCESS None.

(** An Incident Store holding the given incidents. *)
Definition store (l : list IncidentResponse)
    : Z → string → result (list IncidentResponse) :=
  λ limit st,
    Ok (take (Z.to_nat limit)
          (filter (λ inc, status_value (status inc) = st) l)).

Definition minutes (n : Z) : datetime := (n * 60 * 1000000)%Z.

(** The world at minute [n] with the given store. *)
Definition at_minute (n : Z) (l : list IncidentResponse)
    : VectorRepo.Ambient :=
  {| VectorRepo.now_check := minutes n;
     VectorRepo.now_capture := minutes n;
     VectorRepo.list_all := store l |}.

(** Unit vectors of the plane. *)
Definition u34 : embedding := [3 # 5; 4 # 5]%Q.
Definition u43 : embedding := [4 # 5; 3 # 5]%Q.

(** An index holding [incA] and [incB] under the same vector and [incC]
    under another. *)
Definition index_abc : VectorRepo.state :=
  let s0 := VectorRepo.__init__ in
  let s1 := VectorRepo.final (VectorRepo.add_embedding s0 "inc-a" u34 ∅) in
  let s2 := VectorRepo.final (VectorRepo.add_embedding s1 "inc-b" u34 ∅) in
  VectorRepo.final (VectorRepo.add_embedding s2 "inc-c" u43 ∅).

(** The collaborators of the orchestrator: the world is the in-memory
    index, queried at minute 0 over a store holding the three
    incidents. *)
Definition world : Type := VectorRepo.state.

Definition embedding_unavailable : string → string → Rag.M world embedding :=
  λ _ _ w,
    (Raise (RuntimeError "OpenAI client not initialized. Check OPENAI_API_KEY."),
     w).

Definition embedding_fixed (e : embedding)
    : string → string → Rag.M world embedding :=
  λ _ _ w, (Ok e, w).

Definition memory_find_similar
    : embedding → Z → option (gmap string string)
      → Rag.M world (list (IncidentResponse * score)) :=
  λ q limit filters st,
    let o :=
      VectorRepo.find_similar dot Numpy.insertion_argsort st
        (at_minute 0 [incA; incB; incC]) q limit filters in
    (VectorRepo.value o, VectorRepo.final o).

(** Two orders in which a set of strings may be iterated. *)
Definition first_seen_first (l : list string) : list string := remove_dups l.
Definition last_seen_first (l : list string) : list string :=
  reverse (remove_dups l).

Definition services (embed : string → string → Rag.M world embedding)
    (order : list string → list string) : Rag.Services world :=
  {| Rag.rag_force_all := false;
     Rag.rag_max_similar_incidents := 5%Z;
     Rag.generate_incident_embedding := embed;
     Rag.vector_repo_find_similar := memory_find_similar;
     Rag.llm_client := None;
     Rag.set_iter := order |}.

(** A language-model client that fails, and one that answers. *)
Definition llm_down
    : IncidentCreate → list (IncidentResponse * score)
      → Rag.M world (Severity * Category) :=
  λ _ _ w, (Raise (OtherException "APIConnectionError"), w).

Definition llm_says (s : Severity) (c : Category)
    : IncidentCreate → list (IncidentResponse * score)
      → Rag.M world (Severity * Category) :=
  λ _ _ w, (Ok (s, c), w).

Definition services_with_llm
    (llm : IncidentCreate → list (IncidentResponse * score)
           → Rag.M world (Severity * Category)) : Rag.Services world :=
  {| Rag.rag_force_all := false;
     Rag.rag_max_similar_incidents := 5%Z;
     Rag.generate_incident_embedding := embedding_fixed u34;
     Rag.vector_repo_find_similar := memory_find_similar;
     Rag.llm_client := Some llm;
     Rag.set_iter := first_seen_first |}.

(** An embedding client that answers every text with the same vector,
    and one that is out of quota. *)
Definition client_fixed (e : embedding) : Embedding.Client world :=
  {| Embedding.create_one := λ _ _ w, (Ok e, w);
     Embedding.create_many := λ _ texts w, (Ok (map (λ _, e) texts), w) |}.

Definition client_out_of_quota : Embedding.Client world :=
  {| Embedding.create_one :=
       λ _ _ w, (Raise (OtherException "RateLimitError: quota exceeded"), w);
     Embedding.create_many :=
       λ _ _ w, (Raise (OtherException "RateLimitError: quota exceeded"), w) |}.

Definition service_without_client : Embedding.EmbeddingService world :=
  {| Embedding.model := "text-embedding-3-small"; Embedding.client := None |}.

(** A clock table standing for [datetime.fromisoformat] on the four
    timestamps of the examples (microseconds since the first). *)
Definition fromisoformat (s : string) : result datetime :=
  if bool_decide (s = "2024-01-01T00:00:00") then Ok 0%Z
  else if bool_decide (s = "2024-01-02T00:00:00") then Ok 86400000000%Z
  else if bool_decide (s = "2024-01-03T00:00:00") then Ok 172800000000%Z
  else if bool_decide (s = "2024-01-04T00:00:00") then Ok 259200000000%Z
  else Raise (ValueError ("Invalid isoformat string: " +:+ s)).

(** The dict the router stores for an incident. *)
Definition stored_item (i st created : string) : MockRepo.item :=
  list_to_map
    [ ("id", MockRepo.VStr i); ("title", MockRepo.VStr "Payment API down");
      ("description", MockRepo.VStr "External payment API is not responding");
      ("erp_module", MockRepo.VStr "AP"); ("environment", MockRepo.VStr "Prod");
      ("business_unit", MockRepo.VStr "Finance");
      ("severity", MockRepo.VStr "P1");
      ("category", MockRepo.VStr "Integration Failure");
      ("status", MockRepo.VStr st);
      ("created_at", MockRepo.VStr created);
      ("updated_at", MockRepo.VStr created);
      ("summary", MockRepo.VNone);
      ("suggested_action", MockRepo.VStr "Check integration logs") ].

(** A store with three resolved incidents and an open one. *)
Definition store4 : MockRepo.storage :=
  let s0 : MockRepo.storage := [] in
  let s1 := (MockRepo.create fromisoformat s0
               (stored_item "i-1" "resolved" "2024-01-01T00:00:00")).2 in
  let s2 := (MockRepo.create fromisoformat s1
               (stored_item "i-2" "open" "2024-01-02T00:00:00")).2 in
  let s3 := (MockRepo.create fromisoformat s2
               (stored_item "i-3" "resolved" "2024-01-03T00:00:00")).2 in
  (MockRepo.create fromisoformat s3
     (stored_item "i-4" "resolved" "2024-01-04T00:00:00")).2.

(** An index holding vectors for three of the four stored incidents, one
    of them not resolved. *)
Definition index_store4 : VectorRepo.state :=
  let s0 := VectorRepo.__init__ in
  let s1 := VectorRepo.final (VectorRepo.add_embedding s0 "i-1" u34 ∅) in
  let s2 := VectorRepo.final (VectorRepo.add_embedding s1 "i-2" u34 ∅) in
  VectorRepo.final (VectorRepo.add_embedding s2 "i-4" u34 ∅).

(** Neighbors handed over as they are, whatever the query. *)
Definition neighbor (i : string) (sev : Severity) (cat : Category)
    : IncidentResponse :=
  resolved_incident i "Earlier incident" sev cat None.

Definition index_returning (similar : list (IncidentResponse * score))
    : embedding → Z → option (gmap string string)
      → Rag.M world (list (IncidentResponse * score)) :=
  λ _ _ _ w, (Ok similar, w).

Definition services_over (similar : list (IncidentResponse * score))
    : Rag.Services world :=
  {| Rag.rag_force_all := false;
     Rag.rag_max_similar_incidents := 5%Z;
     Rag.generate_incident_embedding := embedding_fixed u34;
     Rag.vector_repo_find_similar := index_returning similar;
     Rag.llm_client := None;
     Rag.set_iter := first_seen_first |}.

(** A close vote: P2 and Integration gather 1.0 and 0.7, P1 and Data
    gather 0.9 and 0.8. *)
Definition close_vote : list (IncidentResponse * score) :=
  [ (neighbor "n-1" P2 INTEGRATION_FAILURE, 1%Q);
    (neighbor "n-2" P1 DATA_ISSUE, (9 # 10)%Q);
    (neighbor "n-3" P1 DATA_ISSUE, (8 # 10)%Q);
    (neighbor "n-4" P2 INTEGRATION_FAILURE, (7 # 10)%Q) ].

(** A vote tied in floats: 0.98 + 0.83 and 0.91 + 0.9 both give 1.81. *)
Definition tied_vote : list (IncidentResponse * score) :=
  [ (neighbor "n-1" P2 INTEGRATION_FAILURE, (98 # 100)%Q);
    (neighbor "n-2" P1 DATA_ISSUE, (91 # 100)%Q);
    (neighbor "n-3" P1 DATA_ISSUE, (9 # 10)%Q);
    (neighbor "n-4" P2 INTEGRATION_FAILURE, (83 # 100)%Q) ].

Definition short_incident : IncidentCreate := incident "Short Issue" "Problem.".

Definition long_incident : IncidentCreate :=
  incident "Invoice export"
    "The nightly export of invoices to the bank interface stopped after the upgrade".

End Scenario.

(* ===================================================================== *)
(** * Facts about the string operations *)
(* ===================================================================== *)

Section StrFacts.

Lemma app_String a s t : String a s +:+ t = String a (s +:+ t).
Proof. reflexivity. Qed.

Lemma app_empty_l s : "" +:+ s = s.
Proof. reflexivity. Qed.

Lemma app_empty_r s : s +:+ "" = s.
Proof. induction s as [|a s IH]; [done|]. by rewrite app_String, IH. Qed.

Lemma startswith_spec s p :
  Str.startswith s p = true ↔ ∃ post, s = p +:+ post.
Proof.
  revert s. induction p as [|a p IH]; intros s; simpl.
  - split; [intros _; exists s; reflexivity | done].
  - destruct s as [|b s].
    + split; [done | intros [post H]; by rewrite app_String in H].
    + destruct (Ascii.eqb a b) eqn:E.
      * apply Ascii.eqb_eq in E as ->. rewrite IH. split.
        -- intros [post ->]. by exists post.
        -- intros [post H]. rewrite app_String in H.
           injection H as ->. by exists post.
      * apply Ascii.eqb_neq in E. split; [done|].
        intros [post H]. rewrite app_String in H. congruence.
Qed.

Lemma contains_spec s k : Str.contains s k = true ↔ Str.occurs_in k s.
Proof.
  unfold Str.occurs_in. induction s as [|a s IH].
  - simpl. destruct (Str.startswith "" k) eqn:E.
    + apply startswith_spec in E as [post E]. split; [|done].
      intros _. exists "", post. by rewrite app_empty_l.
    + split; [done|]. intros (pre & post & H).
      destruct pre; [|by rewrite app_String in H].
      rewrite app_empty_l in H.
      assert (Str.startswith "" k = true) by (apply startswith_spec; eauto).
      congruence.
  - cbn [Str.contains]. destruct (Str.startswith (String a s) k) eqn:E.
    + apply startswith_spec in E as [post E]. split; [|done].
      intros _. exists "", post. by rewrite app_empty_l.
    + rewrite IH. split.
      * intros (pre & post & ->). exists (String a pre), post.
        by rewrite app_String.
      * intros (pre & post & H). destruct pre as [|b pre].
        -- rewrite app_empty_l in H.
           assert (Str.startswith (String a s) k = true)
             by (apply startswith_spec; eauto).
           congruence.
        -- rewrite app_String in H. injection H as -> ->. eauto.
Qed.

Lemma take_app_len n s :
  n ≤ Str.len s → ∃ tl, s = Str.take n s +:+ tl ∧ Str.len (Str.take n s) = n.
Proof.
  revert s. induction n as [|n IH]; intros s Hn.
  - exists s. by destruct s.
  - destruct s as [|a s]; [unfold Str.len in Hn; simpl in Hn; lia|].
    destruct (IH s) as (tl & Htl & Hlen).
    { unfold Str.len in *. simpl in Hn. lia. }
    exists tl. simpl. rewrite app_String, <- Htl. split; [done|].
    unfold Str.len in *. simpl. by rewrite Hlen.
Qed.

(** [split('.')[0]] is the longest prefix free of the separator. *)
Lemma split_head_spec sep s :
  ∃ rest,
    s = Str.split_head sep s +:+ rest
    ∧ Str.all_chars (λ c, negb (Ascii.eqb c sep)) (Str.split_head sep s) = true
    ∧ (rest = "" ∨ Str.first_char rest = Some sep).
Proof.
  induction s as [|a s (rest & Hs & Hall & Hrest)].
  - exists "". simpl. auto.
  - simpl. destruct (Ascii.eqb a sep) eqn:E.
    + exists (String a s). apply Ascii.eqb_eq in E as ->. simpl. auto.
    + exists rest. rewrite app_String, <- Hs. simpl. rewrite E. auto.
Qed.

Lemma lstrip_spec s :
  ∃ lead,
    s = lead +:+ Str.lstrip s
    ∧ Str.all_chars Str.isspace lead = true
    ∧ ∀ c, Str.first_char (Str.lstrip s) = Some c → Str.isspace c = false.
Proof.
  induction s as [|a s (lead & Hs & Hall & Hfirst)].
  - exists "". simpl. split_and!; [done..|]. intros c [=].
  - simpl. destruct (Str.isspace a) eqn:E.
    + exists (String a lead). rewrite app_String, <- Hs. simpl. rewrite E. auto.
    + exists "". simpl. split_and!; [done..|]. by intros c [= <-].
Qed.

Lemma rstrip_spec s :
  ∃ trail,
    s = Str.rstrip s +:+ trail
    ∧ Str.all_chars Str.isspace trail = true
    ∧ ∀ c, Str.last_char (Str.rstrip s) = Some c → Str.isspace c = false.
Proof.
  induction s as [|a s (trail & Hs & Hall & Hlast)].
  - exists "". simpl. split_and!; [done..|]. intros c [=].
  - simpl. destruct (Str.rstrip s) as [|b r] eqn:Er.
    + change (s = trail) in Hs. subst trail.
      destruct (Str.isspace a) eqn:E.
      * exists (String a s). rewrite app_empty_l. simpl. rewrite E, Hall.
        split_and!; [done..|]. intros c [=].
      * exists s. rewrite app_String, app_empty_l.
        split_and!; [done..|]. simpl. by intros c [= <-].
    + exists trail. rewrite app_String, <- Hs. split_and!; [done..|].
      intros c Hc. apply Hlast. simpl in Hc. by destruct r.
Qed.

Lemma rstrip_first_char s c :
  Str.first_char (Str.rstrip s) = Some c → Str.first_char s = Some c.
Proof.
  destruct s as [|a s]; simpl; [done|].
  destruct (Str.rstrip s); [destruct (Str.isspace a)|]; simpl; congruence.
Qed.

Lemma strip_spec s :
  ∃ lead trail,
    s = lead +:+ Str.strip s +:+ trail
    ∧ Str.all_chars Str.isspace lead = true
    ∧ Str.all_chars Str.isspace trail = true
    ∧ (∀ c, Str.first_char (Str.strip s) = Some c → Str.isspace c = false)
    ∧ (∀ c, Str.last_char (Str.strip s) = Some c → Str.isspace c = false).
Proof.
  destruct (lstrip_spec s) as (lead & Hs & Hlead & Hfirst).
  destruct (rstrip_spec (Str.lstrip s)) as (trail & Hr & Htrail & Hlast).
  exists lead, trail. unfold Str.strip. rewrite <- Hr, <- Hs.
  split_and!; [done..| |done].
  intros c Hc. apply Hfirst. by apply rstrip_first_char.
Qed.

Lemma split_head_unique sep head rest :
  Str.all_chars (λ c, negb (Ascii.eqb c sep)) head = true →
  rest = "" ∨ Str.first_char rest = Some sep →
  Str.split_head sep (head +:+ rest) = head.
Proof.
  intros Hhead Hrest. induction head as [|a head IH].
  - rewrite app_empty_l. destruct Hrest as [->|Hrest]; [done|].
    destruct rest as [|b rest]; [done|]. injection Hrest as ->.
    simpl. by rewrite Ascii.eqb_refl.
  - simpl in Hhead. apply andb_prop in Hhead as [Ha Hhead].
    rewrite app_String. simpl.
    destruct (Ascii.eqb a sep); [done|]. by rewrite IH.
Qed.

Lemma lstrip_spaces lead s :
  Str.all_chars Str.isspace lead = true →
  Str.lstrip (lead +:+ s) = Str.lstrip s.
Proof.
  intros Hlead. induction lead as [|a lead IH]; [done|].
  simpl in Hlead. apply andb_prop in Hlead as [Ha Hlead].
  rewrite app_String. simpl. rewrite Ha. by apply IH.
Qed.

Lemma rstrip_spaces s trail :
  Str.all_chars Str.isspace trail = true →
  Str.rstrip (s +:+ trail) = Str.rstrip s.
Proof.
  intros Htrail. induction s as [|a s IH].
  - rewrite app_empty_l. induction trail as [|b trail IHt]; [done|].
    simpl in Htrail. apply andb_prop in Htrail as [Hb Htrail].
    simpl. rewrite (IHt Htrail). by rewrite Hb.
  - rewrite app_String. simpl. by rewrite IH.
Qed.

Lemma rstrip_fixed s :
  (∀ c, Str.last_char s = Some c → Str.isspace c = false) →
  Str.rstrip s = s.
Proof.
  induction s as [|a s IH]; intros Hlast; [done|].
  simpl. destruct s as [|b s].
  - simpl. by rewrite (Hlast a eq_refl).
  - rewrite IH; [done|]. intros c Hc. by apply Hlast.
Qed.

Lemma strip_unique lead fs trail :
  Str.all_chars Str.isspace lead = true →
  Str.all_chars Str.isspace trail = true →
  (∀ c, Str.first_char fs = Some c → Str.isspace c = false) →
  (∀ c, Str.last_char fs = Some c → Str.isspace c = false) →
  Str.strip (lead +:+ fs +:+ trail) = fs.
Proof.
  intros Hlead Htrail Hfirst Hlast. unfold Str.strip.
  rewrite (lstrip_spaces _ _ Hlead).
  destruct fs as [|c fs].
  - rewrite app_empty_l.
    rewrite <- (app_empty_r trail), (lstrip_spaces _ _ Htrail). done.
  - rewrite app_String. simpl. rewrite (Hfirst c eq_refl).
    rewrite <- app_String, (rstrip_spaces _ _ Htrail).
    by apply rstrip_fixed.
Qed.

End StrFacts.

(* ===================================================================== *)
(** * The rule classifier *)
(* ===================================================================== *)

Section RuleFacts.

Lemma any_keyword_in_spec keywords text :
  Rules.any_keyword_in keywords text = true
  ↔ ∃ k, k ∈ keywords ∧ Str.occurs_in k text.
Proof.
  induction keywords as [|k ks IH]; simpl.
  - split; [done|]. intros (k & Hk & _). by apply elem_of_nil in Hk.
  - destruct (Str.contains text k) eqn:E.
    + split; [|done]. intros _. exists k. split; [left|].
      by apply contains_spec.
    + rewrite IH. split.
      * intros (k' & Hk' & Hocc). exists k'. split; [by right | done].
      * intros (k' & Hk' & Hocc). apply elem_of_cons in Hk' as [->|Hk'].
        -- apply contains_spec in Hocc. congruence.
        -- eauto.
Qed.

Lemma matches_spec c text :
  Spec.matches c text
  ↔ Rules.any_keyword_in (Spec.keyword_set c) text = true.
Proof. unfold Spec.matches. by rewrite any_keyword_in_spec. Qed.

Lemma not_matches_spec c text :
  ¬ Spec.matches c text
  ↔ Rules.any_keyword_in (Spec.keyword_set c) text = false.
Proof. rewrite matches_spec. by destruct (Rules.any_keyword_in _ _). Qed.

(** The loop over the table, one row at a time. *)
Lemma determine_category_rows incident :
  let text := Spec.normalized_text incident in
  Rules.determine_category incident =
    if Rules.any_keyword_in (Spec.keyword_set INTEGRATION_FAILURE) text
    then INTEGRATION_FAILURE
    else if Rules.any_keyword_in (Spec.keyword_set SECURITY_ACCESS) text
    then SECURITY_ACCESS
    else if Rules.any_keyword_in (Spec.keyword_set DATA_ISSUE) text
    then DATA_ISSUE
    else if Rules.any_keyword_in (Spec.keyword_set CONFIGURATION_ISSUE) text
    then CONFIGURATION_ISSUE
    else UNKNOWN.
Proof. reflexivity. Qed.

Lemma first_match_cases text c :
  Spec.first_match text c ↔
    (c = INTEGRATION_FAILURE ∧ Spec.matches INTEGRATION_FAILURE text)
    ∨ (c = SECURITY_ACCESS ∧ Spec.matches SECURITY_ACCESS text
         ∧ ¬ Spec.matches INTEGRATION_FAILURE text)
    ∨ (c = DATA_ISSUE ∧ Spec.matches DATA_ISSUE text
         ∧ ¬ Spec.matches INTEGRATION_FAILURE text
         ∧ ¬ Spec.matches SECURITY_ACCESS text)
    ∨ (c = CONFIGURATION_ISSUE ∧ Spec.matches CONFIGURATION_ISSUE text
         ∧ ¬ Spec.matches INTEGRATION_FAILURE text
         ∧ ¬ Spec.matches SECURITY_ACCESS text
         ∧ ¬ Spec.matches DATA_ISSUE text).
Proof.
  unfold Spec.first_match, Spec.PRIORITY. split.
  - intros (before & after & Heq & Hc & Hbefore).
    destruct before as [|c1 [|c2 [|c3 [|c4 [|c5 before]]]]];
      simpl in Heq; inversion Heq; subst.
    + left. done.
    + right; left. split_and!; [done..|]. apply Hbefore. repeat constructor.
    + right; right; left. split_and!; [done..| |]; apply Hbefore; repeat constructor.
    + right; right; right.
      split_and!; [done..| | |]; apply Hbefore; repeat constructor.
  - intros [(-> & H)|[(-> & H & H1)|[(-> & H & H1 & H2)|(-> & H & H1 & H2 & H3)]]].
    + exists [], [SECURITY_ACCESS; DATA_ISSUE; CONFIGURATION_ISSUE].
      split_and!; [done..|]. intros c' Hc'. by apply elem_of_nil in Hc'.
    + exists [INTEGRATION_FAILURE], [DATA_ISSUE; CONFIGURATION_ISSUE].
      split_and!; [done..|]. intros c' Hc'. by apply list_elem_of_singleton in Hc' as ->.
    + exists [INTEGRATION_FAILURE; SECURITY_ACCESS], [CONFIGURATION_ISSUE].
      split_and!; [done..|]. intros c' Hc'.
      apply elem_of_cons in Hc' as [->|Hc']; [done|].
      by apply list_elem_of_singleton in Hc' as ->.
    + exists [INTEGRATION_FAILURE; SECURITY_ACCESS; DATA_ISSUE], [].
      split_and!; [done..|]. intros c' Hc'.
      apply elem_of_cons in Hc' as [->|Hc']; [done|].
      apply elem_of_cons in Hc' as [->|Hc']; [done|].
      by apply list_elem_of_singleton in Hc' as ->.
Qed.

End RuleFacts.

(** C7.  For every title and description, [determine_category] returns
    the first category of the priority order Integration, Security, Data,
    Configuration whose keyword set has a keyword occurring in the text
    that the classifier normalizes (title, one space, description, in
    lower case), and returns nothing else but Unknown, which it returns
    exactly when no keyword set matches.  In particular a text matching an
    Integration keyword and a Security keyword gives Integration, and a
    text matching no keyword set gives Unknown. *)
Theorem determine_category_priority (incident : IncidentCreate) :
  let text := Spec.normalized_text incident in
  (∀ c, Rules.determine_category incident = c
        ↔ Spec.first_match text c
          ∨ (c = UNKNOWN ∧ ∀ c', c' ∈ Spec.PRIORITY → ¬ Spec.matches c' text))
  ∧ (Spec.matches INTEGRATION_FAILURE text ∧ Spec.matches SECURITY_ACCESS text
     → Rules.determine_category incident = INTEGRATION_FAILURE)
  ∧ ((∀ c', ¬ Spec.matches c' text)
     → Rules.determine_category incident = UNKNOWN).
Proof.
  intros text.
  assert (Hmain : ∀ c, Rules.determine_category incident = c
        ↔ Spec.first_match text c
          ∨ (c = UNKNOWN ∧ ∀ c', c' ∈ Spec.PRIORITY → ¬ Spec.matches c' text)).
  { intros c. rewrite determine_category_rows, first_match_cases.
    fold text. unfold Spec.PRIORITY.
    assert (Hall : (∀ c', c' ∈ [INTEGRATION_FAILURE; SECURITY_ACCESS;
                                DATA_ISSUE; CONFIGURATION_ISSUE]
                          → ¬ Spec.matches c' text)
                   ↔ ¬ Spec.matches INTEGRATION_FAILURE text
                     ∧ ¬ Spec.matches SECURITY_ACCESS text
                     ∧ ¬ Spec.matches DATA_ISSUE text
                     ∧ ¬ Spec.matches CONFIGURATION_ISSUE text).
    { split.
      - intros H. split_and!; apply H; repeat constructor.
      - intros (H1 & H2 & H3 & H4) c' Hc'.
        repeat (apply elem_of_cons in Hc' as [->|Hc']; [done|]).
        by apply elem_of_nil in Hc'. }
    rewrite Hall. rewrite !not_matches_spec, !matches_spec.
    destruct (Rules.any_keyword_in (Spec.keyword_set INTEGRATION_FAILURE) text),
             (Rules.any_keyword_in (Spec.keyword_set SECURITY_ACCESS) text),
             (Rules.any_keyword_in (Spec.keyword_set DATA_ISSUE) text),
             (Rules.any_keyword_in (Spec.keyword_set CONFIGURATION_ISSUE) text);
      destruct c; intuition congruence. }
  split_and!; [exact Hmain| |].
  - intros [HI HS]. apply Hmain. left. apply first_match_cases. by left.
  - intros Hnone. apply Hmain. right. split; [done|]. intros c' _. apply Hnone.
Qed.

Lemma determine_category_priority_witness :
  Rules.determine_category (Scenario.incident "API Login" "Users cannot LOGIN through the api")
  = INTEGRATION_FAILURE.
Proof.
  destruct (determine_category_priority
              (Scenario.incident "API Login" "Users cannot LOGIN through the api"))
    as (_ & Hboth & _).
  apply Hboth. split.
  - exists "api". split; [repeat constructor|].
    exists "", " login users cannot login through the api". reflexivity.
  - exists "login". split; [repeat constructor|].
    exists "api ", " users cannot login through the api". reflexivity.
Defined.

(** Category priority on concrete incidents: "api" and "login" both
    occur; nothing occurs. *)
Example determine_category_both :
  Rules.determine_category
    {| ic_title := "API Login"; ic_description := "Users cannot LOGIN through the api";
       ic_erp_module := AP; ic_environment := PROD; ic_business_unit := "Finance" |}
  = INTEGRATION_FAILURE.
Proof. reflexivity. Qed.

Example determine_category_none :
  Rules.determine_category
    {| ic_title := "System Down";
       ic_description := "Production system is completely down and all users are affected";
       ic_erp_module := GL; ic_environment := PROD; ic_business_unit := "Finance" |}
  = UNKNOWN.
Proof. reflexivity. Qed.

Section SummaryFacts.

Lemma first_sentence_of_description d :
  Spec.is_first_sentence d (Str.strip (Str.split_head "." d)).
Proof.
  destruct (split_head_spec "." d) as (rest & Hd & Hhead & Hrest).
  destruct (strip_spec (Str.split_head "." d))
    as (lead & trail & Hs & Hlead & Htrail & Hfirst & Hlast).
  exists (Str.split_head "." d), rest, lead, trail. by split_and!.
Qed.

(** A description has one first sentence only. *)
Lemma first_sentence_unique d fs :
  Spec.is_first_sentence d fs → fs = Str.strip (Str.split_head "." d).
Proof.
  intros (head & rest & lead & trail & -> & Hhead & Hrest & -> & Hlead
          & Htrail & Hfirst & Hlast).
  rewrite split_head_unique by done. symmetry. by apply strip_unique.
Qed.

End SummaryFacts.

(** C9, as the code has it.  The summary is the title, a colon and a
    space, then the first sentence of the description; the first sentence
    is replaced by its first 97 characters followed by an ellipsis when it
    is longer than 100 characters, and is kept whole otherwise. *)
Theorem generate_summary_truncates_over_100
    (incident : IncidentCreate) (fs : string) :
  Spec.is_first_sentence (ic_description incident) fs →
  (Str.len fs ≤ 100
   → Rules.generate_summary incident = ic_title incident +:+ ": " +:+ fs)
  ∧ (100 < Str.len fs
     → ∃ p tl, fs = p +:+ tl ∧ Str.len p = 97
         ∧ Rules.generate_summary incident
           = ic_title incident +:+ ": " +:+ p +:+ "...").
Proof.
  intros Hfs. apply first_sentence_unique in Hfs.
  unfold Rules.generate_summary. rewrite <- Hfs. split.
  - intros Hle. apply Nat.ltb_ge in Hle. by rewrite Hle.
  - intros Hlt.
    destruct (take_app_len 97 fs) as (tl & Htl & Hlen); [lia|].
    apply Nat.ltb_lt in Hlt. rewrite Hlt.
    eexists _, tl. by split_and!.
Qed.

Lemma generate_summary_truncates_over_100_witness :
  Rules.generate_summary Scenario.incident120
  = "Ledger: " +:+ Str.replicate 97 "b" +:+ "...".
Proof.
  destruct (generate_summary_truncates_over_100 Scenario.incident120
              (Str.replicate 120 "b")) as [_ Hlong].
  - exists ("  " +:+ Str.replicate 120 "b" +:+ " "), ". Second sentence.",
      "  ", " ".
    split_and!; try (vm_compute; reflexivity).
    + by right.
    + intros c Hc. vm_compute in Hc. by injection Hc as <-.
    + intros c Hc. vm_compute in Hc. by injection Hc as <-.
  - destruct Hlong as (p & tl & Hsplit & Hp & ->); [vm_compute; lia|].
    assert (Hpre : ∀ n s t u, Str.len s = n → s +:+ t = u → s = Str.take n u).
    { clear. intros n s. revert n. induction s as [|a s IH]; intros n t u Hn <-.
      - unfold Str.len in Hn. simpl in Hn. subst n. by destruct t.
      - unfold Str.len in Hn. simpl in Hn. subst n. rewrite app_String. simpl.
        f_equal. by eapply IH. }
    rewrite (Hpre 97 p tl (Str.replicate 120 "b") Hp (eq_sym Hsplit)).
    vm_compute. reflexivity.
Defined.

Example generate_summary_120 :
  Rules.generate_summary Scenario.incident120
  = "Ledger: " +:+ Str.replicate 97 "b" +:+ "...".
Proof. vm_compute. reflexivity. Qed.

(** C9 as worded fails: a first sentence of 98 characters is longer than
    97 characters and is nevertheless kept whole. *)
Lemma generate_summary_98_kept_whole :
  ¬ (∀ incident fs,
       Spec.is_first_sentence (ic_description incident) fs →
       Rules.generate_summary incident
       = ic_title incident +:+ ": "
         +:+ (if 97 <? Str.len fs then Str.take 97 fs +:+ "..." else fs)).
Proof.
  intros H.
  specialize (H Scenario.incident98 Scenario.sentence98).
  assert (Hfs : Spec.is_first_sentence (ic_description Scenario.incident98)
                  Scenario.sentence98).
  { exists Scenario.sentence98, "", "", "".
    split_and!; try (vm_compute; reflexivity).
    - by left.
    - intros c Hc. vm_compute in Hc. by injection Hc as <-.
    - intros c Hc. vm_compute in Hc. by injection Hc as <-. }
  specialize (H Hfs). vm_compute in H. discriminate H.
Qed.

(* ===================================================================== *)
(** * Sorting facts *)
(* ===================================================================== *)

Section SortedFacts.

Context {A B : Type}.

Lemma StronglySorted_sublist (R : relation A) (l k : list A) :
  l `sublist_of` k → StronglySorted R k → StronglySorted R l.
Proof.
  induction 1 as [|x l k Hsub IH|x l k Hsub IH]; intros Hk.
  - constructor.
  - apply StronglySorted_inv in Hk as [Hk Hx]. constructor; [by apply IH|].
    eapply Forall_forall. intros y Hy.
    eapply Forall_forall in Hx; [exact Hx|].
    eapply sublist_subseteq; eauto.
  - apply StronglySorted_inv in Hk as [Hk _]. by apply IH.
Qed.

Lemma StronglySorted_rev (R : relation A) (l : list A) :
  StronglySorted R l → StronglySorted (flip R) (rev l).
Proof.
  induction 1 as [|x l Hl IH Hx]; simpl; [constructor|].
  apply StronglySorted_app. split_and!.
  - intros y z Hy Hz. apply list_elem_of_singleton in Hz as ->.
    unfold flip. eapply Forall_forall in Hx; [exact Hx|].
    apply list_elem_of_In. apply in_rev. by apply list_elem_of_In.
  - exact IH.
  - repeat constructor.
Qed.

Lemma StronglySorted_impl (R R' : relation A) (l : list A) :
  (∀ x y, R x y → R' x y) → StronglySorted R l → StronglySorted R' l.
Proof.
  intros HR. induction 1 as [|x l Hl IH Hx]; constructor; [done|].
  eapply Forall_impl; eauto.
Qed.

(** A sorted list stays sorted when its items are replaced by related
    ones. *)
Lemma StronglySorted_Forall2 (R : relation A) (R' : relation B)
    (E : A → B → Prop) (l : list A) (k : list B) :
  (∀ x y a b, E x a → E y b → R x y → R' a b) →
  Forall2 E l k → StronglySorted R l → StronglySorted R' k.
Proof.
  intros HE HF. induction HF as [|x a l k Hxa HF IH]; intros Hl.
  - constructor.
  - apply StronglySorted_inv in Hl as [Hl Hx]. constructor; [by apply IH|].
    clear IH Hl. induction HF as [|y b l k Hyb HF IH]; constructor.
    + eapply HE; eauto. by eapply Forall_inv.
    + apply IH. by eapply Forall_inv_tail.
Qed.

Lemma StronglySorted_lookup (R : relation A) (l : list A) i j x y :
  StronglySorted R l → i < j → l !! i = Some x → l !! j = Some y → R x y.
Proof.
  intros Hl. revert i j. induction Hl as [|z l Hl IH Hz]; intros i j Hij Hi Hj.
  - done.
  - destruct j as [|j]; [lia|]. destruct i as [|i]; simpl in *.
    + injection Hi as <-. eapply Forall_forall in Hz; [exact Hz|].
      by eapply list_elem_of_lookup_2.
    + eapply (IH i j); [lia|done..].
Qed.

(** Two items of a sublist occur in the same order in the list. *)
Lemma sublist_lookup_order (l k : list A) i j x y :
  l `sublist_of` k → i < j → l !! i = Some x → l !! j = Some y →
  ∃ i' j', i' < j' ∧ k !! i' = Some x ∧ k !! j' = Some y.
Proof.
  intros Hsub. revert i j.
  induction Hsub as [|z l k Hsub IH|z l k Hsub IH]; intros i j Hij Hi Hj.
  - done.
  - destruct j as [|j]; [lia|]. destruct i as [|i]; simpl in Hi, Hj.
    + injection Hi as ->.
      assert (Hy : y ∈ k).
      { eapply elem_of_sublist; [|exact Hsub].
        by eapply list_elem_of_lookup_2. }
      apply list_elem_of_lookup in Hy as [j' Hj'].
      exists 0, (S j'). split_and!; [lia|done..].
    + destruct (IH i j) as (i' & j' & Hlt & Hx & Hy); [lia|done..|].
      exists (S i'), (S j'). split_and!; [lia|done..].
  - destruct (IH i j Hij Hi Hj) as (i' & j' & Hlt & Hx & Hy).
    exists (S i'), (S j'). split_and!; [lia|done..].
Qed.

(** Reversing a list reverses the order of occurrence. *)
Lemma rev_lookup_order (l : list A) i j x y :
  i < j → rev l !! i = Some x → rev l !! j = Some y →
  ∃ a b, a < b ∧ l !! a = Some y ∧ l !! b = Some x.
Proof.
  intros Hij Hi Hj.
  assert (Hrev : rev l = reverse l) by (unfold reverse; apply rev_alt).
  rewrite Hrev in Hi, Hj.
  assert (Hlj : j < length l).
  { apply lookup_lt_Some in Hj. by rewrite length_reverse in Hj. }
  rewrite reverse_lookup in Hi by lia. rewrite reverse_lookup in Hj by lia.
  exists (length l - S j), (length l - S i). split_and!; [lia|done..].
Qed.

End SortedFacts.

Section NumpyFacts.

Import Numpy.

Lemma insert_position_perm v i sorted :
  Permutation (insert_position v i sorted) (i :: sorted).
Proof.
  induction sorted as [|j rest IH]; simpl; [done|].
  destruct (Qle_bool _ _); [|done].
  rewrite IH. apply perm_swap.
Qed.

Lemma insert_position_sorted v i sorted :
  Forall (λ j, j < i) sorted →
  StronglySorted (stable_le v) sorted →
  StronglySorted (stable_le v) (insert_position v i sorted).
Proof.
  intros Hlt Hs. induction Hs as [|j rest Hs IH Hj]; simpl.
  - repeat constructor.
  - apply Forall_cons in Hlt as [Hji Hlt].
    destruct (Qle_bool (nth_score v j) (nth_score v i)) eqn:E.
    + apply Qle_bool_iff in E. constructor; [by apply IH|].
      rewrite insert_position_perm. constructor; [|done].
      split; [done | intros _; lia].
    + assert (Hlti : (nth_score v i < nth_score v j)%Q).
      { apply Qnot_le_lt. intros H. apply Qle_bool_iff in H. congruence. }
      constructor; [by constructor|].
      constructor.
      * split; [by apply Qlt_le_weak|]. intros Heq. rewrite Heq in Hlti.
        by apply Qlt_irrefl in Hlti.
      * eapply Forall_impl; [exact Hj|]. intros k [Hle Hk]. split.
        -- apply Qlt_le_weak. eapply Qlt_le_trans; eauto.
        -- intros Heq. rewrite Heq in Hlti.
           exfalso. eapply Qlt_irrefl. eapply Qlt_le_trans; eauto.
Qed.

Lemma insertion_fold_perm v l acc :
  Permutation (fold_left (λ sorted i, insert_position v i sorted) l acc)
    (acc ++ l).
Proof.
  revert acc. induction l as [|i l IH]; intros acc; simpl.
  - by rewrite app_nil_r.
  - rewrite IH, insert_position_perm. simpl. apply Permutation_middle.
Qed.

Lemma insertion_fold_sorted v n m acc :
  Forall (λ j, j < n) acc →
  StronglySorted (stable_le v) acc →
  StronglySorted (stable_le v)
    (fold_left (λ sorted i, insert_position v i sorted) (seq n m) acc).
Proof.
  revert n acc. induction m as [|m IH]; intros n acc Hlt Hs; simpl; [done|].
  apply IH.
  - rewrite insert_position_perm. constructor; [lia|].
    eapply Forall_impl; [exact Hlt|]. simpl. lia.
  - by apply insert_position_sorted.
Qed.

Lemma insertion_argsort_stable_le v :
  StronglySorted (stable_le v) (insertion_argsort v).
Proof. apply insertion_fold_sorted; constructor. Qed.

(** Insertion keeps an ascending list ascending, whatever the order in
    which the positions come. *)
Lemma insert_position_ascending v i sorted :
  StronglySorted (λ a b, (nth_score v a <= nth_score v b)%Q) sorted →
  StronglySorted (λ a b, (nth_score v a <= nth_score v b)%Q)
    (insert_position v i sorted).
Proof.
  intros Hs. induction Hs as [|j rest Hs IH Hj]; simpl.
  - repeat constructor.
  - destruct (Qle_bool (nth_score v j) (nth_score v i)) eqn:E.
    + apply Qle_bool_iff in E. constructor; [done|].
      rewrite insert_position_perm. by constructor.
    + assert (Hlti : (nth_score v i < nth_score v j)%Q).
      { apply Qnot_le_lt. intros H. apply Qle_bool_iff in H. congruence. }
      constructor; [by constructor|].
      constructor; [by apply Qlt_le_weak|].
      eapply Forall_impl; [exact Hj|]. intros k Hle. simpl in Hle.
      apply Qlt_le_weak. eapply Qlt_le_trans; eauto.
Qed.

Lemma insertion_fold_ascending v l acc :
  StronglySorted (λ a b, (nth_score v a <= nth_score v b)%Q) acc →
  StronglySorted (λ a b, (nth_score v a <= nth_score v b)%Q)
    (fold_left (λ sorted i, insert_position v i sorted) l acc).
Proof.
  revert acc. induction l as [|i l IH]; intros acc Hs; simpl; [done|].
  apply IH. by apply insert_position_ascending.
Qed.

(** Both insertion sorts meet the contract of [argsort]. *)
Lemma insertion_argsort_desc_contract :
  argsort_contract insertion_argsort_desc.
Proof.
  intros v. split.
  - unfold insertion_argsort_desc. rewrite insertion_fold_perm. simpl.
    symmetry. apply Permutation_rev.
  - apply insertion_fold_ascending. constructor.
Qed.

Lemma insertion_argsort_contract : argsort_contract insertion_argsort.
Proof.
  intros v. split.
  - unfold insertion_argsort. by rewrite insertion_fold_perm.
  - eapply StronglySorted_impl; [|apply insertion_argsort_stable_le].
    by intros i j [H _].
Qed.

End NumpyFacts.

(* ===================================================================== *)
(** * The similarity index *)
(* ===================================================================== *)

Section SearchFacts.

Import VectorRepo.

Variable cosine : embedding → embedding → score.
Variable argsort : list score → list nat.

Lemma collect_spec sims incs limit idxs acc res :
  collect sims incs limit idxs acc = Ok res →
  ∃ picked rs,
    picked `sublist_of` idxs
    ∧ res = acc ++ rs
    ∧ Forall2 (Spec.entry sims incs) picked rs
    ∧ Forall (λ r, (min_similarity <= r.2)%Q) rs
    ∧ (Z.of_nat (length res) ≤ Z.max (Z.of_nat (length acc)) limit)%Z.
Proof.
  revert acc. induction idxs as [|idx idxs IH]; intros acc H; simpl in H.
  - injection H as <-. exists [], []. rewrite app_nil_r.
    split_and!; [constructor..|lia].
  - destruct (sims !! idx) as [s|] eqn:Es; [|done].
    destruct (Qle_bool min_similarity s
              && (Z.of_nat (length acc) <? limit)%Z) eqn:Ec.
    + destruct (incs !! idx) as [inc|] eqn:Ei; [|done].
      apply andb_prop in Ec as [Hs Hl].
      apply Qle_bool_iff in Hs. apply Z.ltb_lt in Hl.
      destruct (IH _ H) as (picked & rs & Hsub & -> & HF & Hmin & Hlen).
      exists (idx :: picked), ((inc, s) :: rs). split_and!.
      * by constructor.
      * by rewrite <- app_assoc.
      * by constructor.
      * by constructor.
      * rewrite !length_app in Hlen. rewrite !length_app. simpl in *. lia.
    + destruct (IH _ H) as (picked & rs & Hsub & -> & HF & Hmin & Hlen).
      exists picked, rs. split_and!; [by constructor|done..].
Qed.

Lemma rank_spec st candidates query limit res :
  rank cosine argsort st candidates query limit = Ok res →
  let paired := pair_with_embeddings st candidates in
  let sims := map (cosine query) paired.*2 in
  ∃ picked,
    picked `sublist_of` rev (argsort sims)
    ∧ Forall2 (Spec.entry sims paired.*1) picked res
    ∧ Forall (λ r, (min_similarity <= r.2)%Q) res
    ∧ (Z.of_nat (length res) ≤ Z.max 0 limit)%Z.
Proof.
  intros H paired sims.
  assert (Hnil : res = [] →
    ∃ picked, picked `sublist_of` rev (argsort sims)
      ∧ Forall2 (Spec.entry sims paired.*1) picked res
      ∧ Forall (λ r, (min_similarity <= r.2)%Q) res
      ∧ (Z.of_nat (length res) ≤ Z.max 0 limit)%Z).
  { intros ->. exists [].
    split_and!; [apply sublist_nil_l|constructor..|simpl; lia]. }
  unfold rank in H.
  destruct candidates as [|c cs]; [injection H as <-; by apply Hnil|].
  cbv zeta in H. change (pair_with_embeddings st (c :: cs)) with paired in H.
  subst sims.
  destruct (paired.*2) as [|e es] eqn:Ep; [injection H as <-; by apply Hnil|].
  unfold cosine_similarity in H.
  destruct ((0 <? length query)
            && forallb (λ e0, length e0 =? length query) (e :: es));
    [|done].
  apply collect_spec in H as (picked & rs & Hsub & -> & HF & Hmin & Hlen).
  exists picked. by split_and!.
Qed.

Lemma get_candidates_embeddings st amb f :
  _embeddings (final (get_candidates st amb f)) = _embeddings st.
Proof.
  unfold get_candidates, _get_resolved_incidents, fetch_resolved.
  repeat (case_match; simpl; try done).
Qed.

Lemma pair_with_embeddings_ext st st' candidates :
  _embeddings st = _embeddings st' →
  pair_with_embeddings st candidates = pair_with_embeddings st' candidates.
Proof.
  intros H. induction candidates as [|c cs IH]; simpl; [done|].
  by rewrite H, IH.
Qed.

Lemma find_similar_rank st amb query limit filters results :
  value (find_similar cosine argsort st amb query limit filters) = Ok results →
  ∃ candidates,
    value (get_candidates st amb (status_filter_of filters)) = Ok candidates
    ∧ rank cosine argsort st candidates query limit = Ok results.
Proof.
  unfold find_similar.
  destruct (value (get_candidates st amb (status_filter_of filters)))
    as [candidates|e] eqn:E; simpl; [|done].
  intros H. exists candidates. split; [done|].
  rewrite <- H. unfold rank.
  by rewrite (pair_with_embeddings_ext _ _ _
                (get_candidates_embeddings st amb (status_filter_of filters))).
Qed.

Lemma entry_nth_score sims incs i r :
  Spec.entry sims incs i r → Numpy.nth_score sims i = r.2.
Proof.
  intros [Hs _]. unfold Numpy.nth_score.
  by apply nth_lookup_Some with (d := 0%Q) in Hs.
Qed.

End SearchFacts.

(** C2.  Whatever the query embedding, the limit and the state of the
    index, the pairs returned by [find_similar] all have a score at or
    above the threshold 0.7, are listed by non-increasing score, and are
    at most [limit] many (none at all for a limit below one). *)
Theorem find_similar_threshold_order_limit
    (cosine : embedding → embedding → score) (argsort : list score → list nat)
    (st : VectorRepo.state) (amb : VectorRepo.Ambient)
    (query : embedding) (limit : Z) (filters : option (gmap string string))
    (results : list (IncidentResponse * score)) :
  Numpy.argsort_contract argsort →
  VectorRepo.value
    (VectorRepo.find_similar cosine argsort st amb query limit filters)
  = Ok results →
  Forall (λ r, (VectorRepo.min_similarity <= r.2)%Q) results
  ∧ Spec.descending results
  ∧ (Z.of_nat (length results) ≤ Z.max 0 limit)%Z.
Proof.
  intros Hargsort H.
  apply find_similar_rank in H as (candidates & _ & H).
  apply rank_spec in H as (picked & Hsub & HF & Hmin & Hlen).
  split_and!; [done| |done].
  unfold Spec.descending.
  eapply StronglySorted_Forall2; [|exact HF|].
  2:{ eapply StronglySorted_sublist; [exact Hsub|].
      apply StronglySorted_rev. apply Hargsort. }
  intros i j a b Hi Hj Hij. unfold flip in Hij.
  by rewrite (entry_nth_score _ _ _ _ Hi), (entry_nth_score _ _ _ _ Hj) in Hij.
Qed.

Lemma find_similar_threshold_order_limit_witness :
  let results :=
    [(Scenario.incB, (625 # 625)%Q); (Scenario.incA, (625 # 625)%Q)] in
  Forall (λ r, (VectorRepo.min_similarity <= r.2)%Q) results
  ∧ Spec.descending results
  ∧ (Z.of_nat (length results) ≤ Z.max 0 2)%Z.
Proof.
  apply (find_similar_threshold_order_limit Scenario.dot Numpy.insertion_argsort
           Scenario.index_abc
           (Scenario.at_minute 0 [Scenario.incA; Scenario.incB; Scenario.incC])
           Scenario.u34 2 None).
  - exact insertion_argsort_contract.
  - vm_compute. reflexivity.
Defined.

(** The three candidates of the example index against a query equal to
    the vector of [incA] and [incB]. *)
Example find_similar_abc :
  VectorRepo.value
    (VectorRepo.find_similar Scenario.dot Numpy.insertion_argsort
       Scenario.index_abc
       (Scenario.at_minute 0 [Scenario.incA; Scenario.incB; Scenario.incC])
       Scenario.u34 5 None)
  = Ok [(Scenario.incB, (625 # 625)%Q); (Scenario.incA, (625 # 625)%Q);
        (Scenario.incC, (600 # 625)%Q)].
Proof. vm_compute. reflexivity. Qed.

(** C6, as the code has it.  [find_similar] obtains the descending order by
    reversing the ascending order of [np.argsort] and adds no rule of its
    own for equal scores: candidates with equal scores appear in the
    returned list in the reverse of the order in which [argsort] lists
    their positions, whatever that order is. *)
Theorem find_similar_ties_reverse_argsort_order
    (cosine : embedding → embedding → score) (argsort : list score → list nat)
    (st : VectorRepo.state) (amb : VectorRepo.Ambient)
    (query : embedding) (limit : Z) (filters : option (gmap string string))
    (results : list (IncidentResponse * score))
    (candidates : list IncidentResponse) :
  VectorRepo.value
    (VectorRepo.find_similar cosine argsort st amb query limit filters)
  = Ok results →
  VectorRepo.value
    (VectorRepo.get_candidates st amb (VectorRepo.status_filter_of filters))
  = Ok candidates →
  Spec.ties_ordered
    (λ p q,
       Spec.listed_before
         (argsort (Spec.candidate_scores cosine st candidates query)) q p)
    (VectorRepo.pair_with_embeddings st candidates).*1 results.
Proof.
  intros H Hc.
  apply find_similar_rank in H as (candidates' & Hc' & H).
  rewrite Hc in Hc'. injection Hc' as <-.
  apply rank_spec in H as (picked & Hsub & HF & _ & _).
  exists picked. split.
  - eapply Forall2_impl; [exact HF|]. by intros p r [_ Hp].
  - intros i j p q a b Hij Hp Hq _ _ _.
    destruct (sublist_lookup_order _ _ i j p q Hsub Hij Hp Hq)
      as (i' & j' & Hij' & Hi' & Hj').
    exact (rev_lookup_order _ i' j' p q Hij' Hi' Hj').
Qed.

Lemma find_similar_ties_reverse_argsort_order_witness :
  Spec.ties_ordered
    (λ p q,
       Spec.listed_before
         (Numpy.insertion_argsort
            (Spec.candidate_scores Scenario.dot Scenario.index_abc
               [Scenario.incA; Scenario.incB; Scenario.incC] Scenario.u34))
         q p)
    [Scenario.incA; Scenario.incB; Scenario.incC]
    [(Scenario.incB, (625 # 625)%Q); (Scenario.incA, (625 # 625)%Q);
     (Scenario.incC, (600 # 625)%Q)].
Proof.
  apply (find_similar_ties_reverse_argsort_order Scenario.dot
           Numpy.insertion_argsort Scenario.index_abc
           (Scenario.at_minute 0 [Scenario.incA; Scenario.incB; Scenario.incC])
           Scenario.u34 5 None _ [Scenario.incA; Scenario.incB; Scenario.incC]).
  - vm_compute. reflexivity.
  - vm_compute. reflexivity.
Defined.

(** Two sorts that both meet the contract of [argsort] return the two
    candidates of equal score in opposite orders: the order of equal
    scores is the sort's, not the repository's. *)
Lemma find_similar_ties_depend_on_argsort :
  let st := Scenario.index_abc in
  let amb := Scenario.at_minute 0 [Scenario.incA; Scenario.incB; Scenario.incC] in
  Numpy.argsort_contract Numpy.insertion_argsort
  ∧ Numpy.argsort_contract Numpy.insertion_argsort_desc
  ∧ VectorRepo.value
      (VectorRepo.find_similar Scenario.dot Numpy.insertion_argsort
         st amb Scenario.u34 5 None)
    = Ok [(Scenario.incB, (625 # 625)%Q); (Scenario.incA, (625 # 625)%Q);
          (Scenario.incC, (600 # 625)%Q)]
  ∧ VectorRepo.value
      (VectorRepo.find_similar Scenario.dot Numpy.insertion_argsort_desc
         st amb Scenario.u34 5 None)
    = Ok [(Scenario.incA, (625 # 625)%Q); (Scenario.incB, (625 # 625)%Q);
          (Scenario.incC, (600 # 625)%Q)].
Proof.
  intros st amb. split_and!.
  - exact insertion_argsort_contract.
  - exact insertion_argsort_desc_contract.
  - vm_compute. reflexivity.
  - vm_compute. reflexivity.
Qed.

(** C6 as worded fails: the store lists [incA] before [incB], both score
    the same against the query, and [incB] is returned first. *)
Lemma find_similar_ties_not_in_retrieval_order :
  let st := Scenario.index_abc in
  let amb := Scenario.at_minute 0 [Scenario.incA; Scenario.incB; Scenario.incC] in
  ∃ results candidates,
    VectorRepo.value
      (VectorRepo.find_similar Scenario.dot Numpy.insertion_argsort
         st amb Scenario.u34 5 None) = Ok results
    ∧ VectorRepo.value (VectorRepo.get_candidates st amb "resolved")
      = Ok candidates
    ∧ candidates = [Scenario.incA; Scenario.incB; Scenario.incC]
    ∧ ¬ Spec.ties_ordered (λ p q, p < q)
          (VectorRepo.pair_with_embeddings st candidates).*1 results.
Proof.
  intros st amb.
  exists [(Scenario.incB, (625 # 625)%Q); (Scenario.incA, (625 # 625)%Q);
          (Scenario.incC, (600 # 625)%Q)],
         [Scenario.incA; Scenario.incB; Scenario.incC].
  split_and!; [vm_compute; reflexivity..|].
  intros (positions & HF & Hties).
  change ((VectorRepo.pair_with_embeddings st
             [Scenario.incA; Scenario.incB; Scenario.incC]).*1)
    with [Scenario.incA; Scenario.incB; Scenario.incC] in HF.
  destruct positions as [|p [|q positions]];
    [by inversion HF | inversion HF as [|? ? ? ? ? HF']; by inversion HF' |].
  apply Forall2_cons in HF as [Hp HF]. apply Forall2_cons in HF as [Hq _].
  simpl in Hp, Hq.
  assert (p = 1) as ->.
  { destruct p as [|[|[|p]]]; simpl in Hp; [discriminate|done|discriminate..]. }
  assert (q = 0) as ->.
  { destruct q as [|[|[|q]]]; simpl in Hq; [done|discriminate..]. }
  specialize (Hties 0 1 1 0 _ _ (Nat.lt_0_1) eq_refl eq_refl eq_refl eq_refl).
  simpl in Hties. specialize (Hties (Qeq_refl _)). lia.
Qed.

Section CacheFacts.

Import VectorRepo.

Variable cosine : embedding → embedding → score.
Variable argsort : list score → list nat.

Lemma find_similar_calls st amb query limit filters :
  store_calls (find_similar cosine argsort st amb query limit filters)
  = store_calls (get_candidates st amb (status_filter_of filters)).
Proof. unfold find_similar. by case_match. Qed.

Lemma find_similar_final st amb query limit filters :
  final (find_similar cosine argsort st amb query limit filters)
  = final (get_candidates st amb (status_filter_of filters)).
Proof. unfold find_similar. by case_match. Qed.

Lemma get_resolved_fresh st amb cache t :
  _resolved_incidents_cache st = Some cache →
  _cache_timestamp st = Some t →
  (now_check amb - t < _cache_ttl)%Z →
  _get_resolved_incidents st amb
  = {| value := Ok cache; final := st; store_calls := [] |}.
Proof.
  intros Hc Ht Hlt. unfold _get_resolved_incidents. rewrite Hc, Ht.
  apply Z.ltb_lt in Hlt. by rewrite Hlt.
Qed.

Lemma get_resolved_stale st amb :
  cache_is_fresh st (now_check amb) = false →
  _get_resolved_incidents st amb = fetch_resolved st amb.
Proof.
  unfold cache_is_fresh, _get_resolved_incidents.
  destruct (_resolved_incidents_cache st), (_cache_timestamp st); try done.
  by intros ->.
Qed.

Lemma fetch_resolved_calls st amb :
  store_calls (fetch_resolved st amb) = [Spec.resolved_call].
Proof. unfold fetch_resolved. by case_match. Qed.

Lemma fetch_resolved_captures st amb l :
  list_all amb 10000%Z "resolved" = Ok l →
  fetch_resolved st amb
  = {| value := Ok (filter (λ inc, has_embedding st inc) l);
       final := {| _embeddings := _embeddings st;
                   _metadata := _metadata st;
                   _resolved_incidents_cache :=
                     Some (filter (λ inc, has_embedding st inc) l);
                   _cache_timestamp := Some (now_capture amb) |};
       store_calls := [Spec.resolved_call] |}.
Proof. intros H. unfold fetch_resolved. by rewrite H. Qed.

Lemma get_candidates_resolved st amb :
  get_candidates st amb "resolved" = _get_resolved_incidents st amb.
Proof. reflexivity. Qed.

(** No method of the class lets the two maps disagree on their keys. *)
Lemma reachable_same_keys st : reachable st → Spec.same_keys st.
Proof.
  unfold Spec.same_keys. induction 1 as [|st i e m _ IH|st i _ IH|st amb _ IH]; simpl.
  - by rewrite !dom_empty_L.
  - by rewrite !dom_insert_L, IH.
  - by rewrite !dom_delete_L, IH.
  - unfold _get_resolved_incidents, fetch_resolved.
    repeat (case_match; simpl; try done).
Qed.

Lemma reachable_find_similar st amb query limit filters :
  reachable st →
  reachable (final (find_similar cosine argsort st amb query limit filters)).
Proof.
  intros Hst. rewrite find_similar_final. unfold get_candidates.
  case_bool_decide; [by apply reach_get_resolved|].
  by case_match.
Qed.

End CacheFacts.

(** C3, as the code has it.  The five minutes run from the moment the
    candidate list was captured from the Incident Store, not from the
    previous call.  For calls of [find_similar] with the resolved filter:
    (1) a call that finds a list captured less than 5 minutes earlier, with
        no [add_embedding] or [remove_embedding] since, makes no call to
        the store, works on the cached list and leaves the index as it is;
    (2) a call that fetches successfully captures the list at its own
        clock reading, so a following call less than 5 minutes after that
        capture does not fetch;
    (3) a call 5 minutes or more after the capture fetches again;
    (4) the first call after any [add_embedding] or [remove_embedding]
        fetches again. *)
Theorem candidate_cache_rebuild_policy
    (cosine : embedding → embedding → score) (argsort : list score → list nat) :
  let find := VectorRepo.find_similar cosine argsort in
  (∀ st amb query limit filters cache t,
     VectorRepo.status_filter_of filters = "resolved" →
     VectorRepo._resolved_incidents_cache st = Some cache →
     VectorRepo._cache_timestamp st = Some t →
     (VectorRepo.now_check amb - t < VectorRepo._cache_ttl)%Z →
     VectorRepo.store_calls (find st amb query limit filters) = []
     ∧ VectorRepo.final (find st amb query limit filters) = st
     ∧ VectorRepo.value (find st amb query limit filters)
       = VectorRepo.rank cosine argsort st cache query limit)
  ∧ (∀ st amb1 amb2 query1 query2 limit1 limit2 filters1 filters2 listed,
       VectorRepo.status_filter_of filters1 = "resolved" →
       VectorRepo.status_filter_of filters2 = "resolved" →
       VectorRepo.store_calls (find st amb1 query1 limit1 filters1)
       = [Spec.resolved_call] →
       VectorRepo.list_all amb1 10000%Z "resolved" = Ok listed →
       (VectorRepo.now_check amb2 - VectorRepo.now_capture amb1
        < VectorRepo._cache_ttl)%Z →
       VectorRepo.store_calls
         (find (VectorRepo.final (find st amb1 query1 limit1 filters1))
            amb2 query2 limit2 filters2) = [])
  ∧ (∀ st amb query limit filters t,
       VectorRepo.status_filter_of filters = "resolved" →
       VectorRepo._cache_timestamp st = Some t →
       (VectorRepo._cache_ttl ≤ VectorRepo.now_check amb - t)%Z →
       VectorRepo.store_calls (find st amb query limit filters)
       = [Spec.resolved_call])
  ∧ (∀ st i e m amb query limit filters,
       VectorRepo.status_filter_of filters = "resolved" →
       VectorRepo.store_calls
         (find (VectorRepo.final (VectorRepo.add_embedding st i e m))
            amb query limit filters) = [Spec.resolved_call])
  ∧ (∀ st i amb query limit filters,
       VectorRepo.status_filter_of filters = "resolved" →
       VectorRepo.store_calls
         (find (VectorRepo.final (VectorRepo.remove_embedding st i))
            amb query limit filters) = [Spec.resolved_call]).
Proof.
  intros find. subst find. split_and!.
  - intros st amb query limit filters cache t Hf Hc Ht Hlt.
    unfold VectorRepo.find_similar. rewrite Hf, get_candidates_resolved.
    by rewrite (get_resolved_fresh st amb cache t Hc Ht Hlt).
  - intros st amb1 amb2 query1 query2 limit1 limit2 filters1 filters2 listed
      Hf1 Hf2 Hcalls Hlisted Hlt.
    rewrite find_similar_calls, find_similar_final, Hf1, Hf2,
      !get_candidates_resolved.
    rewrite find_similar_calls, Hf1, get_candidates_resolved in Hcalls.
    destruct (VectorRepo.cache_is_fresh st (VectorRepo.now_check amb1)) eqn:E.
    + unfold VectorRepo.cache_is_fresh in E.
      unfold VectorRepo._get_resolved_incidents in Hcalls.
      destruct (VectorRepo._resolved_incidents_cache st),
               (VectorRepo._cache_timestamp st); try done.
      by rewrite E in Hcalls.
    + rewrite (get_resolved_stale st amb1 E).
      rewrite (fetch_resolved_captures st amb1 listed Hlisted). simpl.
      by erewrite get_resolved_fresh.
  - intros st amb query limit filters t Hf Ht Hge.
    rewrite find_similar_calls, Hf, get_candidates_resolved.
    rewrite get_resolved_stale; [apply fetch_resolved_calls|].
    unfold VectorRepo.cache_is_fresh. rewrite Ht.
    destruct (VectorRepo._resolved_incidents_cache st); [|done].
    apply Z.ltb_ge. exact Hge.
  - intros st i e m amb query limit filters Hf.
    rewrite find_similar_calls, Hf, get_candidates_resolved.
    rewrite get_resolved_stale; [apply fetch_resolved_calls|done].
  - intros st i amb query limit filters Hf.
    rewrite find_similar_calls, Hf, get_candidates_resolved.
    rewrite get_resolved_stale; [apply fetch_resolved_calls|done].
Qed.

Lemma candidate_cache_rebuild_policy_witness :
  let world n :=
    Scenario.at_minute n [Scenario.incA; Scenario.incB; Scenario.incC] in
  let find st n :=
    VectorRepo.find_similar Scenario.dot Numpy.insertion_argsort st (world n)
      Scenario.u34 5 (Some {[ "status" := "resolved" ]}) in
  VectorRepo.store_calls (find Scenario.index_abc 0%Z) = [Spec.resolved_call]
  ∧ VectorRepo.store_calls
      (find (VectorRepo.final (find Scenario.index_abc 0%Z)) 4%Z) = []
  ∧ VectorRepo.store_calls
      (find (VectorRepo.final (find Scenario.index_abc 0%Z)) 5%Z)
    = [Spec.resolved_call].
Proof.
  intros world find.
  destruct (candidate_cache_rebuild_policy Scenario.dot Numpy.insertion_argsort)
    as (_ & Htwo & Hstale & Hadd & _).
  split_and!.
  - apply Hadd. reflexivity.
  - apply (Htwo _ _ _ _ _ _ _ _ _
             [Scenario.incA; Scenario.incB; Scenario.incC]);
      [reflexivity|reflexivity|apply Hadd; reflexivity
      |vm_compute; reflexivity|vm_compute; reflexivity].
  - apply (Hstale _ _ _ _ _ (Scenario.minutes 0));
      [reflexivity|vm_compute; reflexivity|vm_compute; discriminate].
Defined.

(** C3 as worded fails: the list is captured at minute 0; the calls at
    minutes 4 and 6 are two minutes apart with no [add_embedding] or
    [remove_embedding] between them, and the call at minute 6 fetches the
    list again. *)
Lemma cache_refetched_two_minutes_after_a_call :
  let world n :=
    Scenario.at_minute n [Scenario.incA; Scenario.incB; Scenario.incC] in
  let find st n :=
    VectorRepo.find_similar Scenario.dot Numpy.insertion_argsort st (world n)
      Scenario.u34 5 (Some {[ "status" := "resolved" ]}) in
  let call0 := find Scenario.index_abc 0%Z in
  let call4 := find (VectorRepo.final call0) 4%Z in
  let call6 := find (VectorRepo.final call4) 6%Z in
  (VectorRepo.now_check (world 6) - VectorRepo.now_capture (world 4)
   < VectorRepo._cache_ttl)%Z
  ∧ VectorRepo.store_calls call0 = [Spec.resolved_call]
  ∧ VectorRepo.store_calls call4 = []
  ∧ VectorRepo.store_calls call6 = [Spec.resolved_call]
  ∧ VectorRepo.store_calls call6 ≠ [].
Proof. vm_compute. by split_and!. Qed.

(** C10.  [remove_embedding] with an identifier that has no stored
    embedding returns normally and leaves the embedding map and the
    metadata map as they were, yet it drops the cached candidate list: the
    next [find_similar] with the resolved filter asks the Incident Store
    again and caches what the store lists. *)
Theorem remove_absent_embedding_invalidates_cache
    (cosine : embedding → embedding → score) (argsort : list score → list nat)
    (st : VectorRepo.state) (incident_id : string) :
  VectorRepo.reachable st →
  VectorRepo._embeddings st !! incident_id = None →
  let removed := VectorRepo.remove_embedding st incident_id in
  VectorRepo.value removed = Ok tt
  ∧ VectorRepo._embeddings (VectorRepo.final removed) = VectorRepo._embeddings st
  ∧ VectorRepo._metadata (VectorRepo.final removed) = VectorRepo._metadata st
  ∧ VectorRepo._resolved_incidents_cache (VectorRepo.final removed) = None
  ∧ ∀ amb query limit filters,
      VectorRepo.status_filter_of filters = "resolved" →
      let next :=
        VectorRepo.find_similar cosine argsort (VectorRepo.final removed)
          amb query limit filters in
      VectorRepo.store_calls next = [Spec.resolved_call]
      ∧ ∀ listed,
          VectorRepo.list_all amb 10000%Z "resolved" = Ok listed →
          VectorRepo._resolved_incidents_cache (VectorRepo.final next)
          = Some (filter (λ inc, VectorRepo.has_embedding st inc) listed).
Proof.
  intros Hreach Habsent removed.
  assert (Hmeta : VectorRepo._metadata st !! incident_id = None).
  { apply not_elem_of_dom. rewrite <- (reachable_same_keys st Hreach).
    by apply not_elem_of_dom. }
  assert (Hemb : VectorRepo._embeddings (VectorRepo.final removed)
                 = VectorRepo._embeddings st).
  { simpl. by apply delete_id. }
  split_and!; [done|exact Hemb|simpl; by apply delete_id|done|].
  intros amb query limit filters Hf next. subst next.
  rewrite find_similar_calls, find_similar_final, Hf, get_candidates_resolved.
  rewrite get_resolved_stale by done.
  split; [apply fetch_resolved_calls|].
  intros listed Hlisted.
  rewrite (fetch_resolved_captures _ amb listed Hlisted). simpl.
  f_equal. unfold VectorRepo.has_embedding. simpl.
  by rewrite (delete_id _ _ Habsent).
Qed.

Lemma remove_absent_embedding_invalidates_cache_witness :
  let st :=
    VectorRepo.final
      (VectorRepo.find_similar Scenario.dot Numpy.insertion_argsort
         Scenario.index_abc
         (Scenario.at_minute 0 [Scenario.incA; Scenario.incB; Scenario.incC])
         Scenario.u34 5 None) in
  let removed := VectorRepo.remove_embedding st "inc-z" in
  VectorRepo._resolved_incidents_cache st
  = Some [Scenario.incA; Scenario.incB; Scenario.incC]
  ∧ VectorRepo.value removed = Ok tt
  ∧ VectorRepo._embeddings (VectorRepo.final removed) = VectorRepo._embeddings st
  ∧ VectorRepo._metadata (VectorRepo.final removed) = VectorRepo._metadata st
  ∧ VectorRepo._resolved_incidents_cache (VectorRepo.final removed) = None
  ∧ ∀ amb query limit filters,
      VectorRepo.status_filter_of filters = "resolved" →
      let next :=
        VectorRepo.find_similar Scenario.dot Numpy.insertion_argsort
          (VectorRepo.final removed) amb query limit filters in
      VectorRepo.store_calls next = [Spec.resolved_call]
      ∧ ∀ listed,
          VectorRepo.list_all amb 10000%Z "resolved" = Ok listed →
          VectorRepo._resolved_incidents_cache (VectorRepo.final next)
          = Some (filter (λ inc, VectorRepo.has_embedding st inc) listed).
Proof.
  intros st removed. split; [vm_compute; reflexivity|].
  apply (remove_absent_embedding_invalidates_cache Scenario.dot
           Numpy.insertion_argsort st "inc-z").
  - subst st. rewrite find_similar_final. apply VectorRepo.reach_get_resolved.
    unfold Scenario.index_abc. repeat apply VectorRepo.reach_add.
    apply VectorRepo.reach_init.
  - vm_compute. reflexivity.
Defined.

(* ===================================================================== *)
(** * The weighted vote *)
(* ===================================================================== *)

Section VoteFacts.

Import Rag.

Context {K : Type} `{EqDecision K}.
Variable key : IncidentResponse → K.

Lemma dict_get_set (d : dict K) k x v :
  dict_get (dict_set d k x) v = if decide (k = v) then x else dict_get d v.
Proof.
  induction d as [|[k' y] d IH]; simpl.
  - by destruct (decide (k = v)).
  - destruct (decide (k' = k)) as [->|Hne]; simpl.
    + by destruct (decide (k = v)).
    + destruct (decide (k' = v)) as [->|Hne'].
      * by destruct (decide (k = v)); [congruence|].
      * exact IH.
Qed.

Lemma dict_set_keys (d : dict K) k x :
  (dict_set d k x).*1 = if decide (k ∈ d.*1) then d.*1 else d.*1 ++ [k].
Proof.
  induction d as [|[k' y] d IH].
  - rewrite decide_False; [done|]. intros Hin. by apply elem_of_nil in Hin.
  - cbn [dict_set]. rewrite (fmap_cons fst (k', y) d). cbn [fst].
    destruct (decide (k' = k)) as [->|Hne].
    + rewrite decide_True by left. done.
    + rewrite fmap_cons, IH. cbn [fst].
      destruct (decide (k ∈ d.*1)) as [Hin|Hnin].
      * rewrite decide_True by (by right). done.
      * rewrite decide_False; [done|].
        intros [->|Hin]%elem_of_cons; done.
Qed.

Lemma dict_get_lookup (d : dict K) k x :
  NoDup d.*1 → (k, x) ∈ d → dict_get d k = x.
Proof.
  induction d as [|[k' y] d IH]; simpl; intros Hnd Hin.
  - by apply elem_of_nil in Hin.
  - apply NoDup_cons in Hnd as [Hk' Hnd].
    apply elem_of_cons in Hin as [[= -> ->]|Hin].
    + by destruct (decide (k' = k')).
    + destruct (decide (k' = k)) as [->|Hne]; [|by apply IH].
      exfalso. apply Hk'. apply list_elem_of_fmap. by exists (k, x).
Qed.

Lemma tally_by_snoc similar n (d : dict K) :
  tally_by key (similar ++ [n]) d
  = dict_add (tally_by key similar d) (key n.1) n.2.
Proof. unfold tally_by. by rewrite fold_left_app. Qed.

Lemma weight_of_snoc similar n v :
  Spec.weight_of key (similar ++ [n]) v
  = if decide (key n.1 = v)
    then PyFloat.add (Spec.weight_of key similar v) n.2
    else Spec.weight_of key similar v.
Proof.
  unfold Spec.weight_of. rewrite filter_app, fmap_app, fold_left_app.
  rewrite filter_cons, filter_nil.
  by destruct (decide (key n.1 = v)).
Qed.

Lemma carried_snoc similar n v :
  Spec.carried key (similar ++ [n]) v
  ↔ Spec.carried key similar v ∨ key n.1 = v.
Proof.
  unfold Spec.carried. split.
  - intros (m & Hm & Hv). apply elem_of_app in Hm as [Hm|Hm]; [left; eauto|].
    apply list_elem_of_singleton in Hm as ->. by right.
  - intros [(m & Hm & Hv)|Hv].
    + exists m. split; [|done]. apply elem_of_app. by left.
    + exists n. split; [|done]. apply elem_of_app. right. left.
Qed.

Lemma encountered_first_snoc similar n v v' :
  Spec.encountered_first key similar v v' →
  Spec.encountered_first key (similar ++ [n]) v v'.
Proof.
  intros (pre & m & post & -> & Hv & Hpre).
  exists pre, m, (post ++ [n]). by rewrite <- app_assoc.
Qed.

Lemma tally_by_invariant similar :
  Spec.tally_invariant key similar (tally_by key similar []).
Proof.
  induction similar as [|n similar IH] using rev_ind.
  - split_and!; simpl.
    + constructor.
    + intros v. split; [intros Hv; by apply elem_of_nil in Hv|].
      intros (m & Hm & _). by apply elem_of_nil in Hm.
    + intros v. reflexivity.
    + intros A v B v' HA. by destruct A.
  - destruct IH as (Hnd & Hkeys & Hget & Hord).
    rewrite tally_by_snoc. set (d := tally_by key similar []) in *.
    unfold dict_add. split_and!.
    + rewrite dict_set_keys. destruct (decide (key n.1 ∈ d.*1)); [done|].
      apply NoDup_app. split_and!; [done| |apply NoDup_singleton].
      intros x Hx Hx'. by apply list_elem_of_singleton in Hx' as ->.
    + intros v. rewrite dict_set_keys, carried_snoc, <- Hkeys.
      destruct (decide (key n.1 ∈ d.*1)) as [Hin|Hnin].
      * split; [by left|]. by intros [?| <-].
      * rewrite elem_of_app, list_elem_of_singleton.
        split; (intros [?|?]; [by left | by right]).
    + intros v. rewrite dict_get_set, weight_of_snoc.
      destruct (decide (key n.1 = v)) as [->|Hne]; by rewrite Hget.
    + intros A v B v' HA Hv'. rewrite dict_set_keys in HA.
      destruct (decide (key n.1 ∈ d.*1)) as [Hin|Hnin].
      * apply encountered_first_snoc. by eapply Hord.
      * destruct B as [|b B _] using rev_ind.
        -- apply app_inj_tail in HA as [HA <-].
           apply list_elem_of_singleton in Hv' as ->.
           exists similar, n, []. split_and!; [done..|].
           intros m Hm Hkm. apply Hnin, Hkeys. by exists m.
        -- rewrite app_comm_cons, app_assoc in HA.
           apply app_inj_tail in HA as [HA <-].
           rewrite app_comm_cons in Hv'.
           apply elem_of_app in Hv' as [Hv'|Hv'].
           ++ apply encountered_first_snoc. by eapply Hord.
           ++ apply list_elem_of_singleton in Hv' as ->.
              assert (Hv : Spec.carried key similar v).
              { apply Hkeys. rewrite HA. apply elem_of_app. right. left. }
              assert (Hself : Spec.encountered_first key similar v v).
              { eapply Hord; [exact HA|left]. }
              destruct Hself as (pre & m & post & -> & Hm & Hpre).
              exists pre, m, (post ++ [n]). rewrite <- app_assoc.
              split_and!; [done..|].
              intros m' Hm' Hkm'. apply Hnin, Hkeys. exists m'.
              split; [|done]. apply elem_of_app. by left.
Qed.

(** [max] keeps the first of the largest items. *)
Lemma max_from_spec (best : K * Q) items m :
  max_from best items = m →
  ∃ pre post,
    best :: items = pre ++ m :: post
    ∧ Forall (λ x, (x.2 < m.2)%Q) pre
    ∧ Forall (λ x, (x.2 <= m.2)%Q) post.
Proof.
  revert best. induction items as [|x items IH]; intros best Hm; simpl in Hm.
  - subst m. exists [], []. by split_and!.
  - destruct (Qle_bool x.2 best.2) eqn:E; simpl in Hm.
    + apply Qle_bool_iff in E.
      destruct (IH best Hm) as (pre & post & Heq & Hpre & Hpost).
      destruct pre as [|p pre]; simpl in Heq; injection Heq as Hb Hitems.
      * subst best items. exists [], (x :: post).
        split_and!; [done|done|by constructor].
      * subst p items. exists (best :: x :: pre), post.
        apply Forall_cons in Hpre as [Hb Hpre].
        split_and!; [done| |done].
        constructor; [done|]. constructor; [|done].
        eapply Qle_lt_trans; eauto.
    + assert (Hlt : (best.2 < x.2)%Q).
      { apply Qnot_le_lt. intros Hle. apply Qle_bool_iff in Hle. congruence. }
      destruct (IH x Hm) as (pre & post & Heq & Hpre & Hpost).
      exists (best :: pre), post. rewrite Heq. split_and!; [done| |done].
      constructor; [|done].
      destruct pre as [|p pre]; simpl in Heq; injection Heq as Hx _.
      * by subst x.
      * subst p. apply Forall_cons in Hpre as [Hp _].
        eapply Qlt_trans; eauto.
Qed.

Lemma py_max_winner similar n :
  ∃ m, py_max (tally_by key (similar ++ [n]) []) = Ok m
       ∧ Spec.weighted_winner key (similar ++ [n]) m.1.
Proof.
  destruct (tally_by_invariant (similar ++ [n])) as (Hnd & Hkeys & Hget & Hord).
  destruct (tally_by key (similar ++ [n]) []) as [|best items] eqn:Ed.
  { exfalso. assert (Hc : Spec.carried key (similar ++ [n]) (key n.1)).
    { apply carried_snoc. by right. }
    apply Hkeys in Hc. by apply elem_of_nil in Hc. }
  simpl. eexists. split; [done|].
  destruct (max_from_spec best items _ eq_refl)
    as (pre & post & Heq & Hpre & Hpost).
  set (m := max_from best items) in *. rewrite Heq in *.
  assert (Hm : dict_get (pre ++ m :: post) m.1 = m.2).
  { apply dict_get_lookup; [done|]. apply elem_of_app. right.
    destruct m. left. }
  split.
  - apply Hkeys. rewrite fmap_app. apply elem_of_app. right. left.
  - intros v' Hv'. apply Hkeys in Hv'.
    apply list_elem_of_fmap in Hv' as ([k y] & -> & Hin). simpl.
    assert (Hy : dict_get (pre ++ m :: post) k = y)
      by by apply dict_get_lookup.
    rewrite <- !Hget, Hy, Hm.
    apply elem_of_app in Hin as [Hin|Hin].
    + eapply Forall_forall in Hpre; [|exact Hin]. simpl in Hpre. split.
      * by apply Qlt_le_weak.
      * intros Heq'. rewrite Heq' in Hpre. by apply Qlt_irrefl in Hpre.
    + split.
      * apply elem_of_cons in Hin as [<-|Hin]; [apply Qle_refl|].
        eapply Forall_forall in Hpost; [|exact Hin]. done.
      * intros _. eapply (Hord (pre.*1) m.1 (post.*1) k).
        -- by rewrite fmap_app.
        -- change (m.1 :: post.*1) with ((m :: post).*1).
           apply list_elem_of_fmap. by exists (k, y).
Qed.

End VoteFacts.

(* ===================================================================== *)
(** * Routing and orchestration *)
(* ===================================================================== *)

Section ServiceFacts.

Import Rag.

Context {W : Type}.
Variable sv : Services W.

Lemma tally_split similar (ds : dict Severity) (dc : dict Category) :
  tally similar ds dc
  = (tally_by severity similar ds, tally_by category similar dc).
Proof.
  revert ds dc. induction similar as [|[inc weight] similar IH];
    intros ds dc; simpl; [done|].
  by rewrite IH.
Qed.

(** The vote never raises on a non-empty list, and elects the weighted
    winners. *)
Lemma classify_by_majority_vote_winner similar rule_result :
  similar ≠ [] →
  ∃ s c,
    _classify_by_majority_vote similar rule_result = Ok (s, c)
    ∧ Spec.weighted_winner severity similar s
    ∧ Spec.weighted_winner category similar c.
Proof.
  intros Hne. destruct similar as [|n similar _] using rev_ind; [done|].
  unfold _classify_by_majority_vote. rewrite tally_split.
  destruct (py_max_winner severity similar n) as (ms & Hs & Hws).
  destruct (py_max_winner category similar n) as (mc & Hc & Hwc).
  rewrite Hs, Hc. exists ms.1, mc.1.
  by destruct (similar ++ [n]) eqn:E; [destruct similar|].
Qed.

(** The trial lookup of [_should_use_rag], with its [try]. *)
Lemma trial_lookup_total incident w :
  ∃ b w',
    try_except
      (bind (generate_incident_embedding sv (ic_title incident)
               (ic_description incident))
         (λ q, bind (vector_repo_find_similar sv q 1%Z resolved_filter)
                 (λ similar, ret (0 <? length similar))))
      (λ _, ret false) w = (Ok b, w')
    ∧ (b = true ↔ Spec.trial_finds_neighbor sv incident w).
Proof.
  unfold try_except, bind, ret, Spec.trial_finds_neighbor.
  destruct (generate_incident_embedding sv _ _ w) as [[q|e] w1] eqn:Eg.
  - destruct (vector_repo_find_similar sv q 1%Z resolved_filter w1)
      as [[similar|e] w2] eqn:Ef.
    + eexists _, _. split; [done|]. split.
      * intros Hb. exists q, w1, similar, w2. split_and!; [done..|].
        intros ->. simpl in Hb. done.
      * intros (q' & w1' & similar' & w2' & [= <- <-] & Hf & Hne).
        rewrite Ef in Hf. injection Hf as <- <-.
        destruct similar; [done|]. reflexivity.
    + eexists _, _. split; [done|]. split; [done|].
      intros (q' & w1' & similar' & w2' & [= <- <-] & Hf & _).
      rewrite Ef in Hf. discriminate Hf.
  - eexists _, _. split; [done|]. split; [done|].
    intros (q' & w1' & similar' & w2' & [=] & _).
Qed.

(** The routing decision always comes back with a boolean. *)
Lemma should_use_rag_returns incident rule_result w :
  ∃ b w', _should_use_rag sv incident rule_result w = (Ok b, w').
Proof.
  unfold _should_use_rag.
  destruct (rag_force_all sv); [by eexists _, _|].
  destruct (bool_decide (rule_category rule_result = UNKNOWN));
    [by eexists _, _|].
  destruct (Str.len (ic_description incident) <? 50); [by eexists _, _|].
  destruct (trial_lookup_total incident w) as (b & w' & Hrun & _).
  by exists b, w'.
Qed.

End ServiceFacts.

(** C4.  [_should_use_rag] always returns a boolean and never raises.
    The rules apply in order: the force-all flag, an Unknown rule category
    and a description shorter than 50 characters each give [true] without
    any call to the embedding provider or the index; otherwise the answer
    is [true] exactly when the trial lookup (embed the incident, query the
    index with limit 1 over resolved incidents) succeeds and returns at
    least one neighbor, so an exception from the embedding or from the
    lookup gives [false]. *)
Theorem should_use_rag_decision {W : Type} (sv : Rag.Services W)
    (incident : IncidentCreate) (rule_result : Rag.RuleResult) (w : W) :
  ∃ b w',
    Rag._should_use_rag sv incident rule_result w = (Ok b, w')
    ∧ (b = true ↔ Spec.early_rule sv incident rule_result
                  ∨ Spec.trial_finds_neighbor sv incident w)
    ∧ (Spec.early_rule sv incident rule_result → w' = w)
    ∧ (∀ e w1,
         ¬ Spec.early_rule sv incident rule_result →
         Rag.generate_incident_embedding sv (ic_title incident)
           (ic_description incident) w = (Raise e, w1) →
         b = false)
    ∧ (∀ q w1 e w2,
         ¬ Spec.early_rule sv incident rule_result →
         Rag.generate_incident_embedding sv (ic_title incident)
           (ic_description incident) w = (Ok q, w1) →
         Rag.vector_repo_find_similar sv q 1%Z Rag.resolved_filter w1
         = (Raise e, w2) →
         b = false).
Proof.
  unfold Rag._should_use_rag, Spec.early_rule.
  destruct (Rag.rag_force_all sv) eqn:Ef.
  { exists true, w. split_and!; [done| | |intros e w1 Hn; exfalso; apply Hn; by left
                               |intros q w1 e w2 Hn; exfalso; apply Hn; by left].
    - split; [intros _; left; by left|done].
    - done. }
  destruct (bool_decide (Rag.rule_category rule_result = UNKNOWN)) eqn:Ec.
  { apply bool_decide_eq_true in Ec. exists true, w.
    split_and!; [done| |done| |].
    - split; [intros _; left; right; by left|done].
    - intros e w1 Hn. exfalso. apply Hn. right. by left.
    - intros q w1 e w2 Hn. exfalso. apply Hn. right. by left. }
  apply bool_decide_eq_false in Ec.
  destruct (Str.len (ic_description incident) <? 50) eqn:El.
  { apply Nat.ltb_lt in El. exists true, w.
    split_and!; [done| |done| |].
    - split; [intros _; left; right; by right|done].
    - intros e w1 Hn. exfalso. apply Hn. right. by right.
    - intros q w1 e w2 Hn. exfalso. apply Hn. right. by right. }
  apply Nat.ltb_ge in El.
  assert (Hearly : ¬ (false = true ∨ Rag.rule_category rule_result = UNKNOWN
                      ∨ Str.len (ic_description incident) < 50)).
  { intros [?|[?|?]]; [done|done|lia]. }
  destruct (trial_lookup_total sv incident w) as (b & w' & Hrun & Hb).
  exists b, w'. split_and!; [exact Hrun| |done| |].
  - rewrite Hb. split; [by right|]. by intros [?|?].
  - intros e w1 _ Hg. destruct b; [|done].
    destruct Hb as [Hb _]. destruct (Hb eq_refl) as (q & w1' & s & w2 & Hg' & _).
    rewrite Hg in Hg'. discriminate Hg'.
  - intros q w1 e w2 _ Hg Hfind. destruct b; [|done].
    destruct Hb as [Hb _].
    destruct (Hb eq_refl) as (q' & w1' & s & w2' & Hg' & Hf' & _).
    rewrite Hg in Hg'. injection Hg' as <- <-.
    rewrite Hfind in Hf'. discriminate Hf'.
Qed.

Lemma should_use_rag_decision_witness :
  (∃ w',
     Rag._should_use_rag
       (Scenario.services (Scenario.embedding_fixed Scenario.u34)
          Scenario.first_seen_first)
       Scenario.long_incident (Rag._enrich_rule_based Scenario.long_incident)
       Scenario.index_abc = (Ok true, w'))
  ∧ (∃ w',
       Rag._should_use_rag
         (Scenario.services Scenario.embedding_unavailable
            Scenario.first_seen_first)
         Scenario.long_incident (Rag._enrich_rule_based Scenario.long_incident)
         Scenario.index_abc = (Ok false, w')).
Proof.
  assert (Hlate : ∀ embed,
    ¬ Spec.early_rule (Scenario.services embed Scenario.first_seen_first)
        Scenario.long_incident (Rag._enrich_rule_based Scenario.long_incident)).
  { intros embed [H|[H|H]]; [discriminate H|discriminate H|].
    vm_compute in H. lia. }
  split.
  - destruct (should_use_rag_decision
                (Scenario.services (Scenario.embedding_fixed Scenario.u34)
                   Scenario.first_seen_first)
                Scenario.long_incident
                (Rag._enrich_rule_based Scenario.long_incident)
                Scenario.index_abc) as (b & w' & Hrun & Hiff & _).
    exists w'. rewrite Hrun. f_equal. f_equal. apply Hiff. right.
    eexists _, _, _, _. split_and!; [reflexivity|vm_compute; reflexivity|done].
  - destruct (should_use_rag_decision
                (Scenario.services Scenario.embedding_unavailable
                   Scenario.first_seen_first)
                Scenario.long_incident
                (Rag._enrich_rule_based Scenario.long_incident)
                Scenario.index_abc) as (b & w' & Hrun & _ & _ & Hraise & _).
    exists w'. rewrite Hrun. f_equal. f_equal.
    eapply Hraise; [apply Hlate|reflexivity].
Defined.

(** Routing on concrete incidents: a short description escalates with no
    call at all; a long description with a known category does not
    escalate when the embedding provider is unavailable, and escalates
    when the trial lookup finds a neighbor. *)
Example should_use_rag_short :
  Rag._should_use_rag
    (Scenario.services Scenario.embedding_unavailable Scenario.first_seen_first)
    Scenario.short_incident (Rag._enrich_rule_based Scenario.short_incident)
    Scenario.index_abc
  = (Ok true, Scenario.index_abc).
Proof. vm_compute. reflexivity. Qed.

Example should_use_rag_provider_down :
  (Rag._should_use_rag
     (Scenario.services Scenario.embedding_unavailable Scenario.first_seen_first)
     Scenario.long_incident (Rag._enrich_rule_based Scenario.long_incident)
     Scenario.index_abc).1
  = Ok false.
Proof. vm_compute. reflexivity. Qed.

Example should_use_rag_neighbor_found :
  (Rag._should_use_rag
     (Scenario.services (Scenario.embedding_fixed Scenario.u34)
        Scenario.first_seen_first)
     Scenario.long_incident (Rag._enrich_rule_based Scenario.long_incident)
     Scenario.index_abc).1
  = Ok true.
Proof. vm_compute. reflexivity. Qed.

(** C1.  [enrich_incident] returns a complete result for every incident
    and every behaviour of its collaborators, and never raises.  When the
    routing decision escalates and the retrieval-augmented path raises,
    the result is the rule-based severity, category, summary and suggested
    action, tagged ['rule_based_fallback'], with no similar incidents. *)
Theorem enrich_incident_never_raises {W : Type} (sv : Rag.Services W)
    (incident : IncidentCreate) (w : W) :
  ∃ r w',
    Rag.enrich_incident sv incident w = (Ok r, w')
    ∧ ∀ w1 e w2,
        Rag._should_use_rag sv incident (Rag._enrich_rule_based incident) w
        = (Ok true, w1) →
        Rag._enrich_with_rag sv incident (Rag._enrich_rule_based incident) w1
        = (Raise e, w2) →
        w' = w2
        ∧ r = {| Rag.res_severity := Rules.determine_severity incident;
                 Rag.res_category := Rules.determine_category incident;
                 Rag.res_summary := Rules.generate_summary incident;
                 Rag.res_suggested_action :=
                   Rules.suggest_action incident
                     (Rules.determine_category incident)
                     (Rules.determine_severity incident);
                 Rag.enrichment_method := "rule_based_fallback";
                 Rag.similar_incidents := [] |}.
Proof.
  destruct (should_use_rag_returns sv incident
              (Rag._enrich_rule_based incident) w) as (b & w1 & Hroute).
  unfold Rag.enrich_incident, Rag.bind. rewrite Hroute.
  destruct b; simpl.
  - unfold Rag.try_except.
    destruct (Rag._enrich_with_rag sv incident
                (Rag._enrich_rule_based incident) w1) as [[r|e] w2] eqn:Erag.
    + exists r, w2. split; [done|].
      intros w1' e w2' [= <-] Hraise. rewrite Erag in Hraise. discriminate Hraise.
    + eexists _, w2. split; [reflexivity|].
      intros w1' e' w2' [= <-] Hraise. rewrite Erag in Hraise.
      injection Hraise as _ <-. done.
  - eexists _, w1. split; [reflexivity|]. intros w1' e w2 [=].
Qed.

Lemma enrich_incident_never_raises_witness :
  ∃ w',
    Rag.enrich_incident
      (Scenario.services Scenario.embedding_unavailable Scenario.first_seen_first)
      Scenario.short_incident Scenario.index_abc
    = (Ok {| Rag.res_severity := P3;
             Rag.res_category := UNKNOWN;
             Rag.res_summary := "Short Issue: Problem";
             Rag.res_suggested_action :=
               "Review incident details and assign to appropriate team.";
             Rag.enrichment_method := "rule_based_fallback";
             Rag.similar_incidents := [] |}, w').
Proof.
  destruct (enrich_incident_never_raises
              (Scenario.services Scenario.embedding_unavailable
                 Scenario.first_seen_first)
              Scenario.short_incident Scenario.index_abc)
    as (r & w' & Hrun & Hfallback).
  exists w'. rewrite Hrun.
  destruct (Hfallback Scenario.index_abc
              (RuntimeError "OpenAI client not initialized. Check OPENAI_API_KEY.")
              Scenario.index_abc) as [_ ->];
    [vm_compute; reflexivity..|].
  vm_compute. reflexivity.
Defined.

(** The fallback on a concrete incident: the description is short, so the
    routing escalates; the embedding provider is unavailable, so the
    retrieval-augmented path raises. *)
Example enrich_incident_fallback :
  (Rag.enrich_incident
     (Scenario.services Scenario.embedding_unavailable Scenario.first_seen_first)
     Scenario.short_incident Scenario.index_abc).1
  = Ok {| Rag.res_severity := P3;
          Rag.res_category := UNKNOWN;
          Rag.res_summary := "Short Issue: Problem";
          Rag.res_suggested_action :=
            "Review incident details and assign to appropriate team.";
          Rag.enrichment_method := "rule_based_fallback";
          Rag.similar_incidents := [] |}.
Proof. vm_compute. reflexivity. Qed.

Section RefineFacts.

Import Rag.

Context {W : Type}.
Variable sv : Services W.

Lemma most_common_action_ok actions :
  set_iteration (set_iter sv) → actions ≠ [] →
  ∃ a, most_common_action sv actions = Ok a.
Proof.
  intros Hset Hne. unfold most_common_action.
  destruct (set_iter sv actions) as [|x rest] eqn:E; simpl; [|eauto].
  destruct actions as [|a actions]; [done|].
  destruct (Hset (a :: actions)) as [_ Hin].
  assert (Ha : a ∈ set_iter sv (a :: actions)) by (apply Hin; left).
  rewrite E in Ha. by apply elem_of_nil in Ha.
Qed.

Lemma generate_action_ok severity category similar fallback :
  set_iteration (set_iter sv) →
  ∃ a, _generate_action_from_similar sv severity category similar fallback
       = Ok a.
Proof.
  intros Hset. unfold _generate_action_from_similar.
  destruct similar; [eauto|].
  destruct (actions_of _) as [|a actions] eqn:E; [eauto|].
  destruct (most_common_action_ok (a :: actions) Hset) as [mc ->]; [done|].
  eauto.
Qed.

End RefineFacts.

(** C5.  With no language-model client configured and a non-empty
    neighbor list, the vote returns, for the severity and for the
    category, the value whose accumulated weight (the sum of the scores
    of the neighbors carrying it, added as floats in the order of the
    list, as the loop does) is the largest, and among values of equal
    weight the one first encountered in the neighbor list; these are the
    severity and category of the result of the retrieval-augmented
    path. *)
Theorem majority_vote_weighted_winner {W : Type} (sv : Rag.Services W)
    (incident : IncidentCreate) (rule_result : Rag.RuleResult)
    (w w1 w2 : W) (q : embedding)
    (similar : list (IncidentResponse * score)) :
  Rag.llm_client sv = None →
  Rag.set_iteration (Rag.set_iter sv) →
  Rag.generate_incident_embedding sv (ic_title incident)
    (ic_description incident) w = (Ok q, w1) →
  Rag.vector_repo_find_similar sv q (Rag.rag_max_similar_incidents sv)
    Rag.resolved_filter w1 = (Ok similar, w2) →
  similar ≠ [] →
  ∃ s c r,
    Rag._classify_by_majority_vote similar rule_result = Ok (s, c)
    ∧ Spec.weighted_winner severity similar s
    ∧ Spec.weighted_winner category similar c
    ∧ Rag._enrich_with_rag sv incident rule_result w = (Ok r, w2)
    ∧ Rag.res_severity r = s
    ∧ Rag.res_category r = c
    ∧ Rag.enrichment_method r = "rag".
Proof.
  intros Hllm Hset Hg Hf Hne.
  destruct similar as [|n similar]; [done|].
  destruct (classify_by_majority_vote_winner _ rule_result Hne)
    as (s & c & Hvote & Hs & Hc).
  destruct (generate_action_ok sv s c (n :: similar)
              (Rag.rule_suggested_action rule_result) Hset) as [a Ha].
  exists s, c. eexists. split_and!; [done..| | | |].
  - unfold Rag._enrich_with_rag, Rag.bind. rewrite Hg, Hf.
    rewrite Hllm. unfold Rag.lift. rewrite Hvote.
    cbv beta iota zeta. cbn [fst snd]. rewrite Ha. reflexivity.
  - done.
  - done.
  - done.
Qed.

Lemma majority_vote_weighted_winner_witness :
  ∃ s c r,
    Rag._classify_by_majority_vote Scenario.close_vote
      (Rag._enrich_rule_based Scenario.long_incident) = Ok (s, c)
    ∧ Spec.weighted_winner severity Scenario.close_vote s
    ∧ Spec.weighted_winner category Scenario.close_vote c
    ∧ Rag._enrich_with_rag (Scenario.services_over Scenario.close_vote)
        Scenario.long_incident (Rag._enrich_rule_based Scenario.long_incident)
        Scenario.index_abc
      = (Ok r, Scenario.index_abc)
    ∧ Rag.res_severity r = s
    ∧ Rag.res_category r = c
    ∧ Rag.enrichment_method r = "rag".
Proof.
  apply (majority_vote_weighted_winner
           (Scenario.services_over Scenario.close_vote)
           Scenario.long_incident (Rag._enrich_rule_based Scenario.long_incident)
           Scenario.index_abc Scenario.index_abc Scenario.index_abc
           Scenario.u34 Scenario.close_vote).
  - reflexivity.
  - intros l. split; [apply NoDup_remove_dups | apply elem_of_remove_dups].
  - reflexivity.
  - reflexivity.
  - discriminate.
Defined.

(** Floats as Python has them: 0.1 + 0.2 is not 0.3, a float is its own
    rounding, and [round(x, 3)] looks at the exact value of the float
    (0.9625 lies above the half, 0.0625 on it). *)
Example pyfloat_examples :
  PyFloat.add (1 # 10) (2 # 10) = ((1351079888211149 # 4503599627370496))%Q
  ∧ PyFloat.round (3 # 10) = ((5404319552844595 # 18014398509481984))%Q
  ∧ PyFloat.round (PyFloat.round (7 # 10)) = PyFloat.round (7 # 10)
  ∧ PyFloat.add 0 (7 # 10) = PyFloat.round (7 # 10)
  ∧ PyFloat.round3 (9625 # 10000) = PyFloat.round (963 # 1000)
  ∧ PyFloat.round3 (625 # 10000) = PyFloat.round (62 # 1000).
Proof. vm_compute. repeat split. Qed.

(** The close vote is decided by the rounding of the sums: 0.9 + 0.8
    gives 1.7000000000000002, above the 1.7 of 1.0 + 0.7, so P1 and Data
    win although P2 and Integration come first in the list. *)
Example majority_vote_close :
  Rag._classify_by_majority_vote Scenario.close_vote
    (Rag._enrich_rule_based Scenario.long_incident)
  = Ok (P1, DATA_ISSUE)
  ∧ Spec.weight_of severity Scenario.close_vote P1 = ((1914029841632461 # 1125899906842624))%Q
  ∧ Spec.weight_of severity Scenario.close_vote P2 = ((7656119366529843 # 4503599627370496))%Q.
Proof. vm_compute. repeat split. Qed.

(** Two sums that are one float are a tie, decided by the order of the
    list, even where the exact sums of the four floats differ. *)
Example majority_vote_tied_in_floats :
  Rag._classify_by_majority_vote Scenario.tied_vote
    (Rag._enrich_rule_based Scenario.long_incident)
  = Ok (P2, INTEGRATION_FAILURE)
  ∧ Spec.weight_of severity Scenario.tied_vote P2
    = Spec.weight_of severity Scenario.tied_vote P1
  ∧ (PyFloat.round (98 # 100) + PyFloat.round (83 # 100)
     < PyFloat.round (91 # 100) + PyFloat.round (9 # 10))%Q.
Proof. vm_compute. repeat split. Qed.

(** The vote on the three neighbors: [incB] and [incA] weigh the same and
    [incB] comes first. *)
Example majority_vote_abc :
  Rag._classify_by_majority_vote
    [(Scenario.incB, (625 # 625)%Q); (Scenario.incA, (625 # 625)%Q);
     (Scenario.incC, (600 # 625)%Q)]
    (Rag._enrich_rule_based Scenario.long_incident)
  = Ok (P1, DATA_ISSUE).
Proof. vm_compute. reflexivity. Qed.

Section ActionFacts.

Import Rag.

Context {W : Type}.
Variable sv : Services W.

Lemma max_count_from_spec best items :
  max_count_from best items ∈ best :: items
  ∧ ∀ x, x ∈ best :: items → x.2 ≤ (max_count_from best items).2.
Proof.
  revert best. induction items as [|y items IH]; intros best; simpl.
  - split; [left|]. by intros x ->%list_elem_of_singleton.
  - destruct (best.2 <? y.2) eqn:E.
    + apply Nat.ltb_lt in E. destruct (IH y) as [Hin Hmax].
      split; [by right|]. intros x [->|Hx]%elem_of_cons; [|by apply Hmax].
      specialize (Hmax y (list_elem_of_here _ _)). lia.
    + apply Nat.ltb_ge in E. destruct (IH best) as [Hin Hmax]. split.
      * apply elem_of_cons in Hin as [->|Hin]; [left|right; by right].
      * intros x [->|[->|Hx]%elem_of_cons]%elem_of_cons.
        -- apply Hmax. left.
        -- specialize (Hmax best (list_elem_of_here _ _)). lia.
        -- apply Hmax. by right.
Qed.

(** Whatever the iteration order of the set, the action chosen is one of
    the most frequent, and the note counts all the neighbors; without
    any action the fallback is returned. *)
Lemma generate_action_most_frequent severity category similar fallback :
  set_iteration (set_iter sv) →
  similar ≠ [] →
  (actions_of similar = [] →
   _generate_action_from_similar sv severity category similar fallback
   = Ok fallback)
  ∧ (actions_of similar ≠ [] →
     ∃ a,
       a ∈ actions_of similar
       ∧ (∀ b, b ∈ actions_of similar →
               count (actions_of similar) b ≤ count (actions_of similar) a)
       ∧ _generate_action_from_similar sv severity category similar fallback
         = Ok (a +:+ " (Based on " +:+ pretty (length similar)
                 +:+ " similar resolved incidents)")).
Proof.
  intros Hset Hne. unfold _generate_action_from_similar.
  destruct similar as [|n similar]; [done|].
  set (actions := actions_of (n :: similar)). split.
  - by intros ->.
  - intros Hact. destruct actions as [|a0 actions'] eqn:Eact; [done|].
    rewrite <- Eact. unfold most_common_action.
    destruct (Hset actions) as [_ Hin].
    destruct (set_iter sv actions) as [|x rest] eqn:E.
    { exfalso. assert (Ha : a0 ∈ actions) by (rewrite Eact; left).
      apply Hin in Ha. by apply elem_of_nil in Ha. }
    rewrite fmap_cons.
    set (items := (λ a, (a, count actions a)) <$> rest).
    set (best := (x, count actions x)).
    destruct (max_count_from_spec best items) as [Hm Hmax].
    assert (Hform : ∀ p, p ∈ best :: items →
                         p.1 ∈ actions ∧ p.2 = count actions p.1).
    { intros p Hp. change (best :: items)
        with ((λ a, (a, count actions a)) <$> (x :: rest)) in Hp.
      apply list_elem_of_fmap in Hp as (a & -> & Ha). simpl.
      split; [by apply Hin|done]. }
    exists (max_count_from best items).1. split_and!.
    + by apply Hform.
    + intros b Hb. apply Hin in Hb.
      assert (Hb' : (b, count actions b) ∈ best :: items).
      { change (best :: items)
          with ((λ a, (a, count actions a)) <$> (x :: rest)).
        apply list_elem_of_fmap. by exists b. }
      apply Hmax in Hb'. simpl in Hb'.
      destruct (Hform _ Hm) as [_ <-]. done.
    + done.
Qed.

Lemma last_seen_first_set : set_iteration Scenario.last_seen_first.
Proof.
  intros l. unfold Scenario.last_seen_first. split.
  - rewrite reverse_Permutation. apply NoDup_remove_dups.
  - intros x. by rewrite elem_of_reverse, elem_of_remove_dups.
Qed.

Lemma first_seen_first_set : set_iteration Scenario.first_seen_first.
Proof.
  intros l. split; [apply NoDup_remove_dups | apply elem_of_remove_dups].
Qed.

End ActionFacts.

(** C8 at two neighbors with different suggested actions, each occurring
    once: the action chosen follows the iteration order of the set of
    actions.  With the order that lists the first-seen action first the
    result starts with the action of the first neighbor; with another
    order of the same set it starts with the action of the second
    neighbor, although the first occurrence in the neighbor list is the
    other one. *)
Theorem generate_action_tie_follows_set_order :
  let similar := [(Scenario.incB, (9 # 10)%Q); (Scenario.incA, (8 # 10)%Q)] in
  let run order :=
    Rag._generate_action_from_similar
      (Scenario.services Scenario.embedding_unavailable order)
      P1 DATA_ISSUE similar "Review incident details." in
  Rag.actions_of similar = ["Replay the batch"; "Restart the connector"]
  ∧ Rag.set_iteration Scenario.first_seen_first
  ∧ run Scenario.first_seen_first
    = Ok "Replay the batch (Based on 2 similar resolved incidents)"
  ∧ Rag.set_iteration Scenario.last_seen_first
  ∧ run Scenario.last_seen_first
    = Ok "Restart the connector (Based on 2 similar resolved incidents)".
Proof.
  intros similar run. split_and!.
  - reflexivity.
  - apply first_seen_first_set.
  - vm_compute. reflexivity.
  - apply last_seen_first_set.
  - vm_compute. reflexivity.
Qed.

(* ===================================================================== *)
(** * Further properties of the rule classifier *)
(* ===================================================================== *)

Section MoreStrFacts.

Lemma len_app s t : Str.len (s +:+ t) = Str.len s + Str.len t.
Proof.
  induction s as [|a s IH]; [done|].
  rewrite app_String. unfold Str.len in *. simpl. by rewrite IH.
Qed.

Lemma len_take n s : Str.len (Str.take n s) ≤ n.
Proof.
  revert s. induction n as [|n IH]; intros [|a s]; unfold Str.len in *;
    simpl; try lia.
  specialize (IH s). lia.
Qed.

Lemma app_assoc_str s t u : (s +:+ t) +:+ u = s +:+ t +:+ u.
Proof.
  induction s as [|a s IH]; [done|]. by rewrite !app_String, IH.
Qed.

Lemma lower_app s t : Str.lower (s +:+ t) = Str.lower s +:+ Str.lower t.
Proof.
  induction s as [|a s IH]; [done|].
  rewrite app_String. simpl. by rewrite IH, app_String.
Qed.

Lemma occurs_in_app_r k s t : Str.occurs_in k s → Str.occurs_in k (s +:+ t).
Proof.
  intros (pre & post & ->). exists pre, (post +:+ t).
  by rewrite !app_assoc_str.
Qed.

Lemma mentions_spec keywords text :
  Spec.mentions keywords text ↔ Rules.any_keyword_in keywords text = true.
Proof. unfold Spec.mentions. by rewrite any_keyword_in_spec. Qed.

Lemma mentions_app_r keywords s t :
  Spec.mentions keywords s → Spec.mentions keywords (s +:+ t).
Proof.
  intros (k & Hk & Hocc). exists k. split; [done|]. by apply occurs_in_app_r.
Qed.

End MoreStrFacts.

(** X1.  [determine_severity] answers P1 exactly when a P1 keyword occurs
    in the normalized text, P2 exactly when no P1 keyword but a P2
    keyword occurs, and P3 exactly when neither list has a keyword in the
    text: a P1 keyword always wins over a P2 keyword. *)
Theorem determine_severity_p1_dominates (incident : IncidentCreate) :
  let text := Spec.normalized_text incident in
  (Rules.determine_severity incident = P1
   ↔ Spec.mentions Rules.P1_KEYWORDS text)
  ∧ (Rules.determine_severity incident = P2
     ↔ ¬ Spec.mentions Rules.P1_KEYWORDS text
       ∧ Spec.mentions Rules.P2_KEYWORDS text)
  ∧ (Rules.determine_severity incident = P3
     ↔ ¬ Spec.mentions Rules.P1_KEYWORDS text
       ∧ ¬ Spec.mentions Rules.P2_KEYWORDS text).
Proof.
  intros text. rewrite !mentions_spec.
  unfold Rules.determine_severity.
  change (Rules._normalize_text (Rules.combined_text incident)) with text.
  destruct (Rules.any_keyword_in Rules.P1_KEYWORDS text),
           (Rules.any_keyword_in Rules.P2_KEYWORDS text);
    intuition congruence.
Qed.

(** X2.  The rule classifier ignores letter case: two incidents whose
    titles and descriptions agree once put in lower case get the same
    severity and the same category. *)
Theorem classification_ignores_case (i1 i2 : IncidentCreate) :
  Str.lower (ic_title i1) = Str.lower (ic_title i2) →
  Str.lower (ic_description i1) = Str.lower (ic_description i2) →
  Rules.determine_severity i1 = Rules.determine_severity i2
  ∧ Rules.determine_category i1 = Rules.determine_category i2.
Proof.
  intros Ht Hd.
  assert (Hn : Rules._normalize_text (Rules.combined_text i1)
               = Rules._normalize_text (Rules.combined_text i2)).
  { unfold Rules._normalize_text, Rules.combined_text.
    by rewrite !lower_app, Ht, Hd. }
  unfold Rules.determine_severity, Rules.determine_category.
  by rewrite Hn.
Qed.

Lemma classification_ignores_case_witness :
  Rules.determine_severity (Scenario.incident "SYSTEM Down" "Login API Broken")
  = Rules.determine_severity (Scenario.incident "system down" "login api broken")
  ∧ Rules.determine_category (Scenario.incident "SYSTEM Down" "Login API Broken")
    = Rules.determine_category (Scenario.incident "system down" "login api broken").
Proof.
  apply (classification_ignores_case
           (Scenario.incident "SYSTEM Down" "Login API Broken")
           (Scenario.incident "system down" "login api broken"));
    reflexivity.
Defined.

(** X3.  Text appended to the description never lowers the severity: a
    keyword found before is still found, so P1 stays P1 and P2 stays P2
    or becomes P1. *)
Theorem determine_severity_monotone (incident : IncidentCreate) (more : string) :
  Spec.urgency (Rules.determine_severity incident)
  ≤ Spec.urgency
      (Rules.determine_severity (Spec.with_more_description incident more)).
Proof.
  assert (Htext : Spec.normalized_text (Spec.with_more_description incident more)
                  = Spec.normalized_text incident +:+ Str.lower more).
  { unfold Spec.normalized_text, Spec.with_more_description. simpl.
    by rewrite <- lower_app, !app_assoc_str. }
  assert (Hkeep : ∀ keywords,
    Rules.any_keyword_in keywords (Spec.normalized_text incident) = true →
    Rules.any_keyword_in keywords
      (Spec.normalized_text incident +:+ Str.lower more) = true).
  { intros keywords H. apply mentions_spec, mentions_app_r.
    by apply mentions_spec. }
  unfold Rules.determine_severity.
  change (Rules._normalize_text
            (Rules.combined_text (Spec.with_more_description incident more)))
    with (Spec.normalized_text (Spec.with_more_description incident more)).
  change (Rules._normalize_text (Rules.combined_text incident))
    with (Spec.normalized_text incident).
  rewrite Htext.
  destruct (Rules.any_keyword_in Rules.P1_KEYWORDS
              (Spec.normalized_text incident)) eqn:E1.
  - by rewrite (Hkeep _ E1).
  - destruct (Rules.any_keyword_in Rules.P2_KEYWORDS
                (Spec.normalized_text incident)) eqn:E2.
    + rewrite (Hkeep _ E2).
      destruct (Rules.any_keyword_in Rules.P1_KEYWORDS
                  (Spec.normalized_text incident +:+ Str.lower more));
        cbn [Spec.urgency]; lia.
    + cbn [Spec.urgency]. lia.
Qed.

(** X4.  The summary begins with the title, a colon and a space, and what
    follows has at most 100 characters, whatever the length of the
    description. *)
Theorem generate_summary_bounded (incident : IncidentCreate) :
  ∃ sentence,
    Rules.generate_summary incident = ic_title incident +:+ ": " +:+ sentence
    ∧ Str.len sentence ≤ 100
    ∧ Str.len (Rules.generate_summary incident)
      ≤ Str.len (ic_title incident) + 102.
Proof.
  unfold Rules.generate_summary.
  set (fs := Str.strip (Str.split_head "." (ic_description incident))).
  destruct (100 <? Str.len fs) eqn:E.
  - exists (Str.take 97 fs +:+ "...").
    assert (Hlen : Str.len (Str.take 97 fs +:+ "...") ≤ 100).
    { rewrite len_app. pose proof (len_take 97 fs).
      change (Str.len "...") with 3. lia. }
    split_and!; [done|done|].
    rewrite !len_app. rewrite len_app in Hlen.
    change (Str.len ": ") with 2. lia.
  - apply Nat.ltb_ge in E. exists fs. split_and!; [done|done|].
    rewrite !len_app. change (Str.len ": ") with 2. lia.
Qed.

(** X5.  A P1 severity always gets the escalation message, whatever the
    category.  Below P1 the message never is the escalation message and
    tells the category: two categories never share a message. *)
Theorem suggest_action_by_severity_then_category
    (incident : IncidentCreate) (category category' : Category)
    (severity severity' : Severity) :
  Rules.suggest_action incident category P1
  = "Immediate escalation required. Contact on-call engineer."
  ∧ (severity ≠ P1 →
     Rules.suggest_action incident category severity
     ≠ "Immediate escalation required. Contact on-call engineer.")
  ∧ (severity ≠ P1 → severity' ≠ P1 →
     Rules.suggest_action incident category severity
     = Rules.suggest_action incident category' severity' →
     category = category').
Proof.
  split_and!.
  - reflexivity.
  - intros Hs. destruct severity; [done| |]; destruct category; discriminate.
  - intros Hs Hs'.
    destruct severity; [done| |]; (destruct severity'; [done| |]);
      destruct category, category'; simpl; intros H; try done;
      discriminate H.
Qed.

(* ===================================================================== *)
(** * Further properties of the similarity index *)
(* ===================================================================== *)

(** X6.  An embedding stored with [add_embedding] is what [get_embedding]
    returns afterwards, a second [add_embedding] under the same
    identifier replaces it, [remove_embedding] makes [get_embedding]
    answer [None], and neither touches the embedding of another
    identifier. *)
Theorem embedding_round_trip (st : VectorRepo.state) (i j : string)
    (e e' : embedding) (m m' : gmap string string) :
  let added := VectorRepo.final (VectorRepo.add_embedding st i e m) in
  let again := VectorRepo.final (VectorRepo.add_embedding added i e' m') in
  let removed := VectorRepo.final (VectorRepo.remove_embedding added i) in
  VectorRepo.get_embedding added i = Some e
  ∧ VectorRepo.get_embedding again i = Some e'
  ∧ VectorRepo.get_embedding removed i = None
  ∧ (i ≠ j →
     VectorRepo.get_embedding added j = VectorRepo.get_embedding st j
     ∧ VectorRepo.get_embedding removed j = VectorRepo.get_embedding st j).
Proof.
  unfold VectorRepo.get_embedding. simpl. split_and!.
  - apply lookup_insert_eq.
  - apply lookup_insert_eq.
  - apply lookup_delete_eq.
  - intros Hij. by rewrite lookup_delete_ne, !lookup_insert_ne.
Qed.

(** X7.  [get_stats] counts identifiers, not calls: storing under a new
    identifier raises [total_embeddings] by one, storing again under a
    known identifier leaves it, removing a known identifier lowers it by
    one and removing an unknown one leaves it; right after either
    operation [cache_size] is 0. *)
Theorem get_stats_counts_identifiers (st : VectorRepo.state) (i : string)
    (e : embedding) (m : gmap string string) (now : datetime) :
  let total s := VectorRepo.total_embeddings (VectorRepo.get_stats s now) in
  let added := VectorRepo.final (VectorRepo.add_embedding st i e m) in
  let removed := VectorRepo.final (VectorRepo.remove_embedding st i) in
  (VectorRepo.get_embedding st i = None →
   total added = S (total st) ∧ total removed = total st)
  ∧ (is_Some (VectorRepo.get_embedding st i) →
     total added = total st ∧ S (total removed) = total st)
  ∧ VectorRepo.cache_size (VectorRepo.get_stats added now) = 0
  ∧ VectorRepo.cache_size (VectorRepo.get_stats removed now) = 0.
Proof.
  unfold VectorRepo.get_embedding. simpl. split_and!; [| |done|done].
  - intros Hnone. split.
    + by apply map_size_insert_None.
    + by rewrite delete_id.
  - intros [x Hsome]. split.
    + by eapply map_size_insert_Some.
    + rewrite map_size_delete, Hsome.
      assert (size (VectorRepo._embeddings st) ≠ 0); [|simpl; lia].
      intros H0. apply map_size_empty_inv in H0. rewrite H0 in Hsome.
      by rewrite lookup_empty in Hsome.
Qed.

Section MoreIndexFacts.

Import VectorRepo.

Variable cosine : embedding → embedding → score.
Variable argsort : list score → list nat.

Lemma filter_has_embedding st l :
  Forall (λ inc, has_embedding st inc = true)
    (filter (λ inc, has_embedding st inc) l).
Proof.
  apply Forall_forall. intros inc Hin.
  apply list_elem_of_filter in Hin as [Hin _].
  by apply Is_true_true.
Qed.

Lemma fetch_resolved_cache_sound st amb :
  Spec.cache_sound st → Spec.cache_sound (final (fetch_resolved st amb)).
Proof.
  intros Hst. unfold fetch_resolved.
  destruct (list_all amb 10000%Z "resolved") as [listed|e]; simpl; [|done].
  intros l [= <-]. split; [done|].
  eapply Forall_impl; [apply filter_has_embedding|]. intros inc H. exact H.
Qed.

Lemma reachable_cache_sound_aux st : reachable st → Spec.cache_sound st.
Proof.
  induction 1 as [|st i e m _ IH|st i _ IH|st amb _ IH];
    try (intros l Hl; discriminate Hl).
  unfold _get_resolved_incidents.
  destruct (_resolved_incidents_cache st), (_cache_timestamp st);
    try (by apply fetch_resolved_cache_sound).
  destruct (now_check amb - d <? _cache_ttl)%Z;
    [done|by apply fetch_resolved_cache_sound].
Qed.

(** Pairing keeps the candidates that have an embedding, each with the
    stored vector. *)
Lemma pair_with_embeddings_spec st candidates :
  Forall (λ p, _embeddings st !! id p.1 = Some p.2 ∧ p.1 ∈ candidates)
    (pair_with_embeddings st candidates).
Proof.
  induction candidates as [|c cs IH]; simpl; [constructor|].
  assert (IH' : Forall (λ p, _embeddings st !! id p.1 = Some p.2
                             ∧ p.1 ∈ c :: cs) (pair_with_embeddings st cs)).
  { eapply Forall_impl; [exact IH|]. intros p [? ?]. split; [done|by right]. }
  destruct (_embeddings st !! id c) as [e|] eqn:E; [|done].
  constructor; [|done]. simpl. split; [done|left].
Qed.

Lemma pair_with_embeddings_sublist st candidates :
  (pair_with_embeddings st candidates).*1 `sublist_of` candidates.
Proof.
  induction candidates as [|c cs IH]; simpl; [constructor|].
  destruct (_embeddings st !! id c); simpl; by constructor.
Qed.

Lemma pair_with_embeddings_all st candidates :
  Forall (λ inc, has_embedding st inc = true) candidates →
  (pair_with_embeddings st candidates).*1 = candidates.
Proof.
  induction 1 as [|c cs Hc _ IH]; simpl; [done|].
  unfold has_embedding in Hc. apply bool_decide_eq_true in Hc as [e He].
  rewrite He. rewrite fmap_cons. simpl. f_equal. exact IH.
Qed.

Lemma pair_with_embeddings_none st candidates :
  Forall (λ inc, has_embedding st inc = false) candidates →
  pair_with_embeddings st candidates = [].
Proof.
  induction 1 as [|c cs Hc _ IH]; simpl; [done|].
  unfold has_embedding in Hc. apply bool_decide_eq_false in Hc.
  destruct (_embeddings st !! id c) eqn:E; [|done].
  exfalso. apply Hc. eauto.
Qed.

(** The loop of [find_similar] computed in one go: the qualifying
    positions in the order given, cut at the limit. *)
Lemma collect_exact sims incs limit idxs acc :
  length sims = length incs →
  Forall (λ i, i < length sims) idxs →
  collect sims incs limit idxs acc
  = Ok (acc ++ take (Z.to_nat limit - length acc)
                 (omap (Spec.entry_at sims incs)
                    (filter (λ i, Spec.qualifies sims i) idxs))).
Proof.
  intros Hlen Hidxs. revert acc.
  induction Hidxs as [|idx idxs Hidx _ IH]; intros acc.
  - simpl. by rewrite take_nil, app_nil_r.
  - destruct (lookup_lt_is_Some_2 sims idx Hidx) as [s Hs].
    destruct (lookup_lt_is_Some_2 incs idx) as [inc Hinc]; [lia|].
    assert (Hq : Spec.qualifies sims idx = Qle_bool min_similarity s).
    { unfold Spec.qualifies, score in *. by rewrite Hs. }
    assert (He : Spec.entry_at sims incs idx = Some (inc, s)).
    { unfold Spec.entry_at, score in *. by rewrite Hs, Hinc. }
    cbn [collect]. unfold score in *. rewrite Hs, filter_cons, Hq.
    destruct (Qle_bool min_similarity s) eqn:Eq; cbn [andb].
    + destruct (Z.of_nat (length acc) <? limit)%Z eqn:El.
      * apply Z.ltb_lt in El. rewrite Hinc, IH.
        rewrite decide_True by done. cbn [omap list_omap]. rewrite He.
        rewrite length_app. cbn [length].
        replace (Z.to_nat limit - length acc)
          with (S (Z.to_nat limit - (length acc + 1))) by lia.
        cbn [take]. by rewrite <- app_assoc.
      * apply Z.ltb_ge in El. rewrite IH.
        replace (Z.to_nat limit - length acc) with 0 by lia.
        by rewrite !take_0.
    + rewrite decide_False by (intros Hf; exact Hf). by rewrite IH.
Qed.

Lemma argsort_in_range v :
  Numpy.argsort_contract argsort →
  Forall (λ i, i < length v) (rev (argsort v)).
Proof.
  intros Hc. destruct (Hc v) as [Hperm _].
  apply Forall_forall. intros i Hi.
  apply list_elem_of_In, in_rev, list_elem_of_In in Hi.
  rewrite Hperm in Hi. apply list_elem_of_In, in_seq in Hi. lia.
Qed.

(** [rank] in one go, when the arrays are accepted. *)
Lemma rank_exact st candidates query limit results :
  Numpy.argsort_contract argsort →
  rank cosine argsort st candidates query limit = Ok results →
  let paired := pair_with_embeddings st candidates in
  let sims := Spec.candidate_scores cosine st candidates query in
  results
  = take (Z.to_nat limit)
      (omap (Spec.entry_at sims paired.*1)
         (filter (λ i, Spec.qualifies sims i) (rev (argsort sims)))).
Proof.
  intros Hc H paired sims. unfold rank in H.
  destruct candidates as [|c cs].
  { injection H as <-. subst sims. unfold Spec.candidate_scores. simpl.
    destruct (Hc []) as [Hperm _]. apply Permutation_nil_r in Hperm.
    rewrite Hperm. simpl. by rewrite take_nil. }
  cbv zeta in H. change (pair_with_embeddings st (c :: cs)) with paired in H.
  subst sims. unfold Spec.candidate_scores. fold paired.
  destruct (paired.*2) as [|e es] eqn:Ep.
  { injection H as <-. simpl.
    destruct (Hc []) as [Hperm _]. apply Permutation_nil_r in Hperm.
    rewrite Hperm. simpl. by rewrite take_nil. }
  unfold cosine_similarity in H.
  destruct ((0 <? length query)
            && forallb (λ e0, length e0 =? length query) (e :: es)); [|done].
  rewrite collect_exact in H.
  - injection H as <-. simpl. by rewrite Nat.sub_0_r.
  - rewrite length_map, <- Ep, !length_fmap. done.
  - by apply argsort_in_range.
Qed.

Lemma filter_bool_ext_in {A} (f g : A → bool) (l : list A) :
  (∀ x, x ∈ l → f x = g x) →
  filter (λ x, f x) l = filter (λ x, g x) l.
Proof.
  induction l as [|a l IH]; intros H; [done|].
  rewrite !filter_cons, (H a) by left.
  rewrite IH; [done|]. intros x Hx. apply H. by right.
Qed.

(** Counting the qualifying positions of a permutation of all positions
    counts the qualifying scores. *)
Lemma filter_seq_qualifies (l : list score) k :
  length (filter (λ i, Spec.qualifies l (i - k)) (seq k (length l)))
  = length (filter (λ s, Qle_bool min_similarity s) l).
Proof.
  revert k. induction l as [|x l IH]; intros k; [done|].
  cbn [length seq]. rewrite !filter_cons.
  assert (Hx : Spec.qualifies (x :: l) (k - k) = Qle_bool min_similarity x).
  { by rewrite Nat.sub_diag. }
  rewrite Hx.
  assert (Hrest :
    filter (λ i, Spec.qualifies (x :: l) (i - k)) (seq (S k) (length l))
    = filter (λ i, Spec.qualifies l (i - S k)) (seq (S k) (length l))).
  { apply filter_bool_ext_in. intros i Hi.
    apply list_elem_of_In, in_seq in Hi.
    replace (i - k) with (S (i - S k)) by lia. done. }
  rewrite Hrest.
  destruct (Qle_bool min_similarity x).
  - rewrite !decide_True by done. cbn [length]. by rewrite IH.
  - rewrite !decide_False by (intros Hf; exact Hf). by rewrite IH.
Qed.

Lemma qualifying_count v :
  Numpy.argsort_contract argsort →
  length (filter (λ i, Spec.qualifies v i) (rev (argsort v)))
  = length (filter (λ s, Qle_bool min_similarity s) v).
Proof.
  intros Hc. destruct (Hc v) as [Hperm _].
  rewrite <- (filter_seq_qualifies v 0).
  apply Permutation_length.
  assert (Hfilter : filter (λ i, Spec.qualifies v i) (seq 0 (length v))
          = filter (λ i, Spec.qualifies v (i - 0)) (seq 0 (length v))).
  { apply filter_bool_ext_in. intros i _. by rewrite Nat.sub_0_r. }
  rewrite <- Hfilter. apply filter_Permutation.
  rewrite <- Hperm. symmetry. apply Permutation_rev.
Qed.

Lemma lookup_map {A B} (f : A → B) (l : list A) i :
  map f l !! i = f <$> (l !! i).
Proof.
  revert i. induction l as [|a l IH]; intros [|i]; simpl; try done.
Qed.

Lemma omap_entry_length sims incs idxs :
  length sims = length incs →
  Forall (λ i, i < length sims) idxs →
  length (omap (Spec.entry_at sims incs) idxs) = length idxs.
Proof.
  intros Hlen. induction 1 as [|i idxs Hi _ IH]; [done|].
  destruct (lookup_lt_is_Some_2 sims i Hi) as [s Hs].
  destruct (lookup_lt_is_Some_2 incs i) as [inc Hinc]; [lia|].
  assert (He : Spec.entry_at sims incs i = Some (inc, s)).
  { unfold Spec.entry_at, score in *. by rewrite Hs, Hinc. }
  cbn [omap list_omap]. rewrite He. cbn [length]. by rewrite IH.
Qed.

(** What the ranking returns was among its candidates, with an
    embedding in the index and the cosine to it as its score. *)
Lemma rank_results_are_candidates st candidates query limit results :
  rank cosine argsort st candidates query limit = Ok results →
  ∀ r, r ∈ results →
    r.1 ∈ candidates
    ∧ ∃ e, _embeddings st !! id r.1 = Some e ∧ r.2 = cosine query e.
Proof.
  intros H r Hr.
  apply rank_spec in H as (picked & _ & HF & _ & _).
  apply list_elem_of_lookup in Hr as [a Ha].
  destruct (Forall2_lookup_r _ _ _ _ _ HF Ha) as (p & Hp & Hs & Hi).
  rewrite lookup_map, list_lookup_fmap in Hs. rewrite list_lookup_fmap in Hi.
  destruct (pair_with_embeddings st candidates !! p)
    as [[inc e]|] eqn:Epair; [|done].
  simpl in Hs, Hi. injection Hs as Hs. injection Hi as Hi.
  pose proof (pair_with_embeddings_spec st candidates) as Hall.
  eapply Forall_forall in Hall; [|by eapply list_elem_of_lookup_2].
  destruct Hall as [Hemb Hin]. simpl in Hemb, Hin. subst inc.
  split; [done|]. exists e. split; [done|]. by rewrite <- Hs.
Qed.

End MoreIndexFacts.

(** X8.  In every state the class can reach, the cached candidate list
    holds only incidents that have an embedding and comes with the time
    of its capture, and the two maps have the same identifiers; so the
    second membership test of [find_similar] drops no cached candidate. *)
Theorem cached_candidates_have_embeddings (st : VectorRepo.state) :
  VectorRepo.reachable st →
  Spec.cache_sound st
  ∧ Spec.same_keys st
  ∧ ∀ l, VectorRepo._resolved_incidents_cache st = Some l →
         (VectorRepo.pair_with_embeddings st l).*1 = l.
Proof.
  intros Hst. split_and!.
  - by apply reachable_cache_sound_aux.
  - by apply reachable_same_keys.
  - intros l Hl. apply pair_with_embeddings_all.
    by apply (reachable_cache_sound_aux st Hst l Hl).
Qed.

Lemma cached_candidates_have_embeddings_witness :
  let st :=
    VectorRepo.final
      (VectorRepo._get_resolved_incidents Scenario.index_abc
         (Scenario.at_minute 0 [Scenario.incA; Scenario.incB; Scenario.incC])) in
  VectorRepo._resolved_incidents_cache st
  = Some [Scenario.incA; Scenario.incB; Scenario.incC]
  ∧ Spec.cache_sound st
  ∧ Spec.same_keys st
  ∧ ∀ l, VectorRepo._resolved_incidents_cache st = Some l →
         (VectorRepo.pair_with_embeddings st l).*1 = l.
Proof.
  intros st. split; [vm_compute; reflexivity|].
  apply (cached_candidates_have_embeddings st).
  apply VectorRepo.reach_get_resolved.
  unfold Scenario.index_abc. repeat apply VectorRepo.reach_add.
  apply VectorRepo.reach_init.
Defined.

(** X9.  [find_similar] never changes the stored embeddings or metadata.
    With a status filter other than resolved it leaves the whole index as
    it is, cache included, and asks the Incident Store every time, with
    that status and the limit 10000. *)
Theorem find_similar_frame
    (cosine : embedding → embedding → score) (argsort : list score → list nat)
    (st : VectorRepo.state) (amb : VectorRepo.Ambient)
    (query : embedding) (limit : Z) (filters : option (gmap string string)) :
  let o := VectorRepo.find_similar cosine argsort st amb query limit filters in
  VectorRepo._embeddings (VectorRepo.final o) = VectorRepo._embeddings st
  ∧ VectorRepo._metadata (VectorRepo.final o) = VectorRepo._metadata st
  ∧ (VectorRepo.status_filter_of filters ≠ "resolved" →
     VectorRepo.final o = st
     ∧ VectorRepo.store_calls o
       = [ {| VectorRepo.call_limit := 10000%Z;
              VectorRepo.call_status := VectorRepo.status_filter_of filters |} ]).
Proof.
  intros o. subst o. rewrite find_similar_final, find_similar_calls.
  split_and!.
  - apply get_candidates_embeddings.
  - unfold VectorRepo.get_candidates, VectorRepo._get_resolved_incidents,
      VectorRepo.fetch_resolved.
    repeat (case_match; simpl; try done).
  - intros Hf. unfold VectorRepo.get_candidates.
    rewrite bool_decide_eq_false_2 by done.
    by destruct (VectorRepo.list_all amb 10000%Z _).
Qed.

(** X10.  [find_similar] drops no match before the limit is reached: the
    number of pairs returned is the smaller of the limit and the number
    of candidates whose score is at or above 0.7. *)
Theorem find_similar_returns_all_up_to_limit
    (cosine : embedding → embedding → score) (argsort : list score → list nat)
    (st : VectorRepo.state) (amb : VectorRepo.Ambient)
    (query : embedding) (limit : Z) (filters : option (gmap string string))
    (results : list (IncidentResponse * score))
    (candidates : list IncidentResponse) :
  Numpy.argsort_contract argsort →
  VectorRepo.value
    (VectorRepo.find_similar cosine argsort st amb query limit filters)
  = Ok results →
  VectorRepo.value
    (VectorRepo.get_candidates st amb (VectorRepo.status_filter_of filters))
  = Ok candidates →
  length results
  = Nat.min (Z.to_nat limit)
      (length (filter (λ s, Qle_bool VectorRepo.min_similarity s)
                 (Spec.candidate_scores cosine st candidates query))).
Proof.
  intros Hc H Hcand.
  apply find_similar_rank in H as (candidates' & Hc' & H).
  rewrite Hcand in Hc'. injection Hc' as <-.
  rewrite (rank_exact cosine argsort _ _ _ _ _ Hc H).
  rewrite length_take, omap_entry_length.
  - by rewrite (qualifying_count argsort _ Hc).
  - unfold Spec.candidate_scores. by rewrite length_map, !length_fmap.
  - apply Forall_forall. intros i Hi.
    apply list_elem_of_filter in Hi as [_ Hi].
    pose proof (argsort_in_range argsort
                  (Spec.candidate_scores cosine st candidates query) Hc) as Hr.
    rewrite Forall_forall in Hr. by apply Hr.
Qed.

Lemma find_similar_returns_all_up_to_limit_witness :
  length [(Scenario.incB, (625 # 625)%Q); (Scenario.incA, (625 # 625)%Q)]
  = Nat.min (Z.to_nat 2)
      (length (filter (λ s, Qle_bool VectorRepo.min_similarity s)
                 (Spec.candidate_scores Scenario.dot Scenario.index_abc
                    [Scenario.incA; Scenario.incB; Scenario.incC] Scenario.u34))).
Proof.
  apply (find_similar_returns_all_up_to_limit Scenario.dot
           Numpy.insertion_argsort Scenario.index_abc
           (Scenario.at_minute 0 [Scenario.incA; Scenario.incB; Scenario.incC])
           Scenario.u34 2 None).
  - exact insertion_argsort_contract.
  - vm_compute. reflexivity.
  - vm_compute. reflexivity.
Defined.

(** X12.  Every pair returned by [find_similar] is a candidate that has an
    embedding in the index, with the cosine of the query and that
    embedding as its score. *)
Theorem find_similar_results_are_candidates
    (cosine : embedding → embedding → score) (argsort : list score → list nat)
    (st : VectorRepo.state) (amb : VectorRepo.Ambient)
    (query : embedding) (limit : Z) (filters : option (gmap string string))
    (results : list (IncidentResponse * score))
    (candidates : list IncidentResponse) :
  VectorRepo.value
    (VectorRepo.find_similar cosine argsort st amb query limit filters)
  = Ok results →
  VectorRepo.value
    (VectorRepo.get_candidates st amb (VectorRepo.status_filter_of filters))
  = Ok candidates →
  ∀ r, r ∈ results →
    r.1 ∈ candidates
    ∧ ∃ e, VectorRepo._embeddings st !! id r.1 = Some e ∧ r.2 = cosine query e.
Proof.
  intros H Hcand.
  apply find_similar_rank in H as (candidates' & Hc' & H).
  rewrite Hcand in Hc'. injection Hc' as <-.
  by eapply rank_results_are_candidates.
Qed.

Lemma find_similar_results_are_candidates_witness :
  Forall
    (λ r : IncidentResponse * score,
       r.1 ∈ [Scenario.incA; Scenario.incB; Scenario.incC]
       ∧ ∃ e, VectorRepo._embeddings Scenario.index_abc !! id r.1 = Some e
              ∧ r.2 = Scenario.dot Scenario.u34 e)
    [(Scenario.incB, (625 # 625)%Q); (Scenario.incA, (625 # 625)%Q)].
Proof.
  apply Forall_forall.
  apply (find_similar_results_are_candidates Scenario.dot
           Numpy.insertion_argsort Scenario.index_abc
           (Scenario.at_minute 0 [Scenario.incA; Scenario.incB; Scenario.incC])
           Scenario.u34 2 None).
  - vm_compute. reflexivity.
  - vm_compute. reflexivity.
Defined.

Section BestFirstFacts.

Import VectorRepo.

Variable argsort : list score → list nat.

(** The first position of the reversed ascending order carries the
    largest score. *)
Lemma reversed_argsort_head v :
  Numpy.argsort_contract argsort →
  v ≠ [] →
  ∃ hd tl,
    rev (argsort v) = hd :: tl
    ∧ hd < length v
    ∧ ∀ i, i < length v → (Numpy.nth_score v i <= Numpy.nth_score v hd)%Q.
Proof.
  intros Hc Hne. destruct (Hc v) as [Hperm Hsorted].
  apply StronglySorted_rev in Hsorted.
  assert (Hperm' : Permutation (rev (argsort v)) (seq 0 (length v))).
  { rewrite <- Hperm. symmetry. apply Permutation_rev. }
  destruct (rev (argsort v)) as [|hd tl] eqn:E.
  { apply Permutation_nil in Hperm'. destruct v; [done|discriminate]. }
  apply StronglySorted_inv in Hsorted as [_ Hhd].
  exists hd, tl. split_and!; [done| |].
  - assert (Hin : hd ∈ seq 0 (length v)) by (rewrite <- Hperm'; left).
    apply list_elem_of_In, in_seq in Hin. lia.
  - intros i Hi.
    assert (Hin : i ∈ hd :: tl).
    { rewrite Hperm'. apply list_elem_of_In, in_seq. lia. }
    apply elem_of_cons in Hin as [->|Hin]; [apply Qle_refl|].
    eapply Forall_forall in Hhd; [exact Hhd|done].
Qed.

Lemma sublist_map {A B} (f : A → B) (l k : list A) :
  l `sublist_of` k → f <$> l `sublist_of` f <$> k.
Proof. induction 1; simpl; by constructor. Qed.

End BestFirstFacts.

(** X11.  The best match comes first: when the limit is at least one and
    some candidate scores at or above 0.7, [find_similar] returns a
    non-empty list whose first pair has the largest score of all
    candidates. *)
Theorem find_similar_best_first
    (cosine : embedding → embedding → score) (argsort : list score → list nat)
    (st : VectorRepo.state) (amb : VectorRepo.Ambient)
    (query : embedding) (limit : Z) (filters : option (gmap string string))
    (results : list (IncidentResponse * score))
    (candidates : list IncidentResponse) :
  Numpy.argsort_contract argsort →
  VectorRepo.value
    (VectorRepo.find_similar cosine argsort st amb query limit filters)
  = Ok results →
  VectorRepo.value
    (VectorRepo.get_candidates st amb (VectorRepo.status_filter_of filters))
  = Ok candidates →
  (1 ≤ limit)%Z →
  (∃ s, s ∈ Spec.candidate_scores cosine st candidates query
        ∧ (VectorRepo.min_similarity <= s)%Q) →
  ∃ r rest,
    results = r :: rest
    ∧ ∀ s, s ∈ Spec.candidate_scores cosine st candidates query
           → (s <= r.2)%Q.
Proof.
  intros Hc H Hcand Hlimit (s0 & Hs0 & Hmin).
  apply find_similar_rank in H as (candidates' & Hc' & H).
  rewrite Hcand in Hc'. injection Hc' as <-.
  rewrite (rank_exact cosine argsort _ _ _ _ _ Hc H). clear H.
  set (sims := Spec.candidate_scores cosine st candidates query) in *.
  set (incs := (VectorRepo.pair_with_embeddings st candidates).*1).
  assert (Hlen : length sims = length incs).
  { subst sims incs. unfold Spec.candidate_scores.
    by rewrite length_map, !length_fmap. }
  destruct (reversed_argsort_head argsort sims Hc) as (hd & tl & -> & Hhd & Hmax).
  { intros Hnil. rewrite Hnil in Hs0. by apply elem_of_nil in Hs0. }
  assert (Hbound : ∀ s, s ∈ sims → (s <= Numpy.nth_score sims hd)%Q).
  { intros s Hs. apply list_elem_of_lookup in Hs as [i Hi].
    pose proof (lookup_lt_Some _ _ _ Hi) as Hlt.
    specialize (Hmax i Hlt).
    assert (Hi' : Numpy.nth_score sims i = s).
    { unfold Numpy.nth_score. by apply nth_lookup_Some. }
    by rewrite Hi' in Hmax. }
  destruct (lookup_lt_is_Some_2 sims hd Hhd) as [sh Hsh].
  destruct (lookup_lt_is_Some_2 incs hd) as [inc Hinc]; [lia|].
  assert (Hnth : Numpy.nth_score sims hd = sh).
  { unfold Numpy.nth_score. by apply nth_lookup_Some. }
  assert (Hq : Spec.qualifies sims hd = true).
  { unfold Spec.qualifies, score in *. rewrite Hsh. apply Qle_bool_iff.
    eapply Qle_trans; [exact Hmin|]. rewrite <- Hnth. by apply Hbound. }
  assert (He : Spec.entry_at sims incs hd = Some (inc, sh)).
  { unfold Spec.entry_at, score in *. by rewrite Hsh, Hinc. }
  rewrite filter_cons, decide_True by (by rewrite Hq).
  cbn [omap list_omap]. rewrite He.
  destruct (Z.to_nat limit) as [|n] eqn:En; [lia|].
  cbn [take]. eexists _, _. split; [reflexivity|].
  intros s Hs. simpl. rewrite <- Hnth. by apply Hbound.
Qed.

Lemma find_similar_best_first_witness :
  ∃ r rest,
    [(Scenario.incB, (625 # 625)%Q); (Scenario.incA, (625 # 625)%Q)] = r :: rest
    ∧ ∀ s, s ∈ Spec.candidate_scores Scenario.dot Scenario.index_abc
                 [Scenario.incA; Scenario.incB; Scenario.incC] Scenario.u34
           → (s <= r.2)%Q.
Proof.
  apply (find_similar_best_first Scenario.dot Numpy.insertion_argsort
           Scenario.index_abc
           (Scenario.at_minute 0 [Scenario.incA; Scenario.incB; Scenario.incC])
           Scenario.u34 2 None).
  - exact insertion_argsort_contract.
  - vm_compute. reflexivity.
  - vm_compute. reflexivity.
  - lia.
  - exists (625 # 625)%Q. split; [left|]. vm_compute. discriminate.
Defined.

(** X13.  When the candidates handed to [find_similar] have distinct
    identifiers, so have the incidents it returns: no incident is
    returned twice. *)
Theorem find_similar_no_duplicates
    (cosine : embedding → embedding → score) (argsort : list score → list nat)
    (st : VectorRepo.state) (amb : VectorRepo.Ambient)
    (query : embedding) (limit : Z) (filters : option (gmap string string))
    (results : list (IncidentResponse * score))
    (candidates : list IncidentResponse) :
  Numpy.argsort_contract argsort →
  VectorRepo.value
    (VectorRepo.find_similar cosine argsort st amb query limit filters)
  = Ok results →
  VectorRepo.value
    (VectorRepo.get_candidates st amb (VectorRepo.status_filter_of filters))
  = Ok candidates →
  NoDup (id <$> candidates) →
  NoDup (id <$> results.*1).
Proof.
  intros Hc H Hcand Hnd.
  apply find_similar_rank in H as (candidates' & Hc' & H).
  rewrite Hcand in Hc'. injection Hc' as <-.
  apply rank_spec in H as (picked & Hsub & HF & _ & _).
  set (sims := map (cosine query)
                 (VectorRepo.pair_with_embeddings st candidates).*2) in *.
  set (incs := (VectorRepo.pair_with_embeddings st candidates).*1) in *.
  assert (Hincs : NoDup (id <$> incs)).
  { eapply sublist_NoDup; [exact Hnd|].
    subst incs. apply sublist_map, pair_with_embeddings_sublist. }
  assert (Hpicked : NoDup picked).
  { eapply sublist_NoDup; [|exact Hsub].
    destruct (Hc sims) as [Hperm _].
    assert (Hp : Permutation (rev (argsort sims)) (seq 0 (length sims))).
    { rewrite <- Hperm. symmetry. apply Permutation_rev. }
    rewrite Hp. apply NoDup_ListNoDup, seq_NoDup. }
  apply NoDup_alt. intros a b x Ha Hb.
  rewrite !list_lookup_fmap in Ha, Hb.
  destruct (results !! a) as [ra|] eqn:Era; [|done].
  destruct (results !! b) as [rb|] eqn:Erb; [|done].
  simpl in Ha, Hb. injection Ha as Ha. injection Hb as Hb.
  destruct (Forall2_lookup_r _ _ _ _ _ HF Era) as (pa & Hpa & _ & Hia).
  destruct (Forall2_lookup_r _ _ _ _ _ HF Erb) as (pb & Hpb & _ & Hib).
  assert (pa = pb) as ->.
  { eapply (proj1 (NoDup_alt _) Hincs pa pb x);
      rewrite list_lookup_fmap; [rewrite Hia|rewrite Hib]; simpl; congruence. }
  by eapply (proj1 (NoDup_alt _) Hpicked a b pb).
Qed.

Lemma find_similar_no_duplicates_witness :
  NoDup (id <$> [(Scenario.incB, (625 # 625)%Q);
                 (Scenario.incA, (625 # 625)%Q)].*1).
Proof.
  apply (find_similar_no_duplicates Scenario.dot Numpy.insertion_argsort
           Scenario.index_abc
           (Scenario.at_minute 0 [Scenario.incA; Scenario.incB; Scenario.incC])
           Scenario.u34 2 None _ [Scenario.incA; Scenario.incB; Scenario.incC]).
  - exact insertion_argsort_contract.
  - vm_compute. reflexivity.
  - vm_compute. reflexivity.
  - refine (bool_decide_unpack _ _). vm_compute. exact I.
Defined.

(** X14.  On an index without embeddings [find_similar] returns the empty
    list whenever the candidates can be obtained, whatever the query, the
    limit and the incidents the store lists; the vectors are never
    compared. *)
Theorem find_similar_empty_index
    (cosine : embedding → embedding → score) (argsort : list score → list nat)
    (st : VectorRepo.state) (amb : VectorRepo.Ambient)
    (query : embedding) (limit : Z) (filters : option (gmap string string))
    (candidates : list IncidentResponse) :
  VectorRepo._embeddings st = ∅ →
  VectorRepo.value
    (VectorRepo.get_candidates st amb (VectorRepo.status_filter_of filters))
  = Ok candidates →
  VectorRepo.value
    (VectorRepo.find_similar cosine argsort st amb query limit filters)
  = Ok [].
Proof.
  intros Hempty Hcand. unfold VectorRepo.find_similar. rewrite Hcand. simpl.
  unfold VectorRepo.rank. destruct candidates as [|c cs]; [done|].
  rewrite (pair_with_embeddings_none _ (c :: cs)); [done|].
  apply Forall_forall. intros inc _. unfold VectorRepo.has_embedding.
  apply bool_decide_eq_false. rewrite get_candidates_embeddings, Hempty.
  rewrite lookup_empty. by intros [? ?].
Qed.

Lemma find_similar_empty_index_witness :
  VectorRepo.value
    (VectorRepo.find_similar Scenario.dot Numpy.insertion_argsort
       VectorRepo.__init__
       (Scenario.at_minute 0 [Scenario.incA; Scenario.incB; Scenario.incC])
       Scenario.u34 5 None)
  = Ok [].
Proof.
  apply (find_similar_empty_index Scenario.dot Numpy.insertion_argsort
           VectorRepo.__init__
           (Scenario.at_minute 0 [Scenario.incA; Scenario.incB; Scenario.incC])
           Scenario.u34 5 None []).
  - reflexivity.
  - vm_compute. reflexivity.
Defined.

(** X15.  A call without filters, with an empty filter dict or with a
    dict that has no ["status"] key is a call with the resolved filter:
    same result, same state afterwards, same calls to the store. *)
Theorem find_similar_default_filter
    (cosine : embedding → embedding → score) (argsort : list score → list nat)
    (st : VectorRepo.state) (amb : VectorRepo.Ambient)
    (query : embedding) (limit : Z) (filters : option (gmap string string)) :
  (filters = None
   ∨ ∃ f, filters = Some f ∧ f !! "status" = None) →
  VectorRepo.find_similar cosine argsort st amb query limit filters
  = VectorRepo.find_similar cosine argsort st amb query limit
      (Some {[ "status" := "resolved" ]}).
Proof.
  intros Hf.
  assert (Hs : VectorRepo.status_filter_of filters = "resolved").
  { destruct Hf as [->|(f & -> & Hnone)]; [done|].
    unfold VectorRepo.status_filter_of. case_bool_decide; [done|].
    by rewrite Hnone. }
  unfold VectorRepo.find_similar. by rewrite Hs.
Qed.

Lemma find_similar_default_filter_witness :
  VectorRepo.find_similar Scenario.dot Numpy.insertion_argsort
    Scenario.index_abc
    (Scenario.at_minute 0 [Scenario.incA; Scenario.incB; Scenario.incC])
    Scenario.u34 5 (Some {[ "module" := "AP" ]})
  = VectorRepo.find_similar Scenario.dot Numpy.insertion_argsort
      Scenario.index_abc
      (Scenario.at_minute 0 [Scenario.incA; Scenario.incB; Scenario.incC])
      Scenario.u34 5 (Some {[ "status" := "resolved" ]}).
Proof.
  apply (find_similar_default_filter Scenario.dot Numpy.insertion_argsort).
  right. exists {[ "module" := "AP" ]}. split; [reflexivity|].
  vm_compute. reflexivity.
Defined.

(* ===================================================================== *)
(** * Further properties of the orchestrator *)
(* ===================================================================== *)

Section MoreServiceFacts.

Import Rag.

Context {W : Type}.
Variable sv : Services W.

(** The retrieval-augmented path, step by step. *)
Lemma enrich_with_rag_steps incident rule_result w q w1 similar w2 :
  generate_incident_embedding sv (ic_title incident) (ic_description incident) w
  = (Ok q, w1) →
  vector_repo_find_similar sv q (rag_max_similar_incidents sv) resolved_filter w1
  = (Ok similar, w2) →
  _enrich_with_rag sv incident rule_result w
  = match similar with
    | [] => (Ok (tagged rule_result "rule_based"), w2)
    | _ =>
        match Spec.classification sv incident similar rule_result w2 with
        | (Raise e, w3) => (Raise e, w3)
        | (Ok sc, w3) =>
            match _generate_action_from_similar sv sc.1 sc.2 similar
                    (rule_suggested_action rule_result) with
            | Raise e => (Raise e, w3)
            | Ok a =>
                (Ok {| res_severity := sc.1;
                       res_category := sc.2;
                       res_summary := Rules.generate_summary incident;
                       res_suggested_action := a;
                       enrichment_method := "rag";
                       similar_incidents := map to_ref (take 3 similar) |}, w3)
            end
        end
    end.
Proof.
  intros Hg Hf. unfold _enrich_with_rag, bind. rewrite Hg, Hf.
  destruct similar as [|n similar]; [done|].
  unfold Spec.classification.
  destruct (llm_client sv) as [llm|].
  - destruct (try_except (llm incident (n :: similar)) _ w2) as [[sc|e] w3];
      [|done].
    unfold lift. by destruct (_generate_action_from_similar _ _ _ _ _).
  - unfold lift. destruct (_classify_by_majority_vote _ _) as [sc|e]; [|done].
    by destruct (_generate_action_from_similar _ _ _ _ _).
Qed.

(** What a result of the retrieval-augmented path looks like. *)
Lemma enrich_with_rag_shape incident rule_result w r w' :
  _enrich_with_rag sv incident rule_result w = (Ok r, w') →
  r = tagged rule_result "rule_based"
  ∨ (enrichment_method r = "rag"
     ∧ res_summary r = Rules.generate_summary incident
     ∧ length (similar_incidents r) ≤ 3).
Proof.
  intros H.
  destruct (generate_incident_embedding sv (ic_title incident)
              (ic_description incident) w) as [[q|e] w1] eqn:Hg.
  2:{ unfold _enrich_with_rag, bind in H. by rewrite Hg in H. }
  destruct (vector_repo_find_similar sv q (rag_max_similar_incidents sv)
              resolved_filter w1) as [[similar|e] w2] eqn:Hf.
  2:{ unfold _enrich_with_rag, bind in H. by rewrite Hg, Hf in H. }
  rewrite (enrich_with_rag_steps _ _ _ _ _ _ _ Hg Hf) in H.
  destruct similar as [|n similar].
  { injection H as <- _. by left. }
  destruct (Spec.classification sv incident (n :: similar) rule_result w2)
    as [[sc|e] w3]; [|done].
  destruct (_generate_action_from_similar _ _ _ _ _) as [a|e]; [|done].
  injection H as <- _. right. simpl. split_and!; [done..|].
  rewrite length_map, length_take. lia.
Qed.

End MoreServiceFacts.

(** X16.  Every result of [enrich_incident] carries one of the three tags
    ['rule_based'], ['rule_based_fallback'] and ['rag'], the summary of
    the rule classifier, and at most three similar incidents; unless the
    tag is ['rag'] it is the rule-based result with no similar incident
    at all. *)
Theorem enrich_incident_result_shape {W : Type} (sv : Rag.Services W)
    (incident : IncidentCreate) (w : W) :
  ∃ r w',
    Rag.enrich_incident sv incident w = (Ok r, w')
    ∧ Spec.known_method (Rag.enrichment_method r)
    ∧ Rag.res_summary r = Rules.generate_summary incident
    ∧ length (Rag.similar_incidents r) ≤ 3
    ∧ (Rag.enrichment_method r ≠ "rag" →
       r = Rag.tagged (Rag._enrich_rule_based incident)
             (Rag.enrichment_method r)).
Proof.
  destruct (should_use_rag_returns sv incident
              (Rag._enrich_rule_based incident) w) as (b & w1 & Hroute).
  unfold Rag.enrich_incident, Rag.bind. rewrite Hroute.
  destruct b; simpl.
  - unfold Rag.try_except.
    destruct (Rag._enrich_with_rag sv incident
                (Rag._enrich_rule_based incident) w1) as [[r|e] w2] eqn:Erag.
    + exists r, w2. split; [done|].
      destruct (enrich_with_rag_shape sv _ _ _ _ _ Erag)
        as [->|(Hm & Hs & Hl)].
      * unfold Spec.known_method. simpl. split_and!; [by left|done|lia|done].
      * unfold Spec.known_method. rewrite Hm.
        split_and!; [by right; right|done|done|done].
    + eexists _, w2. split; [reflexivity|]. unfold Spec.known_method. simpl.
      split_and!; [by right; left|done|lia|done].
  - eexists _, w1. split; [reflexivity|]. unfold Spec.known_method. simpl.
    split_and!; [by left|done|lia|done].
Qed.

(** X17.  With a language-model client configured and neighbors found,
    the path returns the client's classification as it is; when the
    client raises, it returns the severity and category of the rule
    classifier instead (the vote is not consulted), still tagged
    ['rag']. *)
Theorem llm_classification_or_rule_fallback {W : Type} (sv : Rag.Services W)
    (llm : IncidentCreate → list (IncidentResponse * score)
           → Rag.M W (Severity * Category))
    (incident : IncidentCreate) (rule_result : Rag.RuleResult)
    (w w1 w2 w3 : W) (q : embedding)
    (similar : list (IncidentResponse * score))
    (answer : result (Severity * Category)) :
  Rag.llm_client sv = Some llm →
  Rag.set_iteration (Rag.set_iter sv) →
  Rag.generate_incident_embedding sv (ic_title incident)
    (ic_description incident) w = (Ok q, w1) →
  Rag.vector_repo_find_similar sv q (Rag.rag_max_similar_incidents sv)
    Rag.resolved_filter w1 = (Ok similar, w2) →
  similar ≠ [] →
  llm incident similar w2 = (answer, w3) →
  ∃ r,
    Rag._enrich_with_rag sv incident rule_result w = (Ok r, w3)
    ∧ Rag.enrichment_method r = "rag"
    ∧ (Rag.res_severity r, Rag.res_category r)
      = match answer with
        | Ok sc => sc
        | Raise _ =>
            (Rag.rule_severity rule_result, Rag.rule_category rule_result)
        end.
Proof.
  intros Hllm Hset Hg Hf Hne Hanswer.
  rewrite (enrich_with_rag_steps sv _ _ _ _ _ _ _ Hg Hf).
  destruct similar as [|n similar]; [done|].
  unfold Spec.classification, Rag.try_except. rewrite Hllm, Hanswer.
  destruct answer as [[s c]|e]; unfold Rag.ret; cbv beta iota; cbn [fst snd].
  - destruct (generate_action_ok sv s c (n :: similar)
                (Rag.rule_suggested_action rule_result) Hset) as [a ->].
    by eexists.
  - destruct (generate_action_ok sv (Rag.rule_severity rule_result)
                (Rag.rule_category rule_result) (n :: similar)
                (Rag.rule_suggested_action rule_result) Hset) as [a ->].
    by eexists.
Qed.

Lemma llm_classification_or_rule_fallback_witness :
  let rule := Rag._enrich_rule_based Scenario.long_incident in
  ∃ r,
    Rag._enrich_with_rag (Scenario.services_with_llm Scenario.llm_down)
      Scenario.long_incident rule Scenario.index_abc
    = (Ok r,
       VectorRepo.final
         (VectorRepo.find_similar Scenario.dot Numpy.insertion_argsort
            Scenario.index_abc
            (Scenario.at_minute 0 [Scenario.incA; Scenario.incB; Scenario.incC])
            Scenario.u34 5 Rag.resolved_filter))
    ∧ Rag.enrichment_method r = "rag"
    ∧ (Rag.res_severity r, Rag.res_category r) = (P3, INTEGRATION_FAILURE).
Proof.
  intros rule.
  set (after :=
    VectorRepo.final
      (VectorRepo.find_similar Scenario.dot Numpy.insertion_argsort
         Scenario.index_abc
         (Scenario.at_minute 0 [Scenario.incA; Scenario.incB; Scenario.incC])
         Scenario.u34 5 Rag.resolved_filter)).
  apply (llm_classification_or_rule_fallback
           (Scenario.services_with_llm Scenario.llm_down) Scenario.llm_down
           Scenario.long_incident rule
           Scenario.index_abc Scenario.index_abc after after Scenario.u34
           [(Scenario.incB, (625 # 625)%Q); (Scenario.incA, (625 # 625)%Q);
            (Scenario.incC, (600 # 625)%Q)]
           (Raise (OtherException "APIConnectionError"))).
  - reflexivity.
  - apply first_seen_first_set.
  - reflexivity.
  - vm_compute. reflexivity.
  - discriminate.
  - reflexivity.
Defined.

(** X18.  When the routing escalates and the index returns no neighbor,
    [enrich_incident] returns the rule-based result tagged ['rule_based'],
    not ['rag'] and not ['rule_based_fallback']. *)
Theorem enrich_incident_without_neighbors {W : Type} (sv : Rag.Services W)
    (incident : IncidentCreate) (w w1 w2 w3 : W) (q : embedding) :
  Rag._should_use_rag sv incident (Rag._enrich_rule_based incident) w
  = (Ok true, w1) →
  Rag.generate_incident_embedding sv (ic_title incident)
    (ic_description incident) w1 = (Ok q, w2) →
  Rag.vector_repo_find_similar sv q (Rag.rag_max_similar_incidents sv)
    Rag.resolved_filter w2 = (Ok [], w3) →
  Rag.enrich_incident sv incident w
  = (Ok (Rag.tagged (Rag._enrich_rule_based incident) "rule_based"), w3).
Proof.
  intros Hroute Hg Hf. unfold Rag.enrich_incident, Rag.bind. rewrite Hroute.
  simpl. unfold Rag.try_except.
  by rewrite (enrich_with_rag_steps sv _ _ _ _ _ _ _ Hg Hf).
Qed.

Lemma enrich_incident_without_neighbors_witness :
  Rag.enrich_incident
    (Scenario.services (Scenario.embedding_fixed Scenario.u34)
       Scenario.first_seen_first)
    Scenario.short_incident VectorRepo.__init__
  = (Ok (Rag.tagged (Rag._enrich_rule_based Scenario.short_incident)
           "rule_based"),
     VectorRepo.final
       (VectorRepo.find_similar Scenario.dot Numpy.insertion_argsort
          VectorRepo.__init__
          (Scenario.at_minute 0 [Scenario.incA; Scenario.incB; Scenario.incC])
          Scenario.u34 5 Rag.resolved_filter)).
Proof.
  apply (enrich_incident_without_neighbors
           (Scenario.services (Scenario.embedding_fixed Scenario.u34)
              Scenario.first_seen_first)
           Scenario.short_incident VectorRepo.__init__ VectorRepo.__init__
           VectorRepo.__init__ _ Scenario.u34).
  - vm_compute. reflexivity.
  - reflexivity.
  - vm_compute. reflexivity.
Defined.

(** X19.  A unanimous vote is followed: when every neighbor carries the
    same severity the vote returns it, and likewise for the category,
    whatever the scores and whatever the rule classifier found. *)
Theorem majority_vote_unanimous
    (similar : list (IncidentResponse * score)) (rule_result : Rag.RuleResult) :
  similar ≠ [] →
  ∃ s c,
    Rag._classify_by_majority_vote similar rule_result = Ok (s, c)
    ∧ (∀ s0, (∀ n, n ∈ similar → severity n.1 = s0) → s = s0)
    ∧ (∀ c0, (∀ n, n ∈ similar → category n.1 = c0) → c = c0).
Proof.
  intros Hne.
  destruct (classify_by_majority_vote_winner similar rule_result Hne)
    as (s & c & Hvote & [(ns & Hns & Hs) _] & [(nc & Hnc & Hc) _]).
  exists s, c. split_and!; [done| |].
  - intros s0 Hall. by rewrite <- Hs, (Hall ns Hns).
  - intros c0 Hall. by rewrite <- Hc, (Hall nc Hnc).
Qed.

Lemma majority_vote_unanimous_witness :
  ∃ s c,
    Rag._classify_by_majority_vote
      [(Scenario.incA, (9 # 10)%Q); (Scenario.incA, (8 # 10)%Q)]
      (Rag._enrich_rule_based Scenario.short_incident) = Ok (s, c)
    ∧ (∀ s0, (∀ n, n ∈ [(Scenario.incA, (9 # 10)%Q); (Scenario.incA, (8 # 10)%Q)]
                   → severity n.1 = s0) → s = s0)
    ∧ (∀ c0, (∀ n, n ∈ [(Scenario.incA, (9 # 10)%Q); (Scenario.incA, (8 # 10)%Q)]
                   → category n.1 = c0) → c = c0).
Proof.
  apply (majority_vote_unanimous
           [(Scenario.incA, (9 # 10)%Q); (Scenario.incA, (8 # 10)%Q)]).
  discriminate.
Defined.

(** X20.  Whatever the iteration order of the set of actions,
    [_generate_action_from_similar] returns the rule-based action when no
    neighbor has a suggested action, and otherwise one of the most
    frequent actions followed by the note counting all the neighbors; an
    action strictly more frequent than every other is always the one
    chosen. *)
Theorem generate_action_majority {W : Type} (sv : Rag.Services W)
    (severity : Severity) (category : Category)
    (similar : list (IncidentResponse * score)) (fallback : string) :
  Rag.set_iteration (Rag.set_iter sv) →
  similar ≠ [] →
  let actions := Rag.actions_of similar in
  let run := Rag._generate_action_from_similar sv severity category similar
               fallback in
  (actions = [] → run = Ok fallback)
  ∧ (actions ≠ [] →
     ∃ a, a ∈ actions
          ∧ (∀ b, b ∈ actions → Rag.count actions b ≤ Rag.count actions a)
          ∧ run = Ok (Spec.based_on a (length similar)))
  ∧ (∀ a, a ∈ actions →
          (∀ b, b ∈ actions → b ≠ a → Rag.count actions b < Rag.count actions a) →
          run = Ok (Spec.based_on a (length similar))).
Proof.
  intros Hset Hne actions run.
  destruct (generate_action_most_frequent sv severity category similar
              fallback Hset Hne) as [Hnone Hsome].
  split_and!; [exact Hnone|exact Hsome|].
  intros a Ha Hstrict.
  destruct Hsome as (a' & Ha' & Hmax & Hrun).
  { intros Hnil. fold actions in Hnil. rewrite Hnil in Ha.
    by apply elem_of_nil in Ha. }
  destruct (decide (a' = a)) as [->|Hneq]; [exact Hrun|].
  specialize (Hstrict a' Ha' Hneq). specialize (Hmax a Ha).
  fold actions in Hmax. lia.
Qed.

Lemma generate_action_majority_witness :
  let similar :=
    [(Scenario.incB, (9 # 10)%Q); (Scenario.incA, (8 # 10)%Q);
     (Scenario.incA, (75 # 100)%Q)] in
  Rag._generate_action_from_similar
    (Scenario.services Scenario.embedding_unavailable Scenario.last_seen_first)
    P2 INTEGRATION_FAILURE similar "Review incident details."
  = Ok "Restart the connector (Based on 3 similar resolved incidents)".
Proof.
  intros similar.
  destruct (generate_action_majority
              (Scenario.services Scenario.embedding_unavailable
                 Scenario.last_seen_first)
              P2 INTEGRATION_FAILURE similar "Review incident details.")
    as (_ & _ & Hstrict).
  - apply last_seen_first_set.
  - discriminate.
  - rewrite (Hstrict "Restart the connector"); [reflexivity| |].
    + vm_compute. right. left.
    + intros b Hb Hneq. vm_compute in Hb.
      apply elem_of_cons in Hb as [->|Hb]; [vm_compute; lia|].
      apply elem_of_cons in Hb as [->|Hb]; [done|].
      apply list_elem_of_singleton in Hb as ->. done.
Defined.

(* ===================================================================== *)
(** * The embedding service *)
(* ===================================================================== *)

(** X22.  The embedding service raises nothing but [RuntimeError].
    Without a client every request raises "OpenAI client not initialized"
    and nothing is sent.  With a client, an embedding request for an
    incident sends the title, two line feeds and the description under the
    model of the service; the vector of the answer is returned as it is,
    and an exception of the client comes back as a [RuntimeError] that
    quotes its message.  The batch request behaves alike. *)
Theorem embedding_service_errors {W : Type}
    (self : Embedding.EmbeddingService W) (title description : string)
    (texts : list string) (w : W) :
  (Embedding.client self = None →
   Embedding.generate_incident_embedding self title description w
   = (Raise (RuntimeError "OpenAI client not initialized. Check OPENAI_API_KEY."),
      w)
   ∧ Embedding.generate_batch_embeddings self texts w
     = (Raise (RuntimeError "OpenAI client not initialized. Check OPENAI_API_KEY."),
        w))
  ∧ (∀ c, Embedding.client self = Some c →
       match Embedding.create_one c (Embedding.model self)
               (title +:+ Embedding.LF +:+ Embedding.LF +:+ description) w with
       | (Ok e, w') =>
           Embedding.generate_incident_embedding self title description w
           = (Ok e, w')
       | (Raise x, w') =>
           Embedding.generate_incident_embedding self title description w
           = (Raise (RuntimeError ("Failed to generate embedding: "
                                   +:+ Embedding.exn_str x)), w')
       end)
  ∧ (∀ x w', (Embedding.generate_incident_embedding self title description w
              = (Raise x, w')
              ∨ Embedding.generate_batch_embeddings self texts w = (Raise x, w'))
             → Spec.is_runtime_error x).
Proof.
  unfold Embedding.generate_incident_embedding, Embedding.generate_embedding,
    Embedding.generate_batch_embeddings, Embedding.raise, Rag.try_except.
  split_and!.
  - by intros ->.
  - intros c ->. by destruct (Embedding.create_one c _ _ w) as [[e|x] w'].
  - intros x w'. destruct (Embedding.client self) as [c|].
    + destruct (Embedding.create_one c _ _ w) as [[e|y] w1];
        destruct (Embedding.create_many c _ _ w) as [[es|z] w2];
        intros [H|H]; try discriminate H; injection H as <- _; by eexists.
    + intros [H|H]; injection H as <- _; by eexists.
Qed.

(** X23.  Building the service: with retrieval switched off it has no
    client, whatever the key; with retrieval switched on it has the
    client made for the key, and a missing or empty key makes the
    construction raise a [ValueError]. *)
Theorem embedding_service_construction {W : Type}
    (use_rag : bool) (openai_api_key : option string)
    (OpenAI : string → Embedding.Client W) :
  match Embedding.__init__ use_rag openai_api_key OpenAI with
  | Ok self =>
      Embedding.model self = "text-embedding-3-small"
      ∧ (use_rag = false → Embedding.client self = None)
      ∧ (use_rag = true →
         ∃ key, openai_api_key = Some key ∧ key ≠ ""
                ∧ Embedding.client self = Some (OpenAI key))
  | Raise e =>
      use_rag = true
      ∧ (openai_api_key = None ∨ openai_api_key = Some "")
      ∧ ∃ msg, e = ValueError msg
  end.
Proof.
  unfold Embedding.__init__.
  destruct use_rag, openai_api_key as [key|]; simpl.
  - case_bool_decide as Hkey.
    + subst key. split_and!; [done|by right|by eexists].
    + split_and!; [done|done|]. intros _. by exists key.
  - split_and!; [done|by left|by eexists].
  - by split_and!.
  - by split_and!.
Qed.

(** X24.  An orchestrator whose embedding service has no client never
    returns a ['rag'] result and never reaches the index: the result is
    the rule-based one, tagged ['rule_based_fallback'] when the force
    flag, an Unknown category or a short description escalated, and
    ['rule_based'] otherwise. *)
Theorem enrich_incident_without_embedding_client {W : Type}
    (sv : Rag.Services W) (self : Embedding.EmbeddingService W)
    (incident : IncidentCreate) (w : W) :
  Embedding.client self = None →
  Rag.generate_incident_embedding sv
  = Embedding.generate_incident_embedding self →
  Rag.enrich_incident sv incident w
  = (Ok (Rag.tagged (Rag._enrich_rule_based incident)
           (if Spec.escalates_early sv incident
            then "rule_based_fallback" else "rule_based")), w).
Proof.
  intros Hclient Hgen.
  assert (Hraise : ∀ t d w0,
    Rag.generate_incident_embedding sv t d w0
    = (Raise (RuntimeError "OpenAI client not initialized. Check OPENAI_API_KEY."),
       w0)).
  { intros t d w0. rewrite Hgen.
    unfold Embedding.generate_incident_embedding, Embedding.generate_embedding.
    by rewrite Hclient. }
  assert (Hrag : Rag._enrich_with_rag sv incident
                   (Rag._enrich_rule_based incident) w
                 = (Raise (RuntimeError
                     "OpenAI client not initialized. Check OPENAI_API_KEY."), w)).
  { unfold Rag._enrich_with_rag, Rag.bind. by rewrite Hraise. }
  unfold Rag.enrich_incident, Rag.bind, Rag._should_use_rag,
    Spec.escalates_early.
  change (Rag.rule_category (Rag._enrich_rule_based incident))
    with (Rules.determine_category incident).
  destruct (Rag.rag_force_all sv); simpl.
  { unfold Rag.try_except. by rewrite Hrag. }
  destruct (bool_decide (Rules.determine_category incident = UNKNOWN)); simpl.
  { unfold Rag.try_except. by rewrite Hrag. }
  destruct (Str.len (ic_description incident) <? 50); simpl.
  { unfold Rag.try_except. by rewrite Hrag. }
  unfold Rag.try_except, Rag.bind. by rewrite Hraise.
Qed.

Lemma enrich_incident_without_embedding_client_witness :
  let sv incident :=
    {| Rag.rag_force_all := false;
       Rag.rag_max_similar_incidents := 5%Z;
       Rag.generate_incident_embedding :=
         Embedding.generate_incident_embedding Scenario.service_without_client;
       Rag.vector_repo_find_similar := Scenario.memory_find_similar;
       Rag.llm_client := None;
       Rag.set_iter := Scenario.first_seen_first |} in
  Rag.enrich_incident (sv tt) Scenario.long_incident Scenario.index_abc
  = (Ok (Rag.tagged (Rag._enrich_rule_based Scenario.long_incident)
           "rule_based"), Scenario.index_abc)
  ∧ Rag.enrich_incident (sv tt) Scenario.short_incident Scenario.index_abc
    = (Ok (Rag.tagged (Rag._enrich_rule_based Scenario.short_incident)
             "rule_based_fallback"), Scenario.index_abc).
Proof.
  intros sv. split.
  - apply (enrich_incident_without_embedding_client (sv tt)
             Scenario.service_without_client Scenario.long_incident
             Scenario.index_abc); reflexivity.
  - apply (enrich_incident_without_embedding_client (sv tt)
             Scenario.service_without_client Scenario.short_incident
             Scenario.index_abc); reflexivity.
Defined.

(* ===================================================================== *)
(** * The in-memory incident store *)
(* ===================================================================== *)

Example list_all_store4 :
  match MockRepo.list_all Scenario.fromisoformat Scenario.store4 2 None
          (Some "resolved") None None with
  | Ok (page, next) => (id <$> page, next)
  | Raise _ => ([], None)
  end
  = (["i-4"; "i-3"], Some {[ "id" := MockRepo.VStr "i-3" ]}).
Proof. vm_compute. reflexivity. Qed.

Section StoreFacts.

Import MockRepo.

Variable fromisoformat : string → result datetime.

Lemma storage_get_set st k v k' :
  storage_get (storage_set st k v) k'
  = if decide (k = k') then Some v else storage_get st k'.
Proof.
  induction st as [|[k0 v0] st IH]; simpl.
  - by destruct (decide (k = k')).
  - destruct (decide (k0 = k)) as [->|Hne]; simpl.
    + by destruct (decide (k = k')).
    + destruct (decide (k0 = k')) as [->|Hne'].
      * by rewrite decide_False.
      * exact IH.
Qed.

Lemma storage_set_keys st k v :
  (storage_set st k v).*1
  = if decide (k ∈ st.*1) then st.*1 else st.*1 ++ [k].
Proof.
  induction st as [|[k0 v0] st IH].
  - rewrite decide_False; [done|]. intros Hin. by apply elem_of_nil in Hin.
  - cbn [storage_set]. rewrite (fmap_cons fst (k0, v0) st). cbn [fst].
    destruct (decide (k0 = k)) as [->|Hne].
    + rewrite decide_True by left. done.
    + rewrite fmap_cons, IH. cbn [fst].
      destruct (decide (k ∈ st.*1)) as [Hin|Hnin].
      * rewrite decide_True by (by right). done.
      * rewrite decide_False; [done|].
        intros [->|Hin]%elem_of_cons; done.
Qed.

Lemma storage_get_Some st k v :
  storage_get st k = Some v → (k, v) ∈ st.
Proof.
  induction st as [|[k0 v0] st IH]; simpl; [done|].
  destruct (decide (k0 = k)) as [->|Hne].
  - intros [= ->]. left.
  - intros H. right. by apply IH.
Qed.

Lemma storage_get_is_Some st k :
  is_Some (storage_get st k) ↔ k ∈ st.*1.
Proof.
  induction st as [|[k0 v0] st IH]; simpl.
  - split; [by intros [? ?]|]. intros Hin. by apply elem_of_nil in Hin.
  - destruct (decide (k0 = k)) as [->|Hne].
    + split; [intros _; left|by eauto].
    + rewrite IH. split; [by right|].
      intros [?|?]%elem_of_cons; [congruence|done].
Qed.

(** What a successful conversion tells about the dict. *)
Lemma dict_to_response_inv it r :
  _dict_to_response fromisoformat it = Ok r →
  it !! "id" = Some (VStr (id r))
  ∧ (∃ v, it !! "status" = Some v ∧ IncidentStatus_of v = Ok (status r))
  ∧ (∃ v, it !! "severity" = Some v ∧ Severity_of v = Ok (severity r))
  ∧ (∃ v, it !! "created_at" = Some v
          ∧ parse_datetime fromisoformat v = Ok (created_at r))
  ∧ it !! "title" = Some (VStr (title r))
  ∧ it !! "description" = Some (VStr (description r)).
Proof.
  unfold _dict_to_response, rbind, getitem, required_str.
  intros H.
  repeat match type of H with
         | context [match ?x with _ => _ end] =>
             lazymatch x with
             | context [match _ with _ => _ end] => fail
             | _ => destruct x eqn:?; try discriminate H
             end
         end.
  injection H as <-. cbn [id status severity created_at title description].
  split_and!; first [reflexivity | eexists; split; [reflexivity|eassumption]].
Qed.

Lemma convert_all_spec st rs :
  convert_all fromisoformat st = Ok rs →
  Forall2 (λ kv r, _dict_to_response fromisoformat kv.2 = Ok r) st rs.
Proof.
  revert rs. induction st as [|[k it] st IH]; intros rs H; simpl in H.
  - injection H as <-. constructor.
  - unfold rbind in H.
    destruct (_dict_to_response fromisoformat it) as [r|e] eqn:Er; [|done].
    destruct (convert_all fromisoformat st) as [rs'|e]; [|done].
    injection H as <-. constructor; [done|by apply IH].
Qed.

Lemma convert_all_poisoned st k it e :
  (k, it) ∈ st → _dict_to_response fromisoformat it = Raise e →
  ∃ e', convert_all fromisoformat st = Raise e'.
Proof.
  intros Hin Hbad. induction st as [|[k0 it0] st IH];
    [by apply elem_of_nil in Hin|].
  simpl. unfold rbind.
  apply elem_of_cons in Hin as [[= <- <-]|Hin].
  - rewrite Hbad. eauto.
  - destruct (_dict_to_response fromisoformat it0); [|eauto].
    destruct (IH Hin) as [e' ->]. eauto.
Qed.

Lemma filter_by_sublist field f l : filter_by field f l `sublist_of` l.
Proof.
  unfold filter_by. destruct f as [v|]; [|done].
  case_bool_decide; [done|]. apply sublist_filter.
Qed.

Lemma Forall_sublist_of {A} (P : A → Prop) (l1 l2 : list A) :
  l1 `sublist_of` l2 → Forall P l2 → Forall P l1.
Proof.
  rewrite !Forall_forall. intros Hs H x Hx. eauto using elem_of_sublist.
Qed.

Lemma filter_by_set field f v l :
  Spec.filter_set f v → Forall (λ inc, field inc = v) (filter_by field f l).
Proof.
  intros [-> Hv]. unfold filter_by. rewrite bool_decide_eq_false_2 by done.
  apply Forall_forall. intros inc Hin.
  by apply list_elem_of_filter in Hin as [? _].
Qed.

Lemma insert_newest_first_perm x l :
  Permutation (insert_newest_first x l) (x :: l).
Proof.
  induction l as [|y l IH]; simpl; [done|].
  destruct (created_at x <=? created_at y)%Z; [|done].
  rewrite IH. apply perm_swap.
Qed.

Lemma insert_newest_first_sorted x l :
  Spec.newest_first l → Spec.newest_first (insert_newest_first x l).
Proof.
  unfold Spec.newest_first. induction 1 as [|y l Hl IH Hy]; simpl.
  - repeat constructor.
  - destruct (created_at x <=? created_at y)%Z eqn:E.
    + apply Z.leb_le in E. constructor; [done|].
      rewrite insert_newest_first_perm. by constructor.
    + apply Z.leb_gt in E. constructor; [by constructor|].
      constructor; [lia|]. eapply Forall_impl; [exact Hy|]. simpl. lia.
Qed.

Lemma sort_newest_first_spec l :
  Permutation (sort_newest_first l) l ∧ Spec.newest_first (sort_newest_first l).
Proof.
  unfold sort_newest_first.
  assert (H : ∀ acc, Spec.newest_first acc →
    Permutation (fold_left (λ sorted x, insert_newest_first x sorted) l acc)
      (acc ++ l)
    ∧ Spec.newest_first
        (fold_left (λ sorted x, insert_newest_first x sorted) l acc)).
  { induction l as [|x l IH]; intros acc Hacc; simpl.
    - by rewrite app_nil_r.
    - destruct (IH (insert_newest_first x acc)) as [Hp Hs].
      { by apply insert_newest_first_sorted. }
      split; [|done]. rewrite Hp, insert_newest_first_perm. simpl.
      apply Permutation_middle. }
  destruct (H []) as [Hp Hs]; [constructor|]. by split.
Qed.

Lemma py_slice_sublist {A} (l : list A) start stop :
  py_slice l start stop `sublist_of` l.
Proof.
  unfold py_slice. etrans; [apply sublist_take|apply sublist_drop].
Qed.

Lemma py_slice_nonneg {A} (l : list A) start (limit : Z) :
  (0 ≤ limit)%Z →
  py_slice l start (Z.of_nat start + limit)
  = take (Z.to_nat limit) (drop start l).
Proof.
  intros Hl. unfold py_slice.
  rewrite (proj2 (Z.ltb_ge _ _)) by lia.
  destruct (decide (Z.of_nat start + limit ≤ Z.of_nat (length l))%Z).
  - rewrite Z.min_l by lia. f_equal. lia.
  - rewrite Z.min_r by lia.
    rewrite !take_ge; [done|rewrite length_drop; lia|rewrite length_drop; lia].
Qed.

(** The incidents of a listing are stored, match the filters that are set
    and come newest first. *)
Lemma listing_spec st sf vf mf all :
  listing fromisoformat st sf vf mf = Ok all →
  Spec.newest_first all
  ∧ Forall (Spec.stored fromisoformat st) all
  ∧ (∀ v, Spec.filter_set sf v →
          Forall (λ inc, status_value (status inc) = v) all)
  ∧ (∀ v, Spec.filter_set vf v →
          Forall (λ inc, severity_value (severity inc) = v) all)
  ∧ (∀ v, Spec.filter_set mf v → Forall (λ inc, erp_module inc = v) all).
Proof.
  unfold listing, rbind.
  destruct (convert_all fromisoformat st) as [rs|e] eqn:Ec; [|done].
  intros [= <-]. apply convert_all_spec in Ec.
  destruct (sort_newest_first_spec
              (filter_by erp_module mf
                 (filter_by (λ inc, severity_value (severity inc)) vf
                    (filter_by (λ inc, status_value (status inc)) sf rs))))
    as [Hperm Hsorted].
  assert (Hstored : Forall (Spec.stored fromisoformat st) rs).
  { apply Forall_forall. intros r Hr.
    apply list_elem_of_lookup in Hr as [i Hi].
    destruct (Forall2_lookup_r _ _ _ _ _ Ec Hi) as ([k it] & Hk & Hconv).
    exists k, it. split; [by eapply list_elem_of_lookup_2|done]. }
  assert (Hmove : ∀ P : IncidentResponse → Prop,
            Forall P (filter_by erp_module mf
                        (filter_by (λ inc, severity_value (severity inc)) vf
                           (filter_by (λ inc, status_value (status inc)) sf rs))) →
            Forall P (sort_newest_first
                        (filter_by erp_module mf
                           (filter_by (λ inc, severity_value (severity inc)) vf
                              (filter_by (λ inc, status_value (status inc)) sf
                                 rs))))).
  { intros P HP. apply Forall_forall. intros x Hx.
    rewrite Forall_forall in HP. apply HP.
    by rewrite <- Hperm. }
  split_and!; [done|..].
  - apply Hmove. eapply Forall_sublist_of; [|exact Hstored].
    etrans; [apply filter_by_sublist|].
    etrans; [apply filter_by_sublist|]. apply filter_by_sublist.
  - intros v Hv. apply Hmove. eapply Forall_sublist_of.
    + etrans; apply filter_by_sublist.
    + by apply filter_by_set.
  - intros v Hv. apply Hmove. eapply Forall_sublist_of.
    + apply filter_by_sublist.
    + by apply filter_by_set.
  - intros v Hv. apply Hmove. by apply filter_by_set.
Qed.

(** A page is a stretch of the listing. *)
Lemma list_all_page st limit last_key sf vf mf page next :
  list_all fromisoformat st limit last_key sf vf mf = Ok (page, next) →
  ∃ all,
    listing fromisoformat st sf vf mf = Ok all
    ∧ page = py_slice all (start_index last_key all)
               (Z.of_nat (start_index last_key all) + limit)
    ∧ (next = None
       ↔ (Z.of_nat (length all)
          ≤ Z.of_nat (start_index last_key all) + limit)%Z)
    ∧ (∀ k, next = Some k → ∃ inc, last page = Some inc ∧ k = Spec.key_of inc).
Proof.
  unfold list_all, rbind.
  destruct (listing fromisoformat st sf vf mf) as [all|e]; [|done].
  intros H. exists all. split; [done|].
  destruct (_ <? _)%Z eqn:E.
  - apply Z.ltb_lt in E. destruct (last _) as [inc|] eqn:El; [|done].
    injection H as <- <-. split_and!; [done| |].
    + split; [done|lia].
    + intros k [= <-]. by exists inc.
  - apply Z.ltb_ge in E. injection H as <- <-. split_and!; [done| |done].
    split; [lia|done].
Qed.

Lemma index_after_unique key l p inc offset :
  NoDup (id <$> l) → l !! p = Some inc → key = VStr (id inc) →
  index_after key l offset = Some (offset + p + 1).
Proof.
  intros Hnd Hp ->. revert p offset Hp.
  induction l as [|x l IH]; intros p offset Hp; [done|].
  rewrite fmap_cons in Hnd. apply NoDup_cons in Hnd as [Hx Hnd].
  simpl. destruct p as [|p]; simpl in Hp.
  - injection Hp as ->. rewrite decide_True by done. f_equal. lia.
  - rewrite decide_False.
    + rewrite (IH Hnd p (offset + 1) Hp). f_equal. lia.
    + intros [= Hid]. apply Hx. rewrite Hid.
      apply list_elem_of_fmap. exists inc. split; [done|].
      by eapply list_elem_of_lookup_2.
Qed.

Lemma sublist_newest_first l1 l2 :
  l1 `sublist_of` l2 → Spec.newest_first l2 → Spec.newest_first l1.
Proof.
  unfold Spec.newest_first. induction 1 as [|x l1 l2 Hs IH|x l1 l2 Hs IH].
  - done.
  - intros [Hx Hl]%StronglySorted_cons. apply StronglySorted_cons.
    split; [by eapply Forall_sublist_of|by apply IH].
  - intros [_ Hl]%StronglySorted_cons. by apply IH.
Qed.

Lemma storage_set_elem st k v kv :
  kv ∈ storage_set st k v → kv ∈ st ∨ kv = (k, v).
Proof.
  induction st as [|[k0 v0] st IH]; simpl.
  - intros ->%list_elem_of_singleton. by right.
  - destruct (decide (k0 = k)) as [->|Hne].
    + intros [->|Hin]%elem_of_cons; [by right|left; by right].
    + intros [->|Hin]%elem_of_cons; [left; left|].
      destruct (IH Hin) as [?|?]; [left; by right|by right].
Qed.

Lemma well_keyed_set st k it :
  Spec.well_keyed st → it !! "id" = Some k →
  Spec.well_keyed (storage_set st k it).
Proof.
  intros [Hnd Hid] Hk. split.
  - rewrite storage_set_keys. destruct (decide (k ∈ st.*1)); [done|].
    apply NoDup_app. split_and!; [done| |apply NoDup_singleton].
    intros x Hx ->%list_elem_of_singleton. done.
  - apply Forall_forall. intros kv [Hin| ->]%storage_set_elem; [|done].
    rewrite Forall_forall in Hid. by apply Hid.
Qed.

Lemma updated_item_id (upd it : item) now :
  (<[ "updated_at" := VStr now ]>
     (filter (λ kv : string * pyval, kv.1 ≠ "id") upd ∪ it)) !! "id"
  = it !! "id".
Proof.
  unfold item in *. rewrite lookup_insert_ne by done.
  rewrite lookup_union_r; [done|].
  apply map_lookup_filter_None. right. intros x _ Hne. by apply Hne.
Qed.

Lemma well_keyed_lookup st k it :
  Spec.well_keyed st → storage_get st k = Some it → it !! "id" = Some k.
Proof.
  intros [_ Hid] Hget. apply storage_get_Some in Hget.
  rewrite Forall_forall in Hid. exact (Hid _ Hget).
Qed.

(** In a well-keyed store the incidents converted carry the keys of the
    store, so no identifier occurs twice in a listing. *)
Lemma convert_all_keys st rs :
  Spec.well_keyed st → convert_all fromisoformat st = Ok rs →
  VStr <$> (id <$> rs) = st.*1.
Proof.
  intros [_ Hid] Hc. apply convert_all_spec in Hc.
  induction Hc as [|[k it] r st rs Hr _ IH]; [done|].
  apply Forall_cons in Hid as [Hk Hid]. simpl in Hk, Hr.
  apply dict_to_response_inv in Hr as (Hr & _).
  rewrite !fmap_cons. cbn [fst]. f_equal; [congruence|by apply IH].
Qed.

Lemma listing_ids_distinct st sf vf mf all :
  Spec.well_keyed st → listing fromisoformat st sf vf mf = Ok all →
  NoDup (id <$> all).
Proof.
  intros Hwk. unfold listing, rbind.
  destruct (convert_all fromisoformat st) as [rs|e] eqn:Ec; [|done].
  intros [= <-].
  assert (Hrs : NoDup (id <$> rs)).
  { apply (NoDup_fmap_1 VStr). rewrite (convert_all_keys _ _ Hwk Ec).
    apply Hwk. }
  destruct (sort_newest_first_spec
              (filter_by erp_module mf
                 (filter_by (λ inc, severity_value (severity inc)) vf
                    (filter_by (λ inc, status_value (status inc)) sf rs))))
    as [Hperm _].
  rewrite Hperm. eapply sublist_NoDup; [exact Hrs|].
  apply sublist_map.
  etrans; [apply filter_by_sublist|].
  etrans; [apply filter_by_sublist|]. apply filter_by_sublist.
Qed.

Lemma list_all_after st limit sf vf mf all p inc :
  listing fromisoformat st sf vf mf = Ok all →
  NoDup (id <$> all) → all !! p = Some inc → (0 < limit)%Z →
  ∃ next,
    list_all fromisoformat st limit (Some (Spec.key_of inc)) sf vf mf
    = Ok (take (Z.to_nat limit) (drop (S p) all), next)
    ∧ (next = None ↔ (Z.of_nat (length all) ≤ Z.of_nat (S p) + limit)%Z)
    ∧ (∀ k, next = Some k →
         ∃ inc', all !! (p + Z.to_nat limit) = Some inc'
                 ∧ k = Spec.key_of inc').
Proof.
  intros Hall Hnd Hp Hlimit. unfold list_all, rbind. rewrite Hall.
  assert (Hstart : start_index (Some (Spec.key_of inc)) all = S p).
  { unfold start_index, Spec.key_of. rewrite lookup_singleton_eq.
    rewrite (index_after_unique _ _ p inc 0 Hnd Hp eq_refl). simpl.
    f_equal. lia. }
  rewrite Hstart. rewrite py_slice_nonneg by lia.
  destruct (Z.of_nat (S p) + limit <? Z.of_nat (length all))%Z eqn:E.
  - apply Z.ltb_lt in E.
    assert (Hq : is_Some (all !! (p + Z.to_nat limit))).
    { apply lookup_lt_is_Some. lia. }
    destruct Hq as [inc' Hq].
    assert (Hlast : last (take (Z.to_nat limit) (drop (S p) all)) = Some inc').
    { rewrite last_lookup. rewrite length_take, length_drop.
      rewrite Nat.min_l by lia.
      rewrite lookup_take_lt by lia. rewrite lookup_drop.
      rewrite <- Hq. f_equal. lia. }
    rewrite Hlast. eexists. split; [reflexivity|]. split.
    + split; [done|lia].
    + intros k [= <-]. by exists inc'.
  - apply Z.ltb_ge in E. eexists. split; [reflexivity|]. split.
    + split; [lia|done].
    + done.
Qed.

End StoreFacts.

(** The store of the scenario is well keyed. *)
Lemma store4_well_keyed : Spec.well_keyed Scenario.store4.
Proof.
  split.
  - refine (bool_decide_unpack _ _). vm_compute. exact I.
  - refine (bool_decide_unpack _ _). vm_compute. exact I.
Defined.

(** X25.  [create] keeps the dict under its ['id'] whether or not it
    converts: [get_by_id] on that identifier answers what [create]
    answered (the incident, or the same exception), every other
    identifier answers as before, and once [create] has raised on the
    conversion every [list_all] raises. *)
Theorem create_then_get_by_id
    (fromisoformat : string → result datetime) (st : MockRepo.storage)
    (incident_data : MockRepo.item) (i : string) :
  incident_data !! "id" = Some (MockRepo.VStr i) →
  let created := MockRepo.create fromisoformat st incident_data in
  MockRepo.get_by_id fromisoformat created.2 i
  = match created.1 with Ok r => Ok (Some r) | Raise e => Raise e end
  ∧ (∀ j, j ≠ i →
       MockRepo.get_by_id fromisoformat created.2 j
       = MockRepo.get_by_id fromisoformat st j)
  ∧ (∀ e, created.1 = Raise e →
       ∀ limit last_key sf vf mf, ∃ e',
         MockRepo.list_all fromisoformat created.2 limit last_key sf vf mf
         = Raise e').
Proof.
  intros Hid. unfold MockRepo.create, MockRepo.getitem. rewrite Hid.
  cbv zeta. cbn [fst snd]. split_and!.
  - unfold MockRepo.get_by_id. rewrite storage_get_set.
    rewrite decide_True by done. unfold MockRepo.rbind.
    by destruct (MockRepo._dict_to_response fromisoformat incident_data).
  - intros j Hj. unfold MockRepo.get_by_id. rewrite storage_get_set.
    rewrite decide_False; [done|]. intros [= ->]. done.
  - intros e He limit last_key sf vf mf.
    destruct (convert_all_poisoned fromisoformat
                (MockRepo.storage_set st (MockRepo.VStr i) incident_data)
                (MockRepo.VStr i) incident_data e) as [e' He'].
    + apply storage_get_Some. rewrite storage_get_set.
      by rewrite decide_True.
    + exact He.
    + exists e'. unfold MockRepo.list_all, MockRepo.listing, MockRepo.rbind.
      by rewrite He'.
Qed.

Lemma create_then_get_by_id_witness :
  let created :=
    MockRepo.create Scenario.fromisoformat Scenario.store4
      (Scenario.stored_item "i-5" "escalated" "2024-01-03T00:00:00") in
  MockRepo.get_by_id Scenario.fromisoformat created.2 "i-5"
  = match created.1 with Ok r => Ok (Some r) | Raise e => Raise e end
  ∧ (∀ j, j ≠ "i-5" →
       MockRepo.get_by_id Scenario.fromisoformat created.2 j
       = MockRepo.get_by_id Scenario.fromisoformat Scenario.store4 j)
  ∧ (∀ e, created.1 = Raise e →
       ∀ limit last_key sf vf mf, ∃ e',
         MockRepo.list_all Scenario.fromisoformat created.2 limit last_key
           sf vf mf
         = Raise e').
Proof.
  apply (create_then_get_by_id Scenario.fromisoformat Scenario.store4
           (Scenario.stored_item "i-5" "escalated" "2024-01-03T00:00:00")
           "i-5").
  vm_compute. reflexivity.
Defined.

(** X26.  A page returned by [list_all] comes newest first, holds
    conversions of stored dicts only, respects each filter that is set to
    a string that is not empty, and is no longer than a limit that is not
    negative. *)
Theorem list_all_page_properties
    (fromisoformat : string → result datetime) (st : MockRepo.storage)
    (limit : Z) (last_key : option (gmap string MockRepo.pyval))
    (sf vf mf : option string)
    (page : list IncidentResponse)
    (next : option (gmap string MockRepo.pyval)) :
  MockRepo.list_all fromisoformat st limit last_key sf vf mf
  = Ok (page, next) →
  Spec.newest_first page
  ∧ Forall (Spec.stored fromisoformat st) page
  ∧ (∀ v, Spec.filter_set sf v →
          Forall (λ inc, status_value (status inc) = v) page)
  ∧ (∀ v, Spec.filter_set vf v →
          Forall (λ inc, severity_value (severity inc) = v) page)
  ∧ (∀ v, Spec.filter_set mf v → Forall (λ inc, erp_module inc = v) page)
  ∧ ((0 ≤ limit)%Z → (Z.of_nat (length page) ≤ limit)%Z).
Proof.
  intros H. apply list_all_page in H as (all & Hall & -> & _ & _).
  apply listing_spec in Hall as (Hsorted & Hstored & Hsf & Hvf & Hmf).
  pose proof (py_slice_sublist all
                (MockRepo.start_index last_key all)
                (Z.of_nat (MockRepo.start_index last_key all) + limit))
    as Hsub.
  split_and!.
  - by eapply sublist_newest_first.
  - by eapply Forall_sublist_of.
  - intros v Hv. eapply Forall_sublist_of; [done|by apply Hsf].
  - intros v Hv. eapply Forall_sublist_of; [done|by apply Hvf].
  - intros v Hv. eapply Forall_sublist_of; [done|by apply Hmf].
  - intros Hl. rewrite py_slice_nonneg by done. rewrite length_take. lia.
Qed.

Lemma list_all_page_properties_witness :
  ∃ page,
    (id <$> page = ["i-4"; "i-3"])
    ∧ Spec.newest_first page
    ∧ Forall (Spec.stored Scenario.fromisoformat Scenario.store4) page
    ∧ (∀ v, Spec.filter_set (Some "resolved") v →
            Forall (λ inc, status_value (status inc) = v) page)
    ∧ (∀ v, Spec.filter_set None v →
            Forall (λ inc, severity_value (severity inc) = v) page)
    ∧ (∀ v, Spec.filter_set None v → Forall (λ inc, erp_module inc = v) page)
    ∧ ((0 ≤ 2)%Z → (Z.of_nat (length page) ≤ 2)%Z).
Proof.
  destruct (MockRepo.list_all Scenario.fromisoformat Scenario.store4 2 None
              (Some "resolved") None None) as [[page next]|e] eqn:E;
    [|vm_compute in E; discriminate E].
  exists page. split.
  - vm_compute in E. injection E as <- _. reflexivity.
  - exact (list_all_page_properties Scenario.fromisoformat Scenario.store4 2
             None (Some "resolved") None None page next E).
Defined.

(** X27.  Pagination walks the listing in windows.  In a well-keyed store
    and for a positive limit, a call that starts at the top (no key) or
    right after the incident its key names returns the next [limit]
    incidents of the listing; it returns no key when the listing ends
    there, and otherwise a key that makes the following call start
    right after this page. *)
Theorem list_all_pagination
    (fromisoformat : string → result datetime) (st : MockRepo.storage)
    (limit : Z) (sf vf mf : option string) (all : list IncidentResponse)
    (last_key : option (gmap string MockRepo.pyval)) (start : nat) :
  Spec.well_keyed st →
  (0 < limit)%Z →
  MockRepo.listing fromisoformat st sf vf mf = Ok all →
  Spec.resumes_at all last_key start →
  ∃ next,
    MockRepo.list_all fromisoformat st limit last_key sf vf mf
    = Ok (take (Z.to_nat limit) (drop start all), next)
    ∧ match next with
      | None => (Z.of_nat (length all) ≤ Z.of_nat start + limit)%Z
      | Some k =>
          (Z.of_nat start + limit < Z.of_nat (length all))%Z
          ∧ Spec.resumes_at all (Some k) (start + Z.to_nat limit)
      end.
Proof.
  intros Hwk Hlimit Hall Hstart.
  pose proof (listing_ids_distinct fromisoformat _ _ _ _ _ Hwk Hall) as Hnd.
  destruct last_key as [k|]; cbn [Spec.resumes_at] in Hstart.
  - destruct Hstart as (p & inc & Hp & -> & ->).
    destruct (list_all_after fromisoformat st limit sf vf mf all p inc
                Hall Hnd Hp Hlimit) as (next & Heq & Hnone & Hsome).
    exists next. split; [done|]. destruct next as [k|].
    + destruct (Hsome k eq_refl) as (inc' & Hq & ->). split.
      * destruct (decide (Z.of_nat (S p) + limit
                          < Z.of_nat (length all))%Z) as [?|Hge]; [done|].
        destruct Hnone as [_ Hnone]. by specialize (Hnone ltac:(lia)).
      * exists (p + Z.to_nat limit), inc'. split_and!; [done..|lia].
    + by apply Hnone.
  - subst start.
    unfold MockRepo.list_all, MockRepo.rbind. rewrite Hall.
    cbn [MockRepo.start_index]. rewrite py_slice_nonneg by lia.
    rewrite drop_0.
    destruct (Z.of_nat 0 + limit <? Z.of_nat (length all))%Z eqn:E.
    + apply Z.ltb_lt in E.
      assert (Hq : is_Some (all !! (Z.to_nat limit - 1))).
      { apply lookup_lt_is_Some. lia. }
      destruct Hq as [inc Hq].
      assert (Hlast : last (take (Z.to_nat limit) all) = Some inc).
      { rewrite last_lookup, length_take, Nat.min_l by lia.
        rewrite lookup_take_lt by lia. rewrite <- Hq. f_equal. lia. }
      rewrite Hlast. eexists. split; [reflexivity|].
      split; [lia|]. exists (Z.to_nat limit - 1), inc.
      split_and!; [done..|lia].
    + apply Z.ltb_ge in E. eexists. split; [reflexivity|].
      cbv beta iota. lia.
Qed.

Lemma list_all_pagination_witness :
  ∃ all page next,
    id <$> all = ["i-4"; "i-3"; "i-2"; "i-1"]
    ∧ id <$> page = ["i-2"; "i-1"]
    ∧ MockRepo.list_all Scenario.fromisoformat Scenario.store4 2
        (Some {[ "id" := MockRepo.VStr "i-3" ]}) None None None
      = Ok (page, next)
    ∧ match next with
      | None => (Z.of_nat (length all) ≤ Z.of_nat 2 + 2)%Z
      | Some k =>
          (Z.of_nat 2 + 2 < Z.of_nat (length all))%Z
          ∧ Spec.resumes_at all (Some k) (2 + Z.to_nat 2)
      end.
Proof.
  destruct (MockRepo.listing Scenario.fromisoformat Scenario.store4
              None None None) as [all|e] eqn:E;
    [|vm_compute in E; discriminate E].
  assert (Hall : all = match MockRepo.listing Scenario.fromisoformat
                               Scenario.store4 None None None with
                       | Ok l => l
                       | Raise _ => []
                       end) by (by rewrite E).
  vm_compute in Hall.
  destruct (list_all_pagination Scenario.fromisoformat Scenario.store4 2
              None None None all
              (Some {[ "id" := MockRepo.VStr "i-3" ]}) 2) as (next & Heq & Hn).
  - exact store4_well_keyed.
  - lia.
  - exact E.
  - subst all. eexists 1, _. split_and!; [reflexivity| |reflexivity].
    vm_compute. reflexivity.
  - exists all, (take (Z.to_nat 2) (drop 2 all)), next.
    split_and!; [by subst all|by subst all|exact Heq|exact Hn].
Defined.

(** X28.  The store stays a dict of dicts keyed by identifier: [create],
    [update] and [clear] keep a well-keyed store well keyed ([update]
    never rewrites an ['id']), and no identifier occurs twice in a listing
    of such a store. *)
Theorem store_stays_well_keyed
    (fromisoformat : string → result datetime) (st : MockRepo.storage) :
  Spec.well_keyed st →
  (∀ incident_data,
     Spec.well_keyed (MockRepo.create fromisoformat st incident_data).2)
  ∧ (∀ i update_data now,
       Spec.well_keyed (MockRepo.update fromisoformat st i update_data now).2)
  ∧ Spec.well_keyed (MockRepo.clear st)
  ∧ (∀ sf vf mf all,
       MockRepo.listing fromisoformat st sf vf mf = Ok all →
       NoDup (id <$> all)).
Proof.
  intros Hwk. split_and!.
  - intros data. unfold MockRepo.create, MockRepo.getitem.
    destruct (data !! "id") as [k|] eqn:Hk; [|done].
    cbn [snd]. by apply well_keyed_set.
  - intros i upd now. unfold MockRepo.update.
    destruct (MockRepo.storage_get st (MockRepo.VStr i)) as [it|] eqn:Hget;
      [|done].
    cbv zeta. cbn [snd]. apply well_keyed_set; [done|].
    rewrite updated_item_id. by eapply well_keyed_lookup.
  - split; constructor.
  - intros sf vf mf all. by apply listing_ids_distinct.
Qed.

Lemma store_stays_well_keyed_witness :
  (∀ incident_data,
     Spec.well_keyed
       (MockRepo.create Scenario.fromisoformat Scenario.store4
          incident_data).2)
  ∧ (∀ i update_data now,
       Spec.well_keyed
         (MockRepo.update Scenario.fromisoformat Scenario.store4 i
            update_data now).2)
  ∧ Spec.well_keyed (MockRepo.clear Scenario.store4)
  ∧ (∀ sf vf mf all,
       MockRepo.listing Scenario.fromisoformat Scenario.store4 sf vf mf
       = Ok all →
       NoDup (id <$> all)).
Proof.
  apply (store_stays_well_keyed Scenario.fromisoformat Scenario.store4).
  exact store4_well_keyed.
Defined.

(** X29.  [update] on a stored identifier changes that one dict in place:
    its ['id'] is kept even when the update names one, ['updated_at']
    becomes the time of the call, every other key takes the value of the
    update when the update has it and keeps its own otherwise; the answer
    is the conversion of the dict as changed, the keys of the store keep
    their order and the other dicts are untouched. *)
Theorem update_changes_one_dict
    (fromisoformat : string → result datetime) (st : MockRepo.storage)
    (i : string) (update_data : gmap string MockRepo.pyval) (now : string)
    (it : MockRepo.item) :
  MockRepo.storage_get st (MockRepo.VStr i) = Some it →
  let updated := MockRepo.update fromisoformat st i update_data now in
  ∃ it',
    MockRepo.storage_get updated.2 (MockRepo.VStr i) = Some it'
    ∧ it' !! "id" = it !! "id"
    ∧ it' !! "updated_at" = Some (MockRepo.VStr now)
    ∧ (∀ k, k ≠ "id" → k ≠ "updated_at" →
         it' !! k = match update_data !! k with
                    | Some v => Some v
                    | None => it !! k
                    end)
    ∧ updated.1 = match MockRepo._dict_to_response fromisoformat it' with
                  | Ok r => Ok (Some r)
                  | Raise e => Raise e
                  end
    ∧ updated.2.*1 = st.*1
    ∧ (∀ k, k ≠ MockRepo.VStr i →
         MockRepo.storage_get updated.2 k = MockRepo.storage_get st k).
Proof.
  intros Hget. unfold MockRepo.update. rewrite Hget. cbv zeta. cbn [fst snd].
  eexists. split_and!.
  - rewrite storage_get_set. by rewrite decide_True.
  - apply updated_item_id.
  - unfold MockRepo.item in *. by rewrite lookup_insert_eq.
  - intros k Hid Hup. unfold MockRepo.item in *.
    rewrite lookup_insert_ne by done. rewrite lookup_union.
    rewrite map_lookup_filter.
    destruct (update_data !! k) as [v|] eqn:Hk; simpl.
    + rewrite option_guard_True by done. simpl.
      by destruct (it !! k).
    + by destruct (it !! k).
  - done.
  - rewrite storage_set_keys. rewrite decide_True; [done|].
    apply storage_get_is_Some. by rewrite Hget.
  - intros k Hk. rewrite storage_get_set. by rewrite decide_False.
Qed.

Lemma update_changes_one_dict_witness :
  let update_data : gmap string MockRepo.pyval :=
    {[ "id" := MockRepo.VStr "i-9"; "status" := MockRepo.VStr "resolved" ]} in
  let updated :=
    MockRepo.update Scenario.fromisoformat Scenario.store4 "i-2" update_data
      "2024-01-04T00:00:00" in
  let it := Scenario.stored_item "i-2" "open" "2024-01-02T00:00:00" in
  ∃ it',
    MockRepo.storage_get updated.2 (MockRepo.VStr "i-2") = Some it'
    ∧ it' !! "id" = it !! "id"
    ∧ it' !! "updated_at" = Some (MockRepo.VStr "2024-01-04T00:00:00")
    ∧ (∀ k, k ≠ "id" → k ≠ "updated_at" →
         it' !! k = match update_data !! k with
                    | Some v => Some v
                    | None => it !! k
                    end)
    ∧ updated.1 = match MockRepo._dict_to_response Scenario.fromisoformat it'
                  with
                  | Ok r => Ok (Some r)
                  | Raise e => Raise e
                  end
    ∧ updated.2.*1 = Scenario.store4.*1
    ∧ (∀ k, k ≠ MockRepo.VStr "i-2" →
         MockRepo.storage_get updated.2 k
         = MockRepo.storage_get Scenario.store4 k).
Proof.
  apply (update_changes_one_dict Scenario.fromisoformat Scenario.store4 "i-2"
           {[ "id" := MockRepo.VStr "i-9";
              "status" := MockRepo.VStr "resolved" ]}
           "2024-01-04T00:00:00"
           (Scenario.stored_item "i-2" "open" "2024-01-02T00:00:00")).
  vm_compute. reflexivity.
Defined.

(** X30.  The index over the in-memory store.  When the Incident Store
    behind [find_similar] is a [MockIncidentRepository] and the candidates
    are read from it (any status filter other than the empty string; for
    "resolved", no cached list), every incident returned is the conversion
    of a dict of that store, has the status asked for, and has an
    embedding in the index. *)
Theorem find_similar_over_mock_store
    (cosine : embedding → embedding → score) (argsort : list score → list nat)
    (fromisoformat : string → result datetime)
    (incidents : MockRepo.storage) (st : VectorRepo.state)
    (now_check now_capture : datetime)
    (query : embedding) (limit : Z) (filters : option (gmap string string))
    (results : list (IncidentResponse * score)) :
  let amb := {| VectorRepo.now_check := now_check;
                VectorRepo.now_capture := now_capture;
                VectorRepo.list_all :=
                  Spec.mock_list_all fromisoformat incidents |} in
  VectorRepo.status_filter_of filters ≠ "" →
  VectorRepo._resolved_incidents_cache st = None →
  VectorRepo.value
    (VectorRepo.find_similar cosine argsort st amb query limit filters)
  = Ok results →
  ∀ r, r ∈ results →
    Spec.stored fromisoformat incidents r.1
    ∧ status_value (status r.1) = VectorRepo.status_filter_of filters
    ∧ is_Some (VectorRepo.get_embedding st (id r.1)).
Proof.
  intros amb Hne Hcache H r Hr.
  apply find_similar_rank in H as (candidates & Hc & H).
  destruct (rank_results_are_candidates _ _ _ _ _ _ _ H r Hr)
    as (Hin & e & He & _).
  assert (Hpage : ∃ page,
            Spec.mock_list_all fromisoformat incidents 10000
              (VectorRepo.status_filter_of filters) = Ok page
            ∧ r.1 ∈ page).
  { unfold VectorRepo.get_candidates in Hc.
    case_bool_decide as Hs.
    - unfold VectorRepo._get_resolved_incidents in Hc. rewrite Hcache in Hc.
      unfold VectorRepo.fetch_resolved in Hc. rewrite Hs.
      cbn [VectorRepo.list_all amb] in Hc.
      destruct (Spec.mock_list_all fromisoformat incidents 10000 "resolved")
        as [page|?]; [|done].
      simpl in Hc. injection Hc as <-. exists page. split; [done|].
      by apply list_elem_of_filter in Hin as [_ Hin].
    - cbn [VectorRepo.list_all amb] in Hc.
      destruct (Spec.mock_list_all fromisoformat incidents 10000
                  (VectorRepo.status_filter_of filters))
        as [page|?]; [|done].
      simpl in Hc. injection Hc as <-. exists page. split; [done|].
      by apply list_elem_of_filter in Hin as [_ Hin]. }
  destruct Hpage as (page & Hpage & Hrp).
  unfold Spec.mock_list_all in Hpage.
  destruct (MockRepo.list_all fromisoformat incidents 10000 None
              (Some (VectorRepo.status_filter_of filters)) None None)
    as [[page' next]|?] eqn:Hl; [|done].
  injection Hpage as ->.
  apply list_all_page in Hl as (all & Hall & -> & _ & _).
  apply listing_spec in Hall as (_ & Hstored & Hsf & _ & _).
  assert (Hra : r.1 ∈ all).
  { eapply elem_of_sublist; [exact Hrp|apply py_slice_sublist]. }
  split_and!.
  - rewrite Forall_forall in Hstored. by apply Hstored.
  - specialize (Hsf (VectorRepo.status_filter_of filters)
                  (conj eq_refl Hne)).
    rewrite Forall_forall in Hsf. by apply Hsf.
  - unfold VectorRepo.get_embedding. by rewrite He.
Qed.

Lemma find_similar_over_mock_store_witness :
  ∃ results : list (IncidentResponse * score),
    id <$> results.*1 = ["i-1"; "i-4"]
    ∧ ∀ r, r ∈ results →
        Spec.stored Scenario.fromisoformat Scenario.store4 r.1
        ∧ status_value (status r.1) = VectorRepo.status_filter_of None
        ∧ is_Some (VectorRepo.get_embedding Scenario.index_store4 (id r.1)).
Proof.
  destruct (VectorRepo.value
              (VectorRepo.find_similar Scenario.dot Numpy.insertion_argsort
                 Scenario.index_store4
                 {| VectorRepo.now_check := Scenario.minutes 0;
                    VectorRepo.now_capture := Scenario.minutes 0;
                    VectorRepo.list_all :=
                      Spec.mock_list_all Scenario.fromisoformat
                        Scenario.store4 |}
                 Scenario.u34 5 None)) as [results|e] eqn:E;
    [|vm_compute in E; discriminate E].
  exists results. split.
  - vm_compute in E. injection E as <-. reflexivity.
  - apply (find_similar_over_mock_store Scenario.dot Numpy.insertion_argsort
             Scenario.fromisoformat Scenario.store4 Scenario.index_store4
             (Scenario.minutes 0) (Scenario.minutes 0) Scenario.u34 5 None
             results).
    + vm_compute. discriminate.
    + reflexivity.
    + exact E.
Defined.
